(** * TSDuck: PMT codec, MJD codec, joint termination and ForkPipe::write

    Shallow embedding of the parts of TSDuck that the specification
    talks about:
    - [src/libtsduck/tsPMT.cpp]: [ts::PMT::deserialize], [ts::PMT::serialize],
      [ts::PMT::Stream::isVideo], [isAudio], [isSubtitles];
    - [tsForkPipe.cpp]: [ts::ForkPipe::write] (both platform branches);
    - [tspJointTermination.h]: the joint termination counters;
    - [tsMJD.h]: [DecodeMJD] / [EncodeMJD] (declarations only).

    Bytes and machine integers are [Z] with the wrap-around written out.
    A [(data, remain)] pair of the C++ code (a read pointer and the number
    of bytes left behind it) is the list of the bytes left: [remain] is its
    length. *)

From Stdlib Require Import ZArith List Bool Lia Sorted Permutation.
Import ListNotations.
Open Scope Z_scope.

(* ------------------------------------------------------------------------- *)
(** * Part I: definitions                                                     *)
(* ------------------------------------------------------------------------- *)

(** ** Big-endian 16-bit accessors (tsPlatform.h: GetUInt16 / PutUInt16) *)

Definition len {A} (l : list A) : Z := Z.of_nat (length l).

Definition uint8 (v : Z) : Z := Z.land v 0xFF.
Definition uint16 (v : Z) : Z := Z.land v 0xFFFF.

Definition GetUInt16 (p : list Z) : Z :=
  Z.lor (Z.shiftl (nth 0 p 0) 8) (nth 1 p 0).

Definition PutUInt16 (v : Z) : list Z :=
  [uint8 (Z.shiftr (uint16 v) 8); uint8 (uint16 v)].

Definition is_byte (b : Z) : Prop := 0 <= b < 256.

(** A check on the [n] integers from [from] on, by running through them. *)
Fixpoint forall_range (P : Z -> bool) (n : nat) (from : Z) : bool :=
  match n with
  | O => true
  | S n' => P from && forall_range P n' (from + 1)
  end.

(** ** Descriptors and descriptor lists *)

(** Modelled from the spec: the classes Descriptor and DescriptorList
    (tsDescriptor.h, tsDescriptorList.h/.cpp) are outside the files covered
    here.  The spec (data model, "Descriptor List") gives an ordered
    sequence of (tag, length, payload); the length byte is the payload's
    length. *)
Record Descriptor := mkDescriptor {
  tag : Z;
  payload : list Z
}.

(** Modelled from the spec: DescriptorList is an "ordered sequence" of
    descriptors. *)
Definition DescriptorList := list Descriptor.

Module Desc.

(** Modelled from the spec: DescriptorList::count, the number of
    descriptors of the sequence. *)
Definition count (dl : DescriptorList) : nat := length dl.

(** Modelled from the spec: Descriptor::content, the binary image of one
    descriptor: tag, length, payload. *)
Definition content (d : Descriptor) : list Z :=
  tag d :: len (payload d) :: payload d.

(** Modelled from the spec: Descriptor::size, the size of the binary
    image. *)
Definition size (d : Descriptor) : Z := 2 + len (payload d).

(** Modelled from the spec: DescriptorList::add(data, size) "parses
    consecutive TLVs; malformed trailing bytes are discarded".  The parsed
    descriptors are appended to the list.  [data] holds the [size] bytes. *)
Fixpoint add_loop (fuel : nat) (data : list Z) (dl : DescriptorList)
  : DescriptorList :=
  match fuel with
  | O => dl
  | S fuel' =>
      match data with
      | t :: l :: rest =>
          if l + 2 <=? len data
          then add_loop fuel' (skipn (Z.to_nat l) rest)
                        (dl ++ [mkDescriptor t (firstn (Z.to_nat l) rest)])
          else dl
      | _ => dl
      end
  end.

(** Modelled from the spec: DescriptorList::add, the loop above on the
    [size] bytes of [data]; each turn takes at least two bytes. *)
Definition add (dl : DescriptorList) (data : list Z) : DescriptorList :=
  add_loop (length data) data dl.

(** Modelled from the spec: DescriptorList::search, "lookup is by tag with
    optional starting index".  The callers in tsPMT.cpp compare the result
    with [count()]: the index of the first descriptor with that tag at or
    after [start], the count when there is none. *)
Fixpoint search_loop (fuel : nat) (dl : DescriptorList) (t : Z) (index : nat)
  : nat :=
  match fuel with
  | O => index
  | S fuel' =>
      match nth_error dl index with
      | Some d => if tag d =? t then index
                  else search_loop fuel' dl t (S index)
      | None => index
      end
  end.

(** Modelled from the spec: DescriptorList::search, the loop above from
    [start]; it makes at most [count] turns. *)
Definition search (dl : DescriptorList) (t : Z) (start : nat) : nat :=
  search_loop (length dl) dl t start.

(** Modelled from the spec: DescriptorList::serialize copies descriptors, in
    order, while the next one fits in the [remain] bytes left, and returns
    the index of the first descriptor that did not fit. *)
Fixpoint serialize (dl : DescriptorList) (index : nat) (remain : Z)
  : list Z * Z * nat :=
  match dl with
  | [] => ([], remain, index)
  | d :: dl' =>
      if size d <=? remain
      then let '(bytes, remain', next) :=
             serialize dl' (S index) (remain - size d) in
           (content d ++ bytes, remain', next)
      else ([], remain, index)
  end.

(** Modelled from the spec: lengthSerialize(buf, remain) "writes a 12-bit
    length prefix followed by descriptors, returning the index of the first
    descriptor that did not fit (equal to count on success)".  The four
    reserved bits above the length are ones (scenario S1: F0 00).  Returns
    the bytes written, the space left and the next index. *)
Definition lengthSerialize (dl : DescriptorList) (remain : Z)
  : list Z * Z * nat :=
  let '(bytes, remain', next) := serialize dl 0 (remain - 2) in
  (PutUInt16 (Z.lor (len bytes) 0xF000) ++ bytes, remain', next).

End Desc.

(** ** Constants of tsMPEG.h

    tsMPEG.h is outside the files covered here.  The descriptor tags are
    those of the spec's "Descriptor identifiers used by PMT predicates",
    "values per ETSI EN 300 468". *)

(** Modelled from the spec: DID_TELETEXT, Teletext (0x56). *)
Definition DID_TELETEXT : Z := 0x56.

(** Modelled from the spec: DID_SUBTITLING, Subtitling (0x59). *)
Definition DID_SUBTITLING : Z := 0x59.

(** Modelled from the spec: DID_AC3, AC-3 (0x6A). *)
Definition DID_AC3 : Z := 0x6A.

(** Modelled from the spec: DID_ENHANCED_AC3, Enhanced-AC-3 (0x7A). *)
Definition DID_ENHANCED_AC3 : Z := 0x7A.

(** Modelled from the spec: DID_DTS, DTS, whose value per ETSI EN 300 468
    is 0x7B. *)
Definition DID_DTS : Z := 0x7B.

(** Modelled from the spec: DID_AAC, AAC (0x7C). *)
Definition DID_AAC : Z := 0x7C.

(** Modelled from the spec: TID_PMT, "table_id=0x02" (spec, "PMT
    section"). *)
Definition TID_PMT : Z := 0x02.

(** Modelled from the spec: PID_NULL; a PID has 13 bits, the null PID is
    the last one. *)
Definition PID_NULL : Z := 0x1FFF.

(** Modelled from the spec: MAX_PSI_LONG_SECTION_PAYLOAD_SIZE, "1021 bytes
    after header, before CRC" (spec, PMT codec, "Serialize"). *)
Definition MAX_PSI_LONG_SECTION_PAYLOAD_SIZE : Z := 1021.

(** ** Sections and binary tables *)

(** Modelled from the spec: the classes Section and BinaryTable are outside
    the files covered here.  A section is the record of the header fields
    that tsPMT.cpp passes to the constructor and reads back, and of its
    payload; "a table is a sequence of sections sharing table_id and
    tid_extension", valid once its sections are all there. *)
Record Section := mkSection {
  sec_tid : Z;
  sec_is_private : bool;
  sec_tid_ext : Z;
  sec_version : Z;
  sec_is_current : bool;
  sec_number : Z;
  sec_last_number : Z;
  sec_payload : list Z
}.

(** Modelled from the spec: BinaryTable, its validity, its table id and
    its sections in order. *)
Record BinaryTable := mkBinaryTable {
  bt_is_valid : bool;
  bt_tid : Z;
  bt_sections : list Section
}.

Module Table.

(** Modelled from the spec: the accessors of BinaryTable that tsPMT.cpp
    calls. *)
Definition isValid (t : BinaryTable) : bool := bt_is_valid t.
Definition tableId (t : BinaryTable) : Z := bt_tid t.
Definition sectionCount (t : BinaryTable) : nat := length (bt_sections t).

(** Modelled from the spec: BinaryTable::clear leaves an invalid table
    without section. *)
Definition clear : BinaryTable := mkBinaryTable false 0xFF [].

(** Modelled from the spec: BinaryTable::addSection; the first section
    gives the table its table id and its number of sections. *)
Definition addSection (sect : Section) (t : BinaryTable) : BinaryTable :=
  let first := hd sect (bt_sections t) in
  let sections := bt_sections t ++ [sect] in
  mkBinaryTable (len sections =? sec_last_number first + 1)
                (sec_tid first) sections.

End Table.

(** ** The PMT (tsPMT.cpp) *)

Module PMT.

(** *** PMT::Stream and its predicates (lines 217-257) *)

Module Stream.

Record t := mk {
  stream_type : Z;
  descs : DescriptorList
}.

(** Modelled from the spec: the default constructor of PMT::Stream
    (tsPMT.h is outside the files covered here); a stream is [{stream_type,
    descriptors}], a new one has no descriptor.  (The stream type of a new
    entry is always assigned right after its creation.) *)
Definition default : t := mk 0 [].

Section WithStreamTypeTables.

(** [IsVideoST] and [IsAudioST] (tsMPEG.h) are tables of stream types that
    are outside the files covered here: they are parameters. *)
Variable IsVideoST : Z -> bool.
Variable IsAudioST : Z -> bool.

Definition isVideo (s : t) : bool := IsVideoST (stream_type s).

Definition isAudio (s : t) : bool :=
  IsAudioST (stream_type s)
  || (Desc.search (descs s) DID_DTS 0 <? Desc.count (descs s))%nat
  || (Desc.search (descs s) DID_AC3 0 <? Desc.count (descs s))%nat
  || (Desc.search (descs s) DID_ENHANCED_AC3 0 <? Desc.count (descs s))%nat
  || (Desc.search (descs s) DID_AAC 0 <? Desc.count (descs s))%nat.

End WithStreamTypeTables.

(** Inner loop of isSubtitles: [while (size >= 5)] over the language
    entries of one teletext descriptor. *)
Fixpoint teletext_entries (fuel : nat) (data : list Z) : bool :=
  match fuel with
  | O => false
  | S fuel' =>
      if 5 <=? len data then
        let ttype := uint8 (Z.shiftr (nth 3 data 0) 3) in
        if (ttype =? 0x02) || (ttype =? 0x05) then true
        else teletext_entries fuel' (skipn 5 data)
      else false
  end.

(** Outer loop of isSubtitles:
    [for (index = 0; (index = search(DID_TELETEXT, index)) < count; ++index)]. *)
Fixpoint teletext_loop (fuel : nat) (dl : DescriptorList) (index : nat)
  : bool :=
  match fuel with
  | O => false
  | S fuel' =>
      let index := Desc.search dl DID_TELETEXT index in
      if (index <? Desc.count dl)%nat then
        let data := payload (nth index dl (mkDescriptor 0 [])) in
        if teletext_entries (length data) data then true
        else teletext_loop fuel' dl (S index)
      else false
  end.

Definition isSubtitles (s : t) : bool :=
  if (Desc.search (descs s) DID_SUBTITLING 0 <? Desc.count (descs s))%nat
  then true
  else teletext_loop (S (length (descs s))) (descs s) 0.

(** A teletext descriptor payload that has a 5-byte language entry whose
    teletext type (the five upper bits of its fourth byte) is 2 or 5. *)
Definition subtitle_entry (data : list Z) : Prop :=
  exists k : nat,
    5 * Z.of_nat k + 5 <= len data
    /\ (uint8 (Z.shiftr (nth (5 * k + 3) data 0) 3) = 0x02
        \/ uint8 (Z.shiftr (nth (5 * k + 3) data 0) 3) = 0x05).

End Stream.

(** *** The stream map: std::map<PID, Stream>

    An association list kept in strictly ascending PID order, which is the
    order of iteration of the C++ map. *)
Definition StreamMap := list (Z * Stream.t).

Fixpoint find (pid : Z) (m : StreamMap) : option Stream.t :=
  match m with
  | [] => None
  | (k, s) :: m' => if pid =? k then Some s else find pid m'
  end.

(** [Stream& str (streams[pid])] followed by writes through [str]: the
    entry of [pid] is created with the default constructor when the map has
    none, then [f] is applied to it in place. *)
Fixpoint update (pid : Z) (f : Stream.t -> Stream.t) (m : StreamMap)
  : StreamMap :=
  match m with
  | [] => [(pid, f Stream.default)]
  | (k, s) :: m' =>
      if pid <? k then (pid, f Stream.default) :: m
      else if pid =? k then (k, f s) :: m'
      else (k, s) :: update pid f m'
  end.

(** *** The table object

    [_table_id] is not a field here: both constructors (lines 47 and 62)
    set it to TID_PMT and nothing changes it. *)
Record t := mk {
  _is_valid : bool;
  version : Z;
  is_current : bool;
  service_id : Z;
  pcr_pid : Z;
  descs : DescriptorList;
  streams : StreamMap
}.

(** Default constructor (lines 42-54). *)
Definition new (version_ : Z) (is_current_ : bool) (service_id_ pcr_pid_ : Z)
  : t := mk true version_ is_current_ service_id_ pcr_pid_ [] [].

(** *** Deserialization (lines 76-141) *)

(** [while (remain >= 5)]: the elementary streams description. *)
Fixpoint streams_loop (fuel : nat) (data : list Z) (m : StreamMap)
  : StreamMap :=
  match fuel with
  | O => m
  | S fuel' =>
      if 5 <=? len data then
        let pid := Z.land (GetUInt16 (skipn 1 data)) 0x1FFF in
        let stype := nth 0 data 0 in
        let info_length := Z.land (GetUInt16 (skipn 3 data)) 0x0FFF in
        let data := skipn 5 data in
        let info_length := Z.min info_length (len data) in
        let m := update pid
                   (fun str =>
                      Stream.mk stype
                        (Desc.add (Stream.descs str)
                                  (firstn (Z.to_nat info_length) data)))
                   m in
        streams_loop fuel' (skipn (Z.to_nat info_length) data) m
      else m
  end.

(** Body of the loop on sections.  [inl] is the early [return] (the object
    is left invalid), [inr] goes on with the next section. *)
Definition deserialize_section (self : t) (sect : Section) : t + t :=
  let self := mk (_is_valid self) (sec_version sect) (sec_is_current sect)
                 (sec_tid_ext sect) (pcr_pid self) (descs self)
                 (streams self) in
  let data := sec_payload sect in
  if len data <? 2 then inl self
  else
    let self := mk (_is_valid self) (version self) (is_current self)
                   (service_id self) (Z.land (GetUInt16 data) 0x1FFF)
                   (descs self) (streams self) in
    let data := skipn 2 data in
    if len data <? 2 then inl self
    else
      let info_length := Z.land (GetUInt16 data) 0x0FFF in
      let data := skipn 2 data in
      let info_length := Z.min info_length (len data) in
      let dl := Desc.add (descs self) (firstn (Z.to_nat info_length) data) in
      let data := skipn (Z.to_nat info_length) data in
      inr (mk (_is_valid self) (version self) (is_current self)
              (service_id self) (pcr_pid self) dl
              (streams_loop (length data) data (streams self))).

Fixpoint sections_loop (self : t) (sections : list Section) : t :=
  match sections with
  | [] => mk true (version self) (is_current self) (service_id self)
             (pcr_pid self) (descs self) (streams self)
  | sect :: rest =>
      match deserialize_section self sect with
      | inl self' => self'
      | inr self' => sections_loop self' rest
      end
  end.

Definition deserialize (self : t) (table : BinaryTable) : t :=
  let self := mk false (version self) (is_current self) 0 PID_NULL [] [] in
  if negb (Table.isValid table) || negb (Table.tableId table =? TID_PMT)
  then self
  else sections_loop self (bt_sections table).

(** Constructor from a binary table (lines 61-69).  The fields [version]
    and [is_current] come from AbstractLongTable(TID_PMT), which is outside
    the files covered here: they are arguments. *)
Definition of_table (version0 : Z) (is_current0 : bool)
  (table : BinaryTable) : t :=
  deserialize (mk false version0 is_current0 0 PID_NULL [] []) table.

(** *** Serialization (lines 148-208) *)

(** The loop on the streams.  [None] is one of the two [return] statements
    of its body; [Some (bytes, remain)] is the normal exit of the loop. *)
Fixpoint serialize_streams (m : StreamMap) (remain : Z)
  : option (list Z * Z) :=
  match m with
  | [] => Some ([], remain)
  | (pid, s) :: m' =>
      if 5 <=? remain then
        if remain <? 5 then None
        else
          let head := uint8 (Stream.stream_type s)
                      :: PutUInt16 (Z.lor pid 0xE000) in
          let remain := remain - 3 in
          let '(bytes, remain, next_index) :=
            Desc.lengthSerialize (Stream.descs s) remain in
          if negb (next_index =? Desc.count (Stream.descs s))%nat then None
          else
            match serialize_streams m' remain with
            | Some (rest, remain) => Some (head ++ bytes ++ rest, remain)
            | None => None
            end
      else Some ([], remain)
  end.

Definition serialize (self : t) : BinaryTable :=
  let table := Table.clear in
  if negb (_is_valid self) then table
  else
    let remain := MAX_PSI_LONG_SECTION_PAYLOAD_SIZE in
    let pcr := PutUInt16 (Z.lor (pcr_pid self) 0xE000) in
    let remain := remain - 2 in
    let '(bytes, remain, _) := Desc.lengthSerialize (descs self) remain in
    match serialize_streams (streams self) remain with
    | None => table
    | Some (sbytes, _) =>
        Table.addSection
          (mkSection TID_PMT false (service_id self) (version self)
                     (is_current self) 0 0 (pcr ++ bytes ++ sbytes))
          table
    end.

(** *** Vocabulary of the statements about the codec *)

(** Modelled from the spec: the type PID is declared in tsMPEG.h, outside
    the files covered here; a PID is a "13-bit packet identifier", which
    is what the masks 0x1FFF and 0xE000 of tsPMT.cpp keep. *)
Definition is_pid (p : Z) : Prop := 0 <= p < 0x2000.

(** A descriptor that has a binary image: one byte of tag, one byte of
    length, bytes of payload. *)
Definition wf_descriptor (d : Descriptor) : Prop :=
  is_byte (tag d) /\ len (payload d) <= 255 /\ Forall is_byte (payload d).

Definition wf_stream (s : Stream.t) : Prop :=
  is_byte (Stream.stream_type s) /\ Forall wf_descriptor (Stream.descs s).

Definition wf_entry (e : Z * Stream.t) : Prop :=
  is_pid (fst e) /\ wf_stream (snd e).

(** The order of a std::map: keys strictly ascending. *)
Definition ascending (m : StreamMap) : Prop :=
  StronglySorted (fun a b => fst a < fst b) m.

(** The values a PMT object can hold. *)
Record wf (p : t) : Prop := mk_wf {
  wf_pcr_pid : is_pid (pcr_pid p);
  wf_descs : Forall wf_descriptor (descs p);
  wf_streams : Forall wf_entry (streams p);
  wf_ascending : ascending (streams p)
}.

(** Sizes, in bytes, of the binary images. *)
Definition descs_size (dl : DescriptorList) : Z :=
  fold_right (fun d n => Desc.size d + n) 0 dl.

Definition streams_size (m : StreamMap) : Z :=
  fold_right (fun e n => 5 + descs_size (Stream.descs (snd e)) + n) 0 m.

(** The combined payload: PCR PID field, program descriptors with their
    length field, and all stream entries. *)
Definition payload_size (p : t) : Z :=
  2 + (2 + descs_size (descs p)) + streams_size (streams p).


(** The binary image of a descriptor list and of one stream entry
    (ISO/IEC 13818-1, 2.4.4.8), as the section payload carries them. *)
Definition descs_bytes (dl : DescriptorList) : list Z :=
  concat (map Desc.content dl).

Definition stream_entry (e : Z * Stream.t) : list Z :=
  Stream.stream_type (snd e)
  :: PutUInt16 (Z.lor (fst e) 0xE000)
  ++ PutUInt16 (Z.lor (len (descs_bytes (Stream.descs (snd e)))) 0xF000)
  ++ descs_bytes (Stream.descs (snd e)).

(** What the loop on the stream entries does to the stream of a PID when
    it meets the entry [e]. *)
Definition merge_entry (e : Z * Stream.t) (str : Stream.t) : Stream.t :=
  Stream.mk (Stream.stream_type (snd e))
            (Stream.descs str ++ Stream.descs (snd e)).

(** The payload of the section of a PMT: PCR PID, program descriptors,
    stream entries in the order of the map. *)
Definition payload_image (p : t) : list Z :=
  PutUInt16 (Z.lor (pcr_pid p) 0xE000)
  ++ (PutUInt16 (Z.lor (len (descs_bytes (descs p))) 0xF000)
      ++ descs_bytes (descs p))
  ++ concat (map stream_entry (streams p)).


(** The stream entries of a payload, met in this order. *)
Definition merge_all (es : list (Z * Stream.t)) (m : StreamMap) : StreamMap :=
  fold_left (fun m e => update (fst e) (merge_entry e) m) es m.

(** The entries of a PID among the stream entries of a payload. *)
Definition occurrences (pid : Z) (es : list (Z * Stream.t))
  : list (Z * Stream.t) :=
  filter (fun e => fst e =? pid) es.

(** The stream that [streams[pid]] refers to. *)
Definition stream_of (o : option Stream.t) : Stream.t :=
  match o with Some s => s | None => Stream.default end.

(** Inputs of the scenarios. *)

(** A PMT with a program descriptor and three streams. *)
Definition example : t :=
  mk true 3 true 0x0407 0x0100
    [mkDescriptor 0x09 [0x01; 0x00; 0xE2; 0x00]]
    [(0x0100, Stream.mk 0x1B []);
     (0x0101, Stream.mk 0x06 [mkDescriptor 0x6A []; mkDescriptor 0x0A [0x65; 0x6E; 0x67; 0x00]]);
     (0x0102, Stream.mk 0x06 [mkDescriptor 0x56 [0x66; 0x72; 0x61; 0x10; 0x88]])].


(** A section whose two stream entries carry the same PID 0x0100: the
    first with stream type 0x1B and a descriptor of tag 0x0A, the second
    with stream type 0x06 and a descriptor of tag 0x6A. *)
Definition duplicate_pid_table : BinaryTable :=
  mkBinaryTable true TID_PMT
    [mkSection TID_PMT false 1 0 true 0 0
       [0xE1; 0x00; 0xF0; 0x00;
        0x1B; 0xE1; 0x00; 0xF0; 0x02; 0x0A; 0x00;
        0x06; 0xE1; 0x00; 0xF0; 0x02; 0x6A; 0x00]].

(** [n] streams without descriptor, on the PIDs 0 to n-1. *)
Definition plain_streams (n : nat) : StreamMap :=
  map (fun k => (Z.of_nat k, Stream.mk 0x1B [])) (seq 0 n).

(** A valid PMT with 204 streams: 4 + 204 * 5 = 1024 bytes of payload. *)
Definition pmt_204_streams : t :=
  mk true 0 true 1 PID_NULL [] (plain_streams 204).

(** A valid PMT with five program descriptors of 257 bytes each:
    4 + 5 * 257 = 1289 bytes of payload. *)
Definition pmt_5_descriptors : t :=
  mk true 0 true 1 PID_NULL
     (map (fun k => mkDescriptor 0x80 (repeat k 255)) [1; 2; 3; 4; 5]) [].

End PMT.

(** ** ForkPipe::write (tsForkPipe.cpp, lines 529-613) *)

Module ForkPipe.

(** The two branches of [#if defined (TS_WINDOWS)]. *)
Inductive Platform := Windows | Unix.

Inductive InputMode := USE_PIPE | KEEP_STDIN.

(** The fields of the object that [write] reads or writes.  The handle or
    file descriptor of the pipe is the operating system's side, see
    [Answer]. *)
Record t := mk {
  _in_mode : InputMode;
  _is_open : bool;
  _synchronous : bool;
  _ignore_abort : bool;
  _broken_pipe : bool
}.

(** System error codes (errno.h on Linux, winerror.h on Windows). *)
Definition SYS_SUCCESS : Z := 0.
Definition EINTR : Z := 4.
Definition EPIPE : Z := 32.
Definition ERROR_BROKEN_PIPE : Z := 109.
Definition ERROR_NO_DATA : Z := 232.

(** One answer of the operating system to a write on the pipe:
    - [ret]: the value returned by [::write] (UNIX) or [::WriteFile]
      (Windows);
    - [written]: the count that WriteFile stores in [outsize] (Windows);
    - [errcode]: what [LastErrorCode()] returns after the call. *)
Record Answer := mkAnswer {
  ret : Z;
  written : Z;
  errcode : Z
}.

(** The messages that [write] sends to the report. *)
Inductive Message :=
| Error_pipe_is_not_open
| Error_process_was_created_without_pipe
| Error_writing_to_pipe (error_code : Z)
| Verbose_broken_pipe.

Definition is_error (m : Message) : bool :=
  match m with
  | Verbose_broken_pipe => false
  | _ => true
  end.

(** The local variables of the loop, and the calls made so far: the count
    of bytes asked for and the answer, oldest first. *)
Record Loop := mkLoop {
  remain : Z;
  error : bool;
  error_code : Z;
  broken_pipe : bool;
  calls : list (Z * Answer)
}.

(** [size_t] has 64 bits, [DWORD] has 32. *)
Definition size_t (v : Z) : Z := v mod 2 ^ 64.
Definition DWORD (v : Z) : Z := v mod 2 ^ 32.

(** One turn of the loop [while (remain > 0 && !error)], given the answer
    of the system to its call. *)
Definition turn (pf : Platform) (a : Answer) (s : Loop) : Loop :=
  let calls := calls s ++ [(remain s, a)] in
  match pf with
  | Windows =>
      if negb (ret a =? 0) then
        let outsize := DWORD (written a) in
        mkLoop (DWORD (remain s - Z.max (remain s) outsize))
               (error s) (error_code s) (broken_pipe s) calls
      else
        let error_code := errcode a in
        mkLoop (remain s) true error_code
               ((error_code =? ERROR_BROKEN_PIPE)
                || (error_code =? ERROR_NO_DATA))
               calls
  | Unix =>
      let outsize := ret a in
      if 0 <? outsize then
        mkLoop (size_t (remain s - Z.max (remain s) (size_t outsize)))
               (error s) (error_code s) (broken_pipe s) calls
      else
        let error_code := errcode a in
        if negb (error_code =? EINTR) then
          mkLoop (remain s) true error_code (error_code =? EPIPE) calls
        else
          mkLoop (remain s) (error s) error_code (broken_pipe s) calls
  end.

(** The loop.  The system answers one call after the other; [None] when
    the loop asks for more answers than the system gives. *)
Fixpoint write_loop (pf : Platform) (answers : list Answer) (s : Loop)
  : option (Loop * list Answer) :=
  if (0 <? remain s) && negb (error s) then
    match answers with
    | [] => None
    | a :: answers' => write_loop pf answers' (turn pf a s)
    end
  else Some (s, answers).

(** What a call of [write] leaves: the returned value, the object, the
    messages reported, the calls to the system and the answers not used. *)
Record Outcome := mkOutcome {
  result : bool;
  pipe : t;
  reports : list Message;
  os_calls : list (Z * Answer);
  unused : list Answer
}.

Definition initial_remain (pf : Platform) (size : Z) : Z :=
  match pf with
  | Windows => DWORD size
  | Unix => size
  end.

Definition write (pf : Platform) (self : t) (size : Z)
  (answers : list Answer) : option Outcome :=
  if negb (_is_open self) then
    Some (mkOutcome false self [Error_pipe_is_not_open] [] answers)
  else
    match _in_mode self with
    | KEEP_STDIN =>
        Some (mkOutcome false self [Error_process_was_created_without_pipe]
                        [] answers)
    | USE_PIPE =>
        if _broken_pipe self then
          Some (mkOutcome (_ignore_abort self) self [] [] answers)
        else
          match write_loop pf answers
                  (mkLoop (initial_remain pf size) false SYS_SUCCESS
                          (_broken_pipe self) [])
          with
          | None => None
          | Some (s, answers') =>
              let self := mk (_in_mode self) (_is_open self)
                             (_synchronous self) (_ignore_abort self)
                             (broken_pipe s) in
              if negb (error s) then
                Some (mkOutcome true self [] (calls s) answers')
              else if negb (broken_pipe s) then
                Some (mkOutcome false self
                                [Error_writing_to_pipe (error_code s)]
                                (calls s) answers')
              else if _ignore_abort self then
                Some (mkOutcome true self [Verbose_broken_pipe]
                                (calls s) answers')
              else
                Some (mkOutcome false self [] (calls s) answers')
          end
    end.

(** *** Vocabulary of the statements about [write] *)

(** The call wrote some data ("Normal case, some data were written"). *)
Definition successful (pf : Platform) (a : Answer) : bool :=
  match pf with
  | Windows => negb (ret a =? 0)
  | Unix => 0 <? ret a
  end.

(** The count of bytes that the system took in a successful call. *)
Definition outsize (pf : Platform) (a : Answer) : Z :=
  match pf with
  | Windows => DWORD (written a)
  | Unix => ret a
  end.

(** The call failed on an interrupt, which is not an "actual error". *)
Definition interrupted (pf : Platform) (a : Answer) : bool :=
  match pf with
  | Windows => false
  | Unix => negb (0 <? ret a) && (errcode a =? EINTR)
  end.

(** The error codes of a broken pipe. *)
Definition is_broken_pipe (pf : Platform) (code : Z) : bool :=
  match pf with
  | Windows => (code =? ERROR_BROKEN_PIPE) || (code =? ERROR_NO_DATA)
  | Unix => code =? EPIPE
  end.

Definition successful_calls (pf : Platform) (l : list (Z * Answer))
  : list (Z * Answer) :=
  filter (fun c => successful pf (snd c)) l.

(** The bytes that went into the pipe. *)
Definition bytes_written (pf : Platform) (l : list (Z * Answer)) : Z :=
  fold_right (fun c n => outsize pf (snd c) + n) 0 (successful_calls pf l).

(** The system never takes more bytes than it is asked to
    ([assert(outsize <= remain)]). *)
Definition within_request (pf : Platform) (size : Z) (a : Answer) : Prop :=
  successful pf a = true -> 0 <= outsize pf a <= initial_remain pf size.

(** An open pipe, not broken yet. *)
Definition open_pipe (ignore_abort : bool) : t :=
  mk USE_PIPE true false ignore_abort false.

End ForkPipe.

(** ** Joint termination (tspJointTermination.h) *)

Module JointTermination.

(** PacketCounter is an unsigned 64-bit integer. *)
Definition PacketCounter (v : Z) : Z := v mod 2 ^ 64.
Definition PacketCounter_MAX : Z := 2 ^ 64 - 1.

(** The static private data of the class (lines 76-80), "accessed
    exclusively under the protection of the global mutex":
    - [_jt_users]: number of plugins using joint termination;
    - [_jt_remaining]: number of plugins using joint termination but not
      yet completed;
    - [_jt_hightest_pkt]: highest packet number for completed plugins. *)
Record Globals := mkGlobals {
  _jt_users : Z;
  _jt_remaining : Z;
  _jt_hightest_pkt : Z
}.

(** The private data of one object (lines 71-74), one per stage. *)
Record t := mk {
  _total_packets : Z;
  _ignore_jt : bool;
  _use_jt : bool;
  _jt_completed : bool
}.

(** Modelled from the spec: the constructor is only declared; a stage
    starts without packet, not opted in and not completed. *)
Definition new (ignore_jt : bool) : t := mk 0 ignore_jt false false.

(** Inline members of the header (lines 54-64). *)
Definition addTotalPackets (incr : Z) (self : t) : t :=
  mk (PacketCounter (_total_packets self + incr)) (_ignore_jt self)
     (_use_jt self) (_jt_completed self).

Definition totalPackets (self : t) : Z := _total_packets self.
Definition thisJointTerminated (self : t) : bool := _jt_completed self.

(** Modelled from the spec: useJointTermination(on) is only declared in the
    header.  "Stages opting in declare users++"; "opt-in may be toggled per
    stage; entering/leaving adjusts users".  A stage that enters is a plugin
    using joint termination and not yet completed, one that leaves is not
    any more: [_jt_remaining] moves with [_jt_users]. *)
Definition useJointTermination (on : bool) (self : t) (g : Globals)
  : t * Globals :=
  if on && negb (_use_jt self) then
    (mk (_total_packets self) (_ignore_jt self) true (_jt_completed self),
     mkGlobals (_jt_users g + 1) (_jt_remaining g + 1) (_jt_hightest_pkt g))
  else if negb on && _use_jt self then
    (mk (_total_packets self) (_ignore_jt self) false (_jt_completed self),
     mkGlobals (_jt_users g - 1) (_jt_remaining g - 1) (_jt_hightest_pkt g))
  else (self, g).

(** Modelled from the spec: jointTerminate() is only declared in the
    header.  "When each calls jointTerminate, remaining-- and highest_pkt =
    max(highest_pkt, totalPackets)"; the transition requires "the stage to
    be opted in at that moment", and a stage completes once. *)
Definition jointTerminate (self : t) (g : Globals) : t * Globals :=
  if _use_jt self && negb (_jt_completed self) then
    (mk (_total_packets self) (_ignore_jt self) (_use_jt self) true,
     mkGlobals (_jt_users g) (_jt_remaining g - 1)
               (Z.max (_jt_hightest_pkt g) (totalPackets self)))
  else (self, g).

(** Modelled from the spec: totalPacketsBeforeJointTermination() is only
    declared in the header; it "returns highest_pkt once remaining==0 else
    MAX". *)
Definition totalPacketsBeforeJointTermination (g : Globals) : Z :=
  if _jt_remaining g =? 0 then _jt_hightest_pkt g else PacketCounter_MAX.

(** *** The stages of a pipeline and what they do *)

Record System := mkSystem {
  stages : list t;
  globals : Globals
}.

Inductive Event :=
| UseJointTermination (stage : nat) (on : bool)
| AddTotalPackets (stage : nat) (incr : Z)
| JointTerminate (stage : nat).

Fixpoint set_stage (i : nat) (s : t) (l : list t) : list t :=
  match l, i with
  | [], _ => []
  | _ :: l', O => s :: l'
  | a :: l', S i' => a :: set_stage i' s l'
  end.

Definition step (sys : System) (ev : Event) : System :=
  match ev with
  | UseJointTermination i on =>
      match nth_error (stages sys) i with
      | Some s =>
          let '(s', g') := useJointTermination on s (globals sys) in
          mkSystem (set_stage i s' (stages sys)) g'
      | None => sys
      end
  | AddTotalPackets i incr =>
      match nth_error (stages sys) i with
      | Some s =>
          mkSystem (set_stage i (addTotalPackets incr s) (stages sys))
                   (globals sys)
      | None => sys
      end
  | JointTerminate i =>
      match nth_error (stages sys) i with
      | Some s =>
          let '(s', g') := jointTerminate s (globals sys) in
          mkSystem (set_stage i s' (stages sys)) g'
      | None => sys
      end
  end.

Definition run (sys : System) (trace : list Event) : System :=
  fold_left step trace sys.

(** [n] stages at the start of the pipeline, without the option that
    ignores joint termination. *)
Definition initial (n : nat) : System :=
  mkSystem (repeat (new false) n) (mkGlobals 0 0 0).

(** *** Vocabulary of the statements *)

(** An opted-in stage that has not called jointTerminate yet. *)
Definition waiting (s : t) : bool := _use_jt s && negb (_jt_completed s).

Definition waiting_count (l : list t) : Z :=
  fold_right (fun s n => (if waiting s then 1 else 0) + n) 0 l.

(** The stage of the event does not toggle its opt-in after it has called
    jointTerminate: the state machine of a stage (spec, "Termination
    Coordinator") has no transition from JointRequested back to
    Running. *)
Definition legal (sys : System) (ev : Event) : bool :=
  match ev with
  | UseJointTermination i _ =>
      match nth_error (stages sys) i with
      | Some s => negb (_jt_completed s)
      | None => true
      end
  | _ => true
  end.

Fixpoint legal_trace (sys : System) (trace : list Event) : bool :=
  match trace with
  | [] => true
  | ev :: trace' => legal sys ev && legal_trace (step sys ev) trace'
  end.

(** The totalPackets values that the opted-in stages had at their
    jointTerminate call, in the order of the calls. *)
Fixpoint recorded (sys : System) (trace : list Event) : list Z :=
  match trace with
  | [] => []
  | ev :: trace' =>
      match ev with
      | JointTerminate i =>
          match nth_error (stages sys) i with
          | Some s => if waiting s then [totalPackets s] else []
          | None => []
          end
      | _ => []
      end ++ recorded (step sys ev) trace'
  end.

Definition maximum (l : list Z) : Z := fold_right Z.max 0 l.

(** Scenario S4: two joint users; A calls jointTerminate at total 1000,
    then B at total 1500. *)
Definition s4_first : list Event :=
  [UseJointTermination 0 true; UseJointTermination 1 true;
   AddTotalPackets 0 1000; AddTotalPackets 1 1000; JointTerminate 0].

Definition s4_trace : list Event :=
  s4_first ++ [AddTotalPackets 1 500; JointTerminate 1].

(** A stage after the calls of [addTotalPackets] with the increments of
    [l], in this order. *)
Definition add_all (l : list Z) (self : t) : t :=
  fold_left (fun s incr => addTotalPackets incr s) l self.

End JointTermination.

(** ** Modified Julian Dates (tsMJD.h) *)

Module MJD.

(** Size in bytes of an encoded complete MJD, and of a date only
    (lines 41 and 44). *)
Definition MJD_SIZE : Z := 5.
Definition MJD_MIN_SIZE : Z := 2.

(** Modelled from the spec: ts::Time (tsTime.h) is outside the files
    covered here.  The result of the decoding is a "UTC timestamp", made of a
    date (Y, M, D) and of HH:MM:SS; a time is the record of these. *)
Record Time := mkTime {
  year : Z;
  month : Z;
  day : Z;
  hour : Z;
  minute : Z;
  second : Z
}.

(** Modelled from the spec: the BCD helpers (tsBCD.h) are outside the files
    covered here; "BCD HH:MM:SS" has two decimal digits in a byte, and a
    byte whose digits are both below ten is valid. *)
Definition IsValidBCD (b : Z) : bool :=
  (Z.shiftr b 4 <? 10) && (Z.land b 0x0F <? 10).

(** Modelled from the spec: the value of a BCD byte. *)
Definition DecodeBCD (b : Z) : Z := 10 * Z.shiftr b 4 + Z.land b 0x0F.

(** Modelled from the spec: the BCD byte of a value below 100. *)
Definition EncodeBCD (v : Z) : Z := Z.lor (Z.shiftl (v / 10) 4) (v mod 10).

(** Modelled from the spec: "Days -> (Y,M,D) by the algorithm:
    Y' = floor((MJD - 15078.2) / 365.25);
    M' = floor((MJD - 14956.1 - floor(Y' * 365.25)) / 30.6001);
    D = MJD - 14956 - floor(Y' * 365.25) - floor(M' * 30.6001);
    K = 1 if M' is 14 or 15, else 0; Y = 1900 + Y' + K; M = M' - 1 - 12 K".
    The decimal constants are exact fractions: the quotients are taken on
    integers, after scaling by 100 and by 10000. *)
Definition decode_date (mjd : Z) : Z * Z * Z :=
  let y' := (100 * mjd - 1507820) / 36525 in
  let a := (y' * 36525) / 100 in
  let m' := (10000 * (mjd - a) - 149561000) / 306001 in
  let d := mjd - 14956 - a - (m' * 306001) / 10000 in
  let k := if (m' =? 14) || (m' =? 15) then 1 else 0 in
  (1900 + y' + k, m' - 1 - 12 * k, d).

(** Modelled from the spec: the sizes that both routines accept, "2, 4, or
    5 bytes". *)
Definition accepted_size (size : Z) : bool :=
  (size =? 2) || (size =? 4) || (size =? 5).

(** Modelled from the spec: DecodeMJD is only declared in tsMJD.h.
    "decode(bytes) accepts 2, 4, or 5 bytes.  Bytes 0-1 are MJD day count.
    Bytes 2-4 if present are BCD HH:MM:SS.  Fails for size not in {2,4,5}
    or invalid BCD."  [None] is the failure. *)
Definition DecodeMJD (mjd : list Z) : option Time :=
  if negb (accepted_size (len mjd)) then None
  else
    let '(y, m, d) := decode_date (GetUInt16 mjd) in
    let bcd := skipn 2 mjd in
    if forallb IsValidBCD bcd then
      Some (mkTime y m d (DecodeBCD (nth 0 bcd 0)) (DecodeBCD (nth 1 bcd 0))
                   (DecodeBCD (nth 2 bcd 0)))
    else None.

(** Modelled from the spec: the day count of a date, "the inverse" of the
    algorithm above, by the companion formula of the same annex of ETSI EN
    300 468: L = 1 if M is 1 or 2, else 0;
    MJD = 14956 + D + floor((Y - 1900 - L) * 365.25)
          + floor((M + 1 + L * 12) * 30.6001). *)
Definition encode_date (y m d : Z) : Z :=
  let l := if (m =? 1) || (m =? 2) then 1 else 0 in
  14956 + d + ((y - 1900 - l) * 36525) / 100
  + ((m + 1 + l * 12) * 306001) / 10000.

(** Modelled from the spec: "the date is before 1900-03-01". *)
Definition before_1900_03_01 (t : Time) : bool :=
  (year t <? 1900) || ((year t =? 1900) && (month t <? 3)).

(** Modelled from the spec: the time has a zero time of day. *)
Definition zero_time_of_day (t : Time) : bool :=
  (hour t =? 0) && (minute t =? 0) && (second t =? 0).

(** Modelled from the spec: EncodeMJD is only declared in tsMJD.h.
    "encode(time, size) is the inverse; fails if size is not in {2,4,5}, if
    the date is before 1900-03-01, or if size==2 and the time has non-zero
    TOD."  The day count goes in two bytes, then the BCD bytes that fit in
    [size]. *)
Definition EncodeMJD (time : Time) (size : Z) : option (list Z) :=
  if negb (accepted_size size) then None
  else if before_1900_03_01 time then None
  else if (size =? 2) && negb (zero_time_of_day time) then None
  else
    Some (firstn (Z.to_nat size)
            (PutUInt16 (encode_date (year time) (month time) (day time))
             ++ [EncodeBCD (hour time); EncodeBCD (minute time);
                 EncodeBCD (second time)])).

(** *** Vocabulary of the statements *)

Definition is_leap (y : Z) : bool :=
  (y mod 4 =? 0) && (negb (y mod 100 =? 0) || (y mod 400 =? 0)).

Definition days_in_month (y m : Z) : Z :=
  if m =? 2 then (if is_leap y then 29 else 28)
  else if (m =? 4) || (m =? 6) || (m =? 9) || (m =? 11) then 30
  else 31.

Definition valid_date (y m d : Z) : bool :=
  (1 <=? m) && (m <=? 12) && (1 <=? d) && (d <=? days_in_month y m).

(** A time of the calendar, with whole seconds. *)
Definition valid_time (t : Time) : bool :=
  valid_date (year t) (month t) (day t)
  && (0 <=? hour t) && (hour t <? 24)
  && (0 <=? minute t) && (minute t <? 60)
  && (0 <=? second t) && (second t <? 60).

(** The dates whose day count fits in 16 bits: up to 2038-04-22. *)
Definition date_fits (y m d : Z) : bool :=
  (y <? 2038) || ((y =? 2038) && ((m <? 4) || ((m =? 4) && (d <=? 22)))).

Definition date_accepted (y m : Z) : bool :=
  negb ((y <? 1900) || ((y =? 1900) && (m <? 3))).

(** The check of one date: its day count has 16 bits and decodes to it. *)
Definition date_roundtrip (y m d : Z) : bool :=
  let mjd := encode_date y m d in
  (0 <=? mjd) && (mjd <? 65536)
  && let '(y', m', d') := decode_date mjd in
     (y' =? y) && (m' =? m) && (d' =? d).

(** The check of all the dates from 1900-03-01 to 2038-04-22. *)
Definition check_day (y m d : Z) : bool :=
  implb (valid_date y m d && date_accepted y m && date_fits y m d)
        (date_roundtrip y m d).

Definition check_month (y m : Z) : bool :=
  forall_range (check_day y m) (Z.to_nat 32) 0.

Definition check_year (k : Z) : bool :=
  forall_range (check_month (1900 + k)) (Z.to_nat 13) 0.

Definition check_all : bool :=
  forall_range check_year (Z.to_nat 139) 0.

(** Scenario S3 and two inputs outside the domain of the round trip. *)
Definition s3_time : Time := mkTime 1993 10 13 12 45 0.
Definition time_with_seconds : Time := mkTime 1993 10 13 12 45 30.
Definition time_after_2038 : Time := mkTime 2038 4 23 0 0 0.

End MJD.

(** ** Further vocabulary for the PMT codec *)

Module PMTBytes.

(** A section whose payload is made of bytes. *)
Definition byte_section (sect : Section) : Prop :=
  Forall is_byte (sec_payload sect).

(** The lengths of the descriptor loops of a PMT fit in the 12 bits of
    their length fields. *)
Definition lengths_fit (p : PMT.t) : Prop :=
  PMT.descs_size (PMT.descs p) < 4096
  /\ Forall (fun e => PMT.descs_size (PMT.Stream.descs (snd e)) < 4096)
            (PMT.streams p).

(** The section of a PMT, followed by [tail] in its payload. *)
Definition section_with_tail (p : PMT.t) (tail : list Z) : Section :=
  mkSection TID_PMT false (PMT.service_id p) (PMT.version p)
            (PMT.is_current p) 0 0 (PMT.payload_image p ++ tail).

(** A PMT with 800 bytes of program descriptors and one stream. *)
Definition pmt_long_descriptors : PMT.t :=
  PMT.mk true 1 true 2 0x0100
    (map (fun k => mkDescriptor 0x80 (repeat k 198)) [1; 2; 3; 4])
    [(0x0100, PMT.Stream.mk 0x1B
                (map (fun k => mkDescriptor 0x81 (repeat k 100)) [5; 6; 7]))].



(** A valid PMT whose only stream has 1285 bytes of descriptors. *)
Definition pmt_stream_overflow : PMT.t :=
  PMT.mk true 0 true 1 PID_NULL []
    [(0x0100, PMT.Stream.mk 0x1B
                (map (fun k => mkDescriptor 0x80 (repeat k 255))
                     [1; 2; 3; 4; 5]))].

End PMTBytes.

(** ** ForkPipe::open and ForkPipe::close (tsForkPipe.cpp, lines 267-521) *)

Module ForkPipeOpen.

Inductive OutputMode := KEEP_BOTH | STDOUT_ONLY | STDERR_ONLY.

(** The handles (Windows) and file descriptors (UNIX) that the two
    functions name: the standard ones, the two end-points that ::CreatePipe
    or ::pipe makes, the two handles that ::CreateProcessW returns, and
    INVALID_HANDLE_VALUE, or -1 for a file descriptor. *)
Inductive Handle :=
| Invalid
| StdIn | StdOut | StdErr
| PipeRead | PipeWrite
| ProcessHandle | ThreadHandle.

(** The calls to the system that change something, with what they
    returned:
    - [CreatePipe]: ::CreatePipe (Windows) or ::pipe (UNIX);
    - [Close]: ::CloseHandle (Windows) or ::close (UNIX);
    - [Wait]: ::WaitForSingleObject (Windows) or ::waitpid (UNIX).
    The queries (::GetStdHandle) are not listed. *)
Inductive Call :=
| CreatePipe (ok : bool)
| SetHandleInformation (h : Handle) (inherit : bool)
| CreateProcess (ok : bool)
| Fork (pid : Z)
| Close (h : Handle)
| Dup2 (from to : Handle) (ret : Z)
| Perror
| Execl
| Exit
| Wait (ok : bool).

(** What the system answers to the calls of one [open] or [close]:
    - [pipe_ok]: ::CreatePipe returned non zero, ::pipe did not return a
      negative value;
    - [process_ok]: ::CreateProcessW returned non zero;
    - [fork_pid]: the value returned by ::fork;
    - [dup2_stdin], [dup2_output]: the values returned by ::dup2 in the
      created process, for the standard input and for the merge of the
      outputs;
    - [execl_returns]: ::execl came back, which it does on error only;
    - [wait_ok]: ::WaitForSingleObject returned WAIT_OBJECT_0, ::waitpid
      did not return a negative value. *)
Record Answers := mkAnswers {
  pipe_ok : bool;
  process_ok : bool;
  fork_pid : Z;
  dup2_stdin : Z;
  dup2_output : Z;
  execl_returns : bool;
  wait_ok : bool
}.

(** The object: the fields that [write] uses, and the platform fields:
    [_handle] (named [_fd] on UNIX), [_process] (Windows) and [_fpid]
    (UNIX). *)
Record t := mk {
  base : ForkPipe.t;
  _handle : Handle;
  _process : Handle;
  _fpid : Z
}.

(** The constructor (lines 236-252). *)
Definition new : t :=
  mk (ForkPipe.mk ForkPipe.USE_PIPE false false false false)
     Invalid Invalid 0.

Inductive Message :=
| Error_pipe_is_already_open
| Debug_creating_process
| Error_creating_pipe
| Error_creating_process
| Error_fork
| Error_waiting_for_process_termination.

Definition is_error (m : Message) : bool :=
  match m with
  | Debug_creating_process => false
  | _ => true
  end.

(** How a call ends: it returns a value, or it goes on in the created
    process (::fork returned 0), where it ends in ::execl or ::exit and
    never returns. *)
Inductive Status :=
| Returned (result : bool)
| InChild.

Record Outcome := mkOutcome {
  status : Status;
  object : t;
  reports : list Message;
  calls : list Call
}.

Definition is_pipe (m : ForkPipe.InputMode) : bool :=
  match m with
  | ForkPipe.USE_PIPE => true
  | ForkPipe.KEEP_STDIN => false
  end.

(** [if (_in_mode == USE_PIPE) { close both end-points }]. *)
Definition close_both (m : ForkPipe.InputMode) : list Call :=
  if is_pipe m then [Close PipeRead; Close PipeWrite] else [].

(** The Windows branch of [open] (lines 282-388), after the common
    beginning. *)
Definition open_windows (self : t) (out_mode : OutputMode) (a : Answers)
  : Outcome :=
  let in_mode := ForkPipe._in_mode (base self) in
  let synchronous := ForkPipe._synchronous (base self) in
  let self := mk (base self) Invalid Invalid (_fpid self) in
  if is_pipe in_mode && negb (pipe_ok a) then
    mkOutcome (Returned false) self
              [Debug_creating_process; Error_creating_pipe]
              [CreatePipe false]
  else
    let calls :=
      if is_pipe in_mode
      then [CreatePipe true; SetHandleInformation PipeWrite false]
      else [] in
    let calls :=
      calls ++ match in_mode with
               | ForkPipe.USE_PIPE => []
               | ForkPipe.KEEP_STDIN => [SetHandleInformation StdIn true]
               end in
    let calls :=
      calls ++ match out_mode with
               | KEEP_BOTH => [SetHandleInformation StdOut true;
                               SetHandleInformation StdErr true]
               | STDOUT_ONLY => [SetHandleInformation StdOut true]
               | STDERR_ONLY => [SetHandleInformation StdErr true]
               end in
    if negb (process_ok a) then
      mkOutcome (Returned false) self
                [Debug_creating_process; Error_creating_process]
                (calls ++ [CreateProcess false] ++ close_both in_mode)
    else
      let calls := calls ++ [CreateProcess true] in
      let '(process, calls) :=
        if synchronous then (ProcessHandle, calls)
        else (Invalid, calls ++ [Close ProcessHandle]) in
      let calls := calls ++ [Close ThreadHandle] in
      let '(handle, calls) :=
        if is_pipe in_mode then (PipeWrite, calls ++ [Close PipeRead])
        else (Invalid, calls) in
      mkOutcome (Returned true)
        (mk (ForkPipe.mk in_mode true synchronous
               (ForkPipe._ignore_abort (base self))
               (ForkPipe._broken_pipe (base self)))
            handle process (_fpid self))
        [Debug_creating_process] calls.

(** What the created process does (lines 408-453). *)
Definition child_calls (in_mode : ForkPipe.InputMode) (out_mode : OutputMode)
  (a : Answers) : list Call :=
  let input :=
    if is_pipe in_mode then
      [Close StdIn; Close PipeWrite; Dup2 PipeRead StdIn (dup2_stdin a)]
      ++ (if dup2_stdin a <? 0 then [Perror; Exit] else [Close PipeRead])
    else [] in
  if is_pipe in_mode && (dup2_stdin a <? 0) then input
  else
    input
    ++ match out_mode with
       | STDOUT_ONLY =>
           Dup2 StdOut StdErr (dup2_output a)
           :: (if dup2_output a <? 0 then [Perror] else [])
       | STDERR_ONLY =>
           Dup2 StdErr StdOut (dup2_output a)
           :: (if dup2_output a <? 0 then [Perror] else [])
       | KEEP_BOTH => []
       end
    ++ Execl :: (if execl_returns a then [Perror; Exit] else []).

(** The UNIX branch of [open] (lines 392-463). *)
Definition open_unix (self : t) (out_mode : OutputMode) (a : Answers)
  : Outcome :=
  let in_mode := ForkPipe._in_mode (base self) in
  if is_pipe in_mode && negb (pipe_ok a) then
    mkOutcome (Returned false) self
              [Debug_creating_process; Error_creating_pipe]
              [CreatePipe false]
  else
    let calls := if is_pipe in_mode then [CreatePipe true] else [] in
    let self := mk (base self) (_handle self) (_process self) (fork_pid a) in
    let calls := calls ++ [Fork (fork_pid a)] in
    if fork_pid a <? 0 then
      mkOutcome (Returned false) self
                [Debug_creating_process; Error_fork]
                (calls ++ close_both in_mode)
    else if fork_pid a =? 0 then
      mkOutcome InChild self [Debug_creating_process]
                (calls ++ child_calls in_mode out_mode a)
    else
      let '(handle, calls) :=
        if is_pipe in_mode then (PipeWrite, calls ++ [Close PipeRead])
        else (_handle self, calls) in
      mkOutcome (Returned true)
        (mk (ForkPipe.mk in_mode true (ForkPipe._synchronous (base self))
               (ForkPipe._ignore_abort (base self))
               (ForkPipe._broken_pipe (base self)))
            handle (_process self) (_fpid self))
        [Debug_creating_process] calls.

(** [open] (lines 267-469); the command and the size of the buffer go to
    the system and have no other use. *)
Definition open (pf : ForkPipe.Platform) (self : t) (synchronous : bool)
  (out_mode : OutputMode) (in_mode : ForkPipe.InputMode) (a : Answers)
  : Outcome :=
  if ForkPipe._is_open (base self) then
    mkOutcome (Returned false) self [Error_pipe_is_already_open] []
  else
    let self :=
      mk (ForkPipe.mk in_mode (ForkPipe._is_open (base self)) synchronous
            (ForkPipe._ignore_abort (base self)) false)
         (_handle self) (_process self) (_fpid self) in
    match pf with
    | ForkPipe.Windows => open_windows self out_mode a
    | ForkPipe.Unix => open_unix self out_mode a
    end.

(** [close] (lines 477-521). *)
Definition close (pf : ForkPipe.Platform) (self : t) (a : Answers)
  : Outcome :=
  if negb (ForkPipe._is_open (base self)) then
    mkOutcome (Returned false) self [] []
  else
    let in_mode := ForkPipe._in_mode (base self) in
    let synchronous := ForkPipe._synchronous (base self) in
    let calls := if is_pipe in_mode then [Close (_handle self)] else [] in
    let '(result, reports, calls) :=
      if synchronous then
        if negb (wait_ok a)
        then (false, [Error_waiting_for_process_termination],
              calls ++ [Wait false])
        else (true, [], calls ++ [Wait true])
      else (true, [], calls) in
    let calls :=
      match pf with
      | ForkPipe.Windows =>
          match _process self with
          | Invalid => calls
          | h => calls ++ [Close h]
          end
      | ForkPipe.Unix => calls
      end in
    mkOutcome (Returned result)
      (mk (ForkPipe.mk in_mode false synchronous
             (ForkPipe._ignore_abort (base self))
             (ForkPipe._broken_pipe (base self)))
          (_handle self) (_process self) (_fpid self))
      reports calls.

(** *** Vocabulary of the statements *)

Definition handle_eqb (h1 h2 : Handle) : bool :=
  match h1, h2 with
  | Invalid, Invalid | StdIn, StdIn | StdOut, StdOut | StdErr, StdErr
  | PipeRead, PipeRead | PipeWrite, PipeWrite
  | ProcessHandle, ProcessHandle | ThreadHandle, ThreadHandle => true
  | _, _ => false
  end.

(** The handles that the calls have made and not closed, given those
    [held] before. *)
Fixpoint live (calls : list Call) (held : list Handle) : list Handle :=
  match calls with
  | [] => held
  | CreatePipe true :: calls' => live calls' (held ++ [PipeRead; PipeWrite])
  | CreateProcess true :: calls' =>
      live calls' (held ++ [ProcessHandle; ThreadHandle])
  | Close h :: calls' =>
      live calls' (filter (fun h' => negb (handle_eqb h h')) held)
  | _ :: calls' => live calls' held
  end.

(** The handles that an open object is in charge of. *)
Definition owned (pf : ForkPipe.Platform) (self : t) : list Handle :=
  (if is_pipe (ForkPipe._in_mode (base self)) then [PipeWrite] else [])
  ++ match pf with
     | ForkPipe.Windows =>
         if ForkPipe._synchronous (base self) then [ProcessHandle] else []
     | ForkPipe.Unix => []
     end.

(** A closed object whose pipe broke during its last use. *)
Definition closed_broken : t :=
  mk (ForkPipe.mk ForkPipe.USE_PIPE false true true true)
     PipeWrite Invalid 1234.

(** Answers of a system where everything works; the call is in the
    parent process. *)
Definition all_fine : Answers := mkAnswers true true 4321 0 0 false true.

End ForkPipeOpen.

(** ** Utilities for IP networking (tsIPUtils.cpp) *)

Module IPUtils.

(** The branches of the conditional compilation of GetLocalIPAddresses:
    [TS_MAC], then [TS_WINDOWS] or [TS_UNIX], then none of them. *)
Inductive Platform := Mac | Windows | Unix | Other.

(** The calls to the system, with what they returned. *)
Inductive Call :=
| WSAStartup (err : Z)
| Getifaddrs (ret : Z)
| Freeifaddrs
| Socket (ok : bool)
| Ioctl (ret : Z)
| CloseSocket.

Inductive Message :=
| Error_WSAStartup_failed (err : Z)
| Error_getting_local_addresses
| Error_creating_socket
| Error_not_implemented.

(** *** IPInitialize (lines 100-118)

    [done] is the static variable of the function. *)
Definition IPInitialize (pf : Platform) (done : bool) (err : Z)
  : bool * bool * list Message * list Call :=
  match pf with
  | Windows =>
      if negb done then
        if negb (err =? 0)
        then (false, done, [Error_WSAStartup_failed err], [WSAStartup err])
        else (true, true, [], [WSAStartup err])
      else (true, done, [], [])
  | _ => (true, done, [], [])
  end.

Section WithAddresses.

(** The types and operations of tsIPAddress.h, which is outside the files
    covered here, are parameters: the socket addresses that the system
    fills, the class IPAddress with its constructor from a socket address,
    [hasAddress()], [operator==] and the constant [LocalHost]; so is the
    size in bytes of one entry of the array [info] ([sizeof(::ifreq)] or
    [sizeof(::INTERFACE_INFO)]). *)
Variable SockAddr : Type.
Variable IPAddress : Type.
Variable of_sockaddr : SockAddr -> IPAddress.
Variable hasAddress : IPAddress -> bool.
Variable eqb : IPAddress -> IPAddress -> bool.
Variable LocalHost : IPAddress.
Variable entry_size : Z.

(** What the system answers:
    - [getifaddrs_ret] and [ifaddrs]: the value returned by ::getifaddrs
      and the list it allocates, an entry being its [ifa_addr], null or
      not;
    - [socket_ok]: ::socket did not return TS_SOCKET_T_INVALID;
    - [ioctl_ret]: the value returned by ::WSAIoctl or ::ioctl;
    - [reported]: the size in bytes that the system reports ([retsize],
      [ifc.ifc_len]);
    - [info]: the content of the array [info] after the call. *)
Record Answers := mkAnswers {
  getifaddrs_ret : Z;
  ifaddrs : list (option SockAddr);
  socket_ok : bool;
  ioctl_ret : Z;
  reported : Z;
  info : nat -> SockAddr
}.

Record Outcome := mkOutcome {
  status : bool;
  addresses : list IPAddress;
  reports : list Message;
  calls : list Call
}.

(** [if (addr.hasAddress() && addr != IPAddress::LocalHost)
    list.push_back(addr)]. *)
Definition keep (addr : IPAddress) : bool :=
  hasAddress addr && negb (eqb addr LocalHost).

(** The size of the array: [::ifreq info[32]], [::INTERFACE_INFO
    info[32]]. *)
Definition sizeof_info : Z := 32 * entry_size.

(** The number of entries of [info] that the loop reads: the size that the
    system reports, clamped, over the size of an entry.  The size is a
    DWORD on Windows and an [int] on UNIX. *)
Definition count (pf : Platform) (a : Answers) : Z :=
  match pf with
  | Windows =>
      Z.max 0 (Z.min (ForkPipe.DWORD (reported a)) (ForkPipe.DWORD sizeof_info))
      / entry_size
  | _ => Z.max 0 (Z.min (reported a) sizeof_info) / entry_size
  end.

(** The addresses that the loops go through, before the test of each. *)
Definition browsed (pf : Platform) (a : Answers) : list IPAddress :=
  match pf with
  | Mac =>
      flat_map (fun e => match e with
                         | Some sa => [of_sockaddr sa]
                         | None => []
                         end) (ifaddrs a)
  | Windows | Unix =>
      map (fun i => of_sockaddr (info a i)) (seq 0 (Z.to_nat (count pf a)))
  | Other => []
  end.

(** GetLocalIPAddresses (lines 136-231). *)
Definition GetLocalIPAddresses (pf : Platform) (a : Answers) : Outcome :=
  match pf with
  | Mac =>
      if negb (getifaddrs_ret a =? 0) then
        mkOutcome false [] [Error_getting_local_addresses]
                  [Getifaddrs (getifaddrs_ret a)]
      else
        mkOutcome true (filter keep (browsed pf a)) []
                  [Getifaddrs (getifaddrs_ret a); Freeifaddrs]
  | Windows | Unix =>
      if negb (socket_ok a) then
        mkOutcome false [] [Error_creating_socket] [Socket false]
      else if negb (ioctl_ret a =? 0) then
        mkOutcome false [] [Error_getting_local_addresses]
                  [Socket true; Ioctl (ioctl_ret a); CloseSocket]
      else
        mkOutcome true (filter keep (browsed pf a)) []
                  [Socket true; Ioctl (ioctl_ret a); CloseSocket]
  | Other => mkOutcome false [] [Error_not_implemented] []
  end.

(** IsLocalIPAddress (lines 125-129): the result and the calls made. *)
Definition IsLocalIPAddress (pf : Platform) (a : Answers)
  (address : IPAddress) : bool * list Call :=
  if eqb address LocalHost then (true, [])
  else
    let out := GetLocalIPAddresses pf a in
    (status out && existsb (fun x => eqb x address) (addresses out),
     calls out).

(** *** Vocabulary of the statements *)

(** The sockets and lists of addresses that the calls have got from the
    system and not given back. *)
Fixpoint pending (l : list Call) (n : Z) : Z :=
  match l with
  | [] => n
  | Socket true :: l' => pending l' (n + 1)
  | Getifaddrs 0 :: l' => pending l' (n + 1)
  | CloseSocket :: l' => pending l' (n - 1)
  | Freeifaddrs :: l' => pending l' (n - 1)
  | _ :: l' => pending l' n
  end.

End WithAddresses.

(** An instance: IPv4 addresses as 32-bit integers, 0 for no address,
    127.0.0.1 for the local host, and entries of 40 bytes. *)
Definition ipv4_has_address (a : Z) : bool := negb (a =? 0).
Definition ipv4_localhost : Z := 0x7F000001.

Definition ipv4_answers : Answers Z :=
  mkAnswers Z 0 [Some 0x7F000001; None; Some 0x0A000001] true 0 1000
            (fun i => match i with
                      | O => 0x7F000001
                      | 1%nat => 0x0A000001
                      | 2%nat => 0
                      | _ => 0xC0A80001
                      end).

(** Answers in which the system reports far more bytes than the array
    has. *)
Definition ipv4_overflow : Answers Z :=
  mkAnswers Z 0 [] true 0 1000000 (fun i => Z.of_nat i + 1).

End IPUtils.

(* ------------------------------------------------------------------------- *)
(** * Part II: properties                                                     *)
(* ------------------------------------------------------------------------- *)

(** ** Bytes and 16-bit fields *)

Lemma len_app {A} (l1 l2 : list A) : len (l1 ++ l2) = len l1 + len l2.
Proof. unfold len. rewrite length_app. lia. Qed.

Lemma len_cons {A} (a : A) (l : list A) : len (a :: l) = 1 + len l.
Proof. unfold len. simpl length. lia. Qed.

Lemma len_nonneg {A} (l : list A) : 0 <= len l.
Proof. unfold len. lia. Qed.

(** A property of the integers below [n], decided by running through
    them. *)
Lemma forall_range_spec (P : Z -> bool) (n : nat) : forall from,
  forall_range P n from = true ->
  forall v, from <= v < from + Z.of_nat n -> P v = true.
Proof.
  induction n as [|n IH]; intros from H v Hv; [lia|].
  cbn [forall_range] in H. apply andb_true_iff in H. destruct H as [H0 H1].
  destruct (Z.eq_dec v from) as [->|Hne]; [exact H0|].
  apply (IH (from + 1) H1). lia.
Qed.

Lemma range_check (P : Z -> bool) (n : Z) :
  forall_range P (Z.to_nat n) 0 = true ->
  forall v, 0 <= v < n -> P v = true.
Proof.
  intros H v Hv. apply (forall_range_spec P (Z.to_nat n) 0 H). lia.
Qed.


Lemma GetUInt16_cons a b rest :
  GetUInt16 (a :: b :: rest) = Z.lor (Z.shiftl a 8) b.
Proof. reflexivity. Qed.

Lemma PutUInt16_app v rest :
  PutUInt16 v ++ rest
  = uint8 (Z.shiftr (uint16 v) 8) :: uint8 (uint16 v) :: rest.
Proof. reflexivity. Qed.

Lemma pid_field_roundtrip p rest :
  PMT.is_pid p ->
  Z.land (GetUInt16 (PutUInt16 (Z.lor p 0xE000) ++ rest)) 0x1FFF = p.
Proof.
  intros Hp. rewrite PutUInt16_app, GetUInt16_cons. apply Z.eqb_eq.
  apply (range_check
           (fun p => Z.land (Z.lor (Z.shiftl (uint8 (Z.shiftr (uint16 (Z.lor p 0xE000)) 8)) 8)
                                   (uint8 (uint16 (Z.lor p 0xE000)))) 0x1FFF =? p)
           8192); [vm_compute; reflexivity|].
  exact Hp.
Qed.

Lemma length_field_roundtrip n rest :
  0 <= n < 4096 ->
  Z.land (GetUInt16 (PutUInt16 (Z.lor n 0xF000) ++ rest)) 0x0FFF = n.
Proof.
  intros Hn. rewrite PutUInt16_app, GetUInt16_cons. apply Z.eqb_eq.
  apply (range_check
           (fun p => Z.land (Z.lor (Z.shiftl (uint8 (Z.shiftr (uint16 (Z.lor p 0xF000)) 8)) 8)
                                   (uint8 (uint16 (Z.lor p 0xF000)))) 0x0FFF =? p)
           4096); [vm_compute; reflexivity|].
  exact Hn.
Qed.

(** ** Descriptor lists: binary image and parsing *)

Lemma descs_bytes_cons d dl :
  PMT.descs_bytes (d :: dl) = Desc.content d ++ PMT.descs_bytes dl.
Proof. reflexivity. Qed.

Lemma descs_size_cons d dl :
  PMT.descs_size (d :: dl) = Desc.size d + PMT.descs_size dl.
Proof. reflexivity. Qed.

Lemma descs_size_nonneg dl : 0 <= PMT.descs_size dl.
Proof.
  induction dl as [|d dl IH]; [reflexivity|].
  rewrite descs_size_cons. unfold Desc.size. pose proof (len_nonneg (payload d)). lia.
Qed.

Lemma len_descs_bytes dl : len (PMT.descs_bytes dl) = PMT.descs_size dl.
Proof.
  induction dl as [|d dl IH]; [reflexivity|].
  rewrite descs_bytes_cons, descs_size_cons, len_app, IH.
  unfold Desc.content, Desc.size. rewrite !len_cons. lia.
Qed.

(** Descriptors that all fit are all copied, in order. *)
Lemma Desc_serialize_fits dl : forall index remain,
  PMT.descs_size dl <= remain ->
  Desc.serialize dl index remain
  = (PMT.descs_bytes dl, remain - PMT.descs_size dl, (index + length dl)%nat).
Proof.
  induction dl as [|d dl IH]; intros index remain Hfit.
  - simpl. rewrite Z.sub_0_r, Nat.add_0_r. reflexivity.
  - rewrite descs_size_cons in Hfit. pose proof (descs_size_nonneg dl).
    simpl Desc.serialize.
    destruct (Z.leb_spec (Desc.size d) remain); [|lia].
    rewrite IH by lia. rewrite descs_bytes_cons, descs_size_cons.
    simpl length. rewrite app_nil_r || idtac.
    replace (remain - Desc.size d - PMT.descs_size dl)
      with (remain - (Desc.size d + PMT.descs_size dl)) by lia.
    replace (S index + length dl)%nat with (index + S (length dl))%nat by lia.
    reflexivity.
Qed.

Lemma Desc_lengthSerialize_fits dl remain :
  2 + PMT.descs_size dl <= remain ->
  Desc.lengthSerialize dl remain
  = (PutUInt16 (Z.lor (len (PMT.descs_bytes dl)) 0xF000) ++ PMT.descs_bytes dl,
     remain - (2 + PMT.descs_size dl), length dl).
Proof.
  intros Hfit. unfold Desc.lengthSerialize.
  rewrite Desc_serialize_fits by lia.
  replace (remain - 2 - PMT.descs_size dl)
    with (remain - (2 + PMT.descs_size dl)) by lia.
  reflexivity.
Qed.

Lemma firstn_len_app {A} (l1 l2 : list A) :
  firstn (Z.to_nat (len l1)) (l1 ++ l2) = l1.
Proof.
  unfold len. rewrite Nat2Z.id, firstn_app, Nat.sub_diag, firstn_all.
  simpl. apply app_nil_r.
Qed.

Lemma skipn_len_app {A} (l1 l2 : list A) :
  skipn (Z.to_nat (len l1)) (l1 ++ l2) = l2.
Proof.
  unfold len. rewrite Nat2Z.id, skipn_app, Nat.sub_diag, skipn_all.
  reflexivity.
Qed.

(** Parsing the binary image of a list of descriptors appends them. *)
Lemma Desc_add_loop_image dl : forall fuel acc,
  (length (PMT.descs_bytes dl) <= fuel)%nat ->
  Desc.add_loop fuel (PMT.descs_bytes dl) acc = acc ++ dl.
Proof.
  induction dl as [|d dl IH]; intros fuel acc Hfuel.
  - rewrite app_nil_r. destruct fuel; reflexivity.
  - rewrite descs_bytes_cons in *. unfold Desc.content in *.
    destruct fuel as [|fuel]; [simpl in Hfuel; lia|].
    simpl app. cbn [Desc.add_loop].
    rewrite !len_cons, len_app.
    pose proof (len_nonneg (PMT.descs_bytes dl)).
    destruct (Z.leb_spec (len (payload d) + 2)
                         (1 + (1 + (len (payload d) + len (PMT.descs_bytes dl)))));
      [|lia].
    rewrite firstn_len_app, skipn_len_app.
    rewrite IH.
    + rewrite <- app_assoc. destruct d; reflexivity.
    + simpl in Hfuel. rewrite length_app in Hfuel. lia.
Qed.

Lemma Desc_add_image acc dl :
  Desc.add acc (PMT.descs_bytes dl) = acc ++ dl.
Proof. unfold Desc.add. apply Desc_add_loop_image. lia. Qed.

(** ** The stream map *)

Lemma update_ext k f g m :
  (forall s, f s = g s) -> PMT.update k f m = PMT.update k g m.
Proof.
  intros Hfg. induction m as [|[k' s] m IH]; simpl.
  - now rewrite Hfg.
  - destruct (k <? k'); [now rewrite Hfg|].
    destruct (k =? k'); [now rewrite Hfg|]. now rewrite IH.
Qed.

(** A key above all the keys of the map goes to the end. *)
Lemma update_above k f m :
  Forall (fun e => fst e < k) m ->
  PMT.update k f m = m ++ [(k, f PMT.Stream.default)].
Proof.
  induction m as [|[k' s] m IH]; intros Hm; [reflexivity|].
  inversion Hm as [|? ? Hk Hm']; subst. simpl in Hk. simpl.
  destruct (Z.ltb_spec k k'); [lia|].
  destruct (Z.eqb_spec k k'); [lia|].
  now rewrite IH.
Qed.

Lemma find_update_other pid k f m :
  pid <> k -> PMT.find pid (PMT.update k f m) = PMT.find pid m.
Proof.
  intros Hne. induction m as [|[k' s] m IH]; simpl.
  - destruct (Z.eqb_spec pid k); [contradiction|reflexivity].
  - destruct (Z.ltb_spec k k'); simpl.
    + destruct (Z.eqb_spec pid k); [contradiction|reflexivity].
    + destruct (Z.eqb_spec k k'); simpl.
      * destruct (Z.eqb_spec pid k'); [congruence|reflexivity].
      * destruct (pid =? k'); [reflexivity|exact IH].
Qed.

Lemma find_below pid m :
  Forall (fun e => pid < fst e) m -> PMT.find pid m = None.
Proof.
  induction m as [|[k s] m IH]; intros Hm; [reflexivity|].
  inversion Hm as [|? ? Hk Hm']; subst. simpl in *.
  destruct (Z.eqb_spec pid k); [lia|auto].
Qed.

Lemma find_update_same pid f m :
  PMT.ascending m ->
  PMT.find pid (PMT.update pid f m)
  = Some (f (match PMT.find pid m with
             | Some s => s
             | None => PMT.Stream.default
             end)).
Proof.
  induction m as [|[k s] m IH]; intros Hm; simpl.
  - now rewrite Z.eqb_refl.
  - apply StronglySorted_inv in Hm. destruct Hm as [Hm Hk].
    destruct (Z.ltb_spec pid k); simpl.
    + rewrite Z.eqb_refl. destruct (Z.eqb_spec pid k); [lia|].
      rewrite find_below; [reflexivity|].
      eapply Forall_impl; [|exact Hk]. simpl. intros; lia.
    + destruct (Z.eqb_spec pid k); simpl.
      * subst. now rewrite Z.eqb_refl.
      * destruct (Z.eqb_spec pid k); [contradiction|]. now apply IH.
Qed.

Lemma update_ascending k f m :
  PMT.ascending m -> PMT.ascending (PMT.update k f m).
Proof.
  unfold PMT.ascending.
  induction m as [|[k' s] m IH]; intros Hm; simpl.
  - repeat constructor.
  - pose proof Hm as Hm0.
    apply StronglySorted_inv in Hm. destruct Hm as [Hm Hk].
    destruct (Z.ltb_spec k k').
    + constructor; [exact Hm0|]. constructor; [simpl; lia|].
      eapply Forall_impl; [|exact Hk]. simpl. intros; lia.
    + destruct (Z.eqb_spec k k').
      * constructor; [exact Hm|exact Hk].
      * constructor; [now apply IH|].
        assert (Hkeys : forall g m0, Forall (fun e => k' < fst e) m0 ->
                          Forall (fun e => k' < fst e) (PMT.update k g m0)).
        { intros g m0. induction m0 as [|[k0 s0] m0 IH0]; intros H0; simpl.
          - constructor; [simpl; lia|constructor].
          - inversion H0; subst.
            destruct (k <? k0); [constructor; [simpl; lia|assumption]|].
            destruct (k =? k0); constructor; auto. }
        apply Hkeys. exact Hk.
Qed.

(** ** Stream entries: binary image and parsing *)

Lemma streams_size_cons e m :
  PMT.streams_size (e :: m)
  = 5 + PMT.descs_size (PMT.Stream.descs (snd e)) + PMT.streams_size m.
Proof. reflexivity. Qed.

Lemma streams_size_nonneg m : 0 <= PMT.streams_size m.
Proof.
  induction m as [|e m IH]; [reflexivity|].
  rewrite streams_size_cons.
  pose proof (descs_size_nonneg (PMT.Stream.descs (snd e))). lia.
Qed.

Lemma streams_loop_S fuel data m :
  PMT.streams_loop (S fuel) data m
  = if 5 <=? len data then
      let info_length :=
        Z.min (Z.land (GetUInt16 (skipn 3 data)) 0x0FFF) (len (skipn 5 data)) in
      PMT.streams_loop fuel (skipn (Z.to_nat info_length) (skipn 5 data))
        (PMT.update (Z.land (GetUInt16 (skipn 1 data)) 0x1FFF)
           (fun str =>
              PMT.Stream.mk (nth 0 data 0)
                (Desc.add (PMT.Stream.descs str)
                          (firstn (Z.to_nat info_length) (skipn 5 data))))
           m)
    else m.
Proof. reflexivity. Qed.

Lemma stream_entry_length e :
  len (PMT.stream_entry e) = 5 + PMT.descs_size (PMT.Stream.descs (snd e)).
Proof.
  unfold PMT.stream_entry. rewrite len_cons, !len_app, len_descs_bytes.
  unfold PutUInt16. rewrite !len_cons. change (len (@nil Z)) with 0. lia.
Qed.

(** One turn of the loop on the image of one stream entry. *)
Lemma streams_loop_entry fuel e rest m :
  PMT.is_pid (fst e) ->
  PMT.descs_size (PMT.Stream.descs (snd e)) < 4096 ->
  PMT.streams_loop (S fuel) (PMT.stream_entry e ++ rest) m
  = PMT.streams_loop fuel rest (PMT.update (fst e) (PMT.merge_entry e) m).
Proof.
  intros Hpid Hsize.
  pose proof (descs_size_nonneg (PMT.Stream.descs (snd e))) as Hnn.
  rewrite streams_loop_S.
  rewrite len_app, stream_entry_length.
  pose proof (len_nonneg rest) as Hrest.
  destruct (Z.leb_spec 5 (5 + PMT.descs_size (PMT.Stream.descs (snd e)) + len rest));
    [|lia].
  set (dbytes := PMT.descs_bytes (PMT.Stream.descs (snd e))).
  assert (H1 : skipn 1 (PMT.stream_entry e ++ rest)
               = PutUInt16 (Z.lor (fst e) 0xE000)
                 ++ (PutUInt16 (Z.lor (len dbytes) 0xF000) ++ dbytes ++ rest)).
  { reflexivity. }
  assert (H3 : skipn 3 (PMT.stream_entry e ++ rest)
               = PutUInt16 (Z.lor (len dbytes) 0xF000) ++ (dbytes ++ rest)).
  { reflexivity. }
  assert (H5 : skipn 5 (PMT.stream_entry e ++ rest) = dbytes ++ rest).
  { reflexivity. }
  assert (H0 : nth 0 (PMT.stream_entry e ++ rest) 0
               = PMT.Stream.stream_type (snd e)) by reflexivity.
  cbv zeta. rewrite H1, H3, H5, H0.
  rewrite pid_field_roundtrip by exact Hpid.
  rewrite length_field_roundtrip
    by (unfold dbytes; rewrite len_descs_bytes; lia).
  rewrite len_app.
  rewrite Z.min_l by lia.
  rewrite firstn_len_app, skipn_len_app.
  f_equal. apply update_ext. intros s.
  unfold dbytes. rewrite Desc_add_image. reflexivity.
Qed.

(** The loop on the image of a sequence of stream entries, followed by
    fewer than five bytes, merges the entries one after the other. *)
Lemma streams_loop_image es : forall fuel tail m,
  Forall (fun e => PMT.is_pid (fst e)) es ->
  Forall (fun e => PMT.descs_size (PMT.Stream.descs (snd e)) < 4096) es ->
  len tail < 5 ->
  (length (concat (map PMT.stream_entry es) ++ tail) <= fuel)%nat ->
  PMT.streams_loop fuel (concat (map PMT.stream_entry es) ++ tail) m
  = PMT.merge_all es m.
Proof.
  induction es as [|e es IH]; intros fuel tail m Hpid Hsize Htail Hfuel.
  - simpl. destruct fuel; [reflexivity|].
    rewrite streams_loop_S.
    destruct (Z.leb_spec 5 (len tail)); [lia|reflexivity].
  - inversion Hpid; inversion Hsize; subst.
    change (concat (map PMT.stream_entry (e :: es)))
      with (PMT.stream_entry e ++ concat (map PMT.stream_entry es)) in *.
    rewrite <- app_assoc in Hfuel. rewrite <- app_assoc.
    assert (Hlen : (5 <= length (PMT.stream_entry e))%nat).
    { pose proof (stream_entry_length e) as Hl.
      pose proof (descs_size_nonneg (PMT.Stream.descs (snd e))).
      unfold len in Hl. lia. }
    rewrite length_app in Hfuel.
    destruct fuel as [|fuel]; [lia|].
    rewrite streams_loop_entry by assumption.
    simpl. apply IH; try assumption. lia.
Qed.

(** Entries in ascending PID order, above the keys of the map, are
    appended to it as they are. *)
Lemma merge_all_ascending es : forall m,
  PMT.ascending es ->
  Forall (fun e => Forall (fun e' => fst e' < fst e) m) es ->
  PMT.merge_all es m = m ++ es.
Proof.
  induction es as [|e es IH]; intros m Hes Hm.
  - simpl. now rewrite app_nil_r.
  - apply StronglySorted_inv in Hes. destruct Hes as [Hes He].
    inversion Hm as [|? ? Hm1 Hm2]; subst.
    simpl. rewrite update_above by exact Hm1.
    rewrite IH.
    + rewrite <- app_assoc. simpl. unfold PMT.merge_entry. simpl.
      destruct e as [k [ty dl]]; reflexivity.
    + exact Hes.
    + rewrite Forall_forall in *. intros e' Hin.
      apply Forall_app. split.
      * apply Hm2; exact Hin.
      * constructor; [|constructor]. simpl. apply He; exact Hin.
Qed.


(** ** Serialization and deserialization of a PMT *)

Lemma MAX_PSI_LONG_SECTION_PAYLOAD_SIZE_bounds :
  4 <= MAX_PSI_LONG_SECTION_PAYLOAD_SIZE < 4096.
Proof. unfold MAX_PSI_LONG_SECTION_PAYLOAD_SIZE. lia. Qed.




Ltac forall_auto :=
  repeat first [ apply Forall_nil | apply Forall_cons | split ];
  cbv; try reflexivity; try discriminate.

Ltac sorted_auto :=
  repeat first [ apply SSorted_nil | apply SSorted_cons
               | apply Forall_nil | apply Forall_cons ];
  cbv; try reflexivity; try discriminate.

Ltac wf_auto :=
  apply PMT.mk_wf; [forall_auto | forall_auto | forall_auto | sorted_auto].



(** ** Validity after deserialization *)

Lemma len_skipn {A} (n : nat) (l : list A) :
  (n <= length l)%nat -> len (skipn n l) = len l - Z.of_nat n.
Proof. intros Hn. unfold len. rewrite length_skipn. lia. Qed.

Lemma deserialize_section_short self sect :
  len (sec_payload sect) < 4 ->
  exists self', PMT.deserialize_section self sect = inl self'
                /\ PMT._is_valid self' = PMT._is_valid self.
Proof.
  intros Hshort. unfold PMT.deserialize_section. cbv zeta.
  destruct (Z.ltb_spec (len (sec_payload sect)) 2).
  - eexists; split; reflexivity.
  - rewrite len_skipn by (unfold len in *; lia).
    destruct (Z.ltb_spec (len (sec_payload sect) - Z.of_nat 2) 2); [|lia].
    eexists; split; reflexivity.
Qed.

Lemma deserialize_section_long self sect :
  4 <= len (sec_payload sect) ->
  exists self', PMT.deserialize_section self sect = inr self'
                /\ PMT._is_valid self' = PMT._is_valid self.
Proof.
  intros Hlong. unfold PMT.deserialize_section. cbv zeta.
  destruct (Z.ltb_spec (len (sec_payload sect)) 2); [lia|].
  rewrite len_skipn by (unfold len in *; lia).
  destruct (Z.ltb_spec (len (sec_payload sect) - Z.of_nat 2) 2); [lia|].
  eexists; split; reflexivity.
Qed.

Lemma sections_loop_invalid_iff sections : forall self,
  PMT._is_valid self = false ->
  PMT._is_valid (PMT.sections_loop self sections) = false
  <-> exists sect, In sect sections /\ len (sec_payload sect) < 4.
Proof.
  induction sections as [|sect sections IH]; intros self Hself.
  - simpl. split; [discriminate|]. intros [? [[] _]].
  - cbn [PMT.sections_loop].
    destruct (Z.lt_ge_cases (len (sec_payload sect)) 4) as [Hs|Hl].
    + destruct (deserialize_section_short self sect Hs) as [self' [E V]].
      rewrite E. split; [|intros _; congruence].
      intros _. exists sect. split; [now left|exact Hs].
    + destruct (deserialize_section_long self sect Hl) as [self' [E V]].
      rewrite E, IH by congruence. split.
      * intros [s [Hin Hsh]]. exists s. split; [now right|exact Hsh].
      * intros [s [[->|Hin] Hsh]]; [lia|]. exists s. now split.
Qed.

(** C7.  [deserialize] is a total function (nothing is thrown), and it
    leaves the object invalid exactly when the table is invalid, or its
    table id is not TID_PMT, or the payload of one of its sections has
    fewer than 4 bytes; in every other case the object is valid. *)
Theorem deserialize_invalid_iff (self : PMT.t) (table : BinaryTable) :
  PMT._is_valid (PMT.deserialize self table) = false
  <-> (Table.isValid table = false
       \/ Table.tableId table <> TID_PMT
       \/ exists sect, In sect (bt_sections table)
                       /\ len (sec_payload sect) < 4).
Proof.
  unfold PMT.deserialize. cbv zeta.
  destruct (Table.isValid table) eqn:Hv; simpl negb; simpl orb.
  - destruct (Z.eqb_spec (Table.tableId table) TID_PMT) as [Ht|Ht]; simpl negb;
      cbv iota.
    + rewrite sections_loop_invalid_iff by reflexivity. split.
      * intros H. right. right. exact H.
      * intros [H|[H|H]]; [discriminate|contradiction|exact H].
    + split; [|reflexivity]. intros _. right. left. exact Ht.
  - split; [|reflexivity]. intros _. left. reflexivity.
Qed.

(** ** Duplicate PIDs in a payload *)

Lemma merge_all_ascending_inv es : forall m,
  PMT.ascending m -> PMT.ascending (PMT.merge_all es m).
Proof.
  induction es as [|e es IH]; intros m Hm; [exact Hm|].
  simpl. apply IH. now apply update_ascending.
Qed.

Lemma find_merge_all_absent pid es : forall m,
  PMT.occurrences pid es = [] ->
  PMT.find pid (PMT.merge_all es m) = PMT.find pid m.
Proof.
  induction es as [|e es IH]; intros m Hocc; [reflexivity|].
  simpl in Hocc. destruct (Z.eqb_spec (fst e) pid) as [He|He]; [discriminate|].
  simpl. rewrite IH by exact Hocc. apply find_update_other. congruence.
Qed.

Lemma find_merge_all_present pid es : forall m,
  PMT.ascending m ->
  PMT.occurrences pid es <> [] ->
  PMT.find pid (PMT.merge_all es m)
  = Some (PMT.Stream.mk
            (PMT.Stream.stream_type
               (snd (last (PMT.occurrences pid es) (pid, PMT.Stream.default))))
            (PMT.Stream.descs (PMT.stream_of (PMT.find pid m))
             ++ concat (map (fun e => PMT.Stream.descs (snd e))
                            (PMT.occurrences pid es)))).
Proof.
  induction es as [|e es IH]; intros m Hm Hocc; [now elim Hocc|].
  assert (Hm' : PMT.ascending (PMT.update (fst e) (PMT.merge_entry e) m))
    by now apply update_ascending.
  simpl PMT.merge_all. unfold PMT.occurrences in *. simpl filter in *.
  destruct (Z.eqb_spec (fst e) pid) as [He|He].
  - destruct (filter (fun e0 => fst e0 =? pid) es) as [|e' occ] eqn:Hocc'.
    + change (fold_left _ es ?m0) with (PMT.merge_all es m0).
      rewrite find_merge_all_absent by exact Hocc'.
      rewrite He, find_update_same by exact Hm.
      unfold PMT.merge_entry, PMT.stream_of. simpl. now rewrite app_nil_r.
    + change (fold_left _ es ?m0) with (PMT.merge_all es m0).
      rewrite IH by (assumption || discriminate).
      rewrite He, find_update_same by exact Hm.
      unfold PMT.merge_entry, PMT.stream_of at 1.
      cbn [PMT.Stream.descs concat map]. rewrite <- app_assoc.
      reflexivity.
  - change (fold_left _ es ?m0) with (PMT.merge_all es m0).
    rewrite IH by assumption.
    rewrite find_update_other by congruence. reflexivity.
Qed.

(** Counterexample to C3 as stated: in [PMT.duplicate_pid_table] the PID
    0x0100 comes twice; its stream keeps the descriptor of the first entry
    (tag 0x0A) before the one of the last entry (tag 0x6A), so it is not
    the last entry alone. *)
Lemma deserialize_duplicate_pid_keeps_descriptors :
  PMT.find 0x0100
    (PMT.streams (PMT.deserialize (PMT.new 0 true 0 0) PMT.duplicate_pid_table))
  = Some (PMT.Stream.mk 0x06 [mkDescriptor 0x0A []; mkDescriptor 0x6A []])
  /\ PMT.find 0x0100
       (PMT.streams (PMT.deserialize (PMT.new 0 true 0 0) PMT.duplicate_pid_table))
     <> Some (PMT.Stream.mk 0x06 [mkDescriptor 0x6A []]).
Proof. split; [reflexivity|discriminate]. Qed.

(** The streams of a one-section table whose payload is: two bytes of PCR
    PID, the program information with its length, and [rest]. *)
Lemma deserialize_streams self sect b0 b1 pbytes rest :
  sec_payload sect
  = b0 :: b1 :: PutUInt16 (Z.lor (len pbytes) 0xF000) ++ pbytes ++ rest ->
  len pbytes < 4096 ->
  PMT.streams (PMT.deserialize self (mkBinaryTable true TID_PMT [sect]))
  = PMT.streams_loop (length rest) rest [].
Proof.
  intros Hpay Hlen.
  pose proof (len_nonneg pbytes) as Hp. pose proof (len_nonneg rest) as Hr.
  unfold PMT.deserialize. cbv zeta.
  cbn [Table.isValid Table.tableId bt_is_valid bt_tid bt_sections].
  rewrite Z.eqb_refl. simpl negb. simpl orb. cbv iota.
  cbn [PMT.sections_loop]. unfold PMT.deserialize_section. cbv zeta.
  rewrite Hpay.
  set (tl2 := PutUInt16 (Z.lor (len pbytes) 0xF000) ++ pbytes ++ rest).
  assert (Hlen2 : len tl2 = 2 + (len pbytes + len rest))
    by (unfold tl2; rewrite !len_app; reflexivity).
  change (skipn 2 (b0 :: b1 :: tl2)) with tl2.
  rewrite !len_cons.
  destruct (Z.ltb_spec (1 + (1 + len tl2)) 2); [lia|].
  destruct (Z.ltb_spec (len tl2) 2); [lia|].
  assert (Hinfo : Z.land (GetUInt16 tl2) 0x0FFF = len pbytes)
    by (apply length_field_roundtrip; lia).
  rewrite !Hinfo.
  change (skipn 2 tl2) with (pbytes ++ rest).
  rewrite len_app, Z.min_l by lia.
  rewrite !skipn_len_app. reflexivity.
Qed.

(** C3 (amended).  When [deserialize] parses a section payload in which a
    PID appears in one or more stream entries, the streams map binds that
    PID to the stream type of its last entry and to the descriptors of all
    its entries, in the order of the payload. *)
Theorem deserialize_duplicate_pid (self : PMT.t) (sect : Section)
  (b0 b1 : Z) (pbytes tail : list Z) (es : list (Z * PMT.Stream.t))
  (pid : Z) :
  sec_payload sect
  = b0 :: b1 :: PutUInt16 (Z.lor (len pbytes) 0xF000) ++ pbytes
    ++ concat (map PMT.stream_entry es) ++ tail ->
  len pbytes < 4096 ->
  Forall PMT.wf_entry es ->
  Forall (fun e => PMT.descs_size (PMT.Stream.descs (snd e)) < 4096) es ->
  len tail < 5 ->
  PMT.occurrences pid es <> [] ->
  PMT.find pid
    (PMT.streams (PMT.deserialize self (mkBinaryTable true TID_PMT [sect])))
  = Some (PMT.Stream.mk
            (PMT.Stream.stream_type
               (snd (last (PMT.occurrences pid es) (pid, PMT.Stream.default))))
            (concat (map (fun e => PMT.Stream.descs (snd e))
                         (PMT.occurrences pid es)))).
Proof.
  intros Hpay Hlen Hwf Hsize Htail Hocc.
  rewrite (deserialize_streams self sect b0 b1 pbytes _ Hpay Hlen).
  rewrite streams_loop_image; try assumption.
  - rewrite find_merge_all_present; [reflexivity|constructor|exact Hocc].
  - eapply Forall_impl; [|exact Hwf]. intros e He. apply He.
  - lia.
Qed.

Lemma deserialize_duplicate_pid_witness :
  PMT.find 0x0100
    (PMT.streams
       (PMT.deserialize (PMT.new 0 true 0 0)
          (mkBinaryTable true TID_PMT
             [mkSection TID_PMT false 1 0 true 0 0
                (0xE1 :: 0x00 :: PutUInt16 (Z.lor (len (@nil Z)) 0xF000) ++ []
                 ++ concat (map PMT.stream_entry
                              [(0x0100, PMT.Stream.mk 0x1B [mkDescriptor 0x0A []]);
                               (0x0100, PMT.Stream.mk 0x06 [mkDescriptor 0x6A []])])
                 ++ [])])))
  = Some (PMT.Stream.mk 0x06 [mkDescriptor 0x0A []; mkDescriptor 0x6A []]).
Proof.
  apply (deserialize_duplicate_pid (PMT.new 0 true 0 0) _ 0xE1 0x00 [] []
           [(0x0100, PMT.Stream.mk 0x1B [mkDescriptor 0x0A []]);
            (0x0100, PMT.Stream.mk 0x06 [mkDescriptor 0x6A []])] 0x0100).
  - reflexivity.
  - reflexivity.
  - forall_auto.
  - forall_auto.
  - reflexivity.
  - discriminate.
Defined.

(** ** Payloads that do not fit *)

(** C2 on the code: two valid PMTs whose combined payload is larger than
    MAX_PSI_LONG_SECTION_PAYLOAD_SIZE.  [serialize] gives a valid table of
    one section for each: the first without its last stream (203 of 204),
    the second without its last two program descriptors (3 of 5). *)
Lemma serialize_overflow_is_valid :
  (PMT.payload_size PMT.pmt_204_streams = 1024
   /\ bt_is_valid (PMT.serialize PMT.pmt_204_streams) = true
   /\ map (fun sect => len (sec_payload sect))
          (bt_sections (PMT.serialize PMT.pmt_204_streams)) = [1019]
   /\ PMT.streams (PMT.deserialize (PMT.new 0 true 0 0)
                     (PMT.serialize PMT.pmt_204_streams))
      = PMT.plain_streams 203)
  /\ (PMT.payload_size PMT.pmt_5_descriptors = 1289
      /\ bt_is_valid (PMT.serialize PMT.pmt_5_descriptors) = true
      /\ PMT.descs (PMT.deserialize (PMT.new 0 true 0 0)
                      (PMT.serialize PMT.pmt_5_descriptors))
         = firstn 3 (PMT.descs PMT.pmt_5_descriptors)).
Proof. vm_compute. repeat split; reflexivity. Qed.

(** ** Stream predicates *)

Lemma nth_error_lt {A} (l : list A) (i : nat) (a : A) :
  nth_error l i = Some a -> (i < length l)%nat.
Proof. intros H. apply nth_error_Some. congruence. Qed.

Section Search.

Variable dl : DescriptorList.
Variable t : Z.

Lemma search_loop_spec fuel : forall i,
  (length dl <= i + fuel)%nat ->
  (i <= Desc.search_loop fuel dl t i)%nat
  /\ (forall j d, (i <= j < Desc.search_loop fuel dl t i)%nat ->
                  nth_error dl j = Some d -> tag d <> t)
  /\ (forall d, nth_error dl (Desc.search_loop fuel dl t i) = Some d ->
                tag d = t).
Proof.
  induction fuel as [|fuel IH]; intros i Hfuel.
  - simpl. split; [lia|]. split; [intros; lia|].
    intros d Hd. apply nth_error_lt in Hd. lia.
  - simpl. destruct (nth_error dl i) as [d|] eqn:Hi.
    + destruct (Z.eqb_spec (tag d) t) as [Ht|Ht].
      * split; [lia|]. split; [intros; lia|]. congruence.
      * destruct (IH (S i)) as [H1 [H2 H3]]; [lia|].
        split; [lia|]. split; [|exact H3].
        intros j d' Hj Hd'. destruct (Nat.eq_dec j i) as [->|Hne].
        -- congruence.
        -- apply (H2 j d'); [lia|exact Hd'].
    + split; [lia|]. split; [intros; lia|]. congruence.
Qed.

Lemma search_found_iff start :
  (Desc.search dl t start <? Desc.count dl)%nat = true
  <-> exists j d, (start <= j)%nat /\ nth_error dl j = Some d /\ tag d = t.
Proof.
  unfold Desc.search, Desc.count.
  destruct (search_loop_spec (length dl) start) as [H1 [H2 H3]]; [lia|].
  rewrite Nat.ltb_lt. split.
  - intros Hlt.
    destruct (nth_error dl (Desc.search_loop (length dl) dl t start)) as [d|] eqn:Hd.
    + exists (Desc.search_loop (length dl) dl t start), d. auto.
    + apply nth_error_None in Hd. lia.
  - intros [j [d [Hj [Hd Ht]]]].
    destruct (Nat.lt_ge_cases (Desc.search_loop (length dl) dl t start) (length dl))
      as [Hlt|Hge]; [exact Hlt|].
    exfalso. apply (H2 j d); [|exact Hd|exact Ht].
    apply nth_error_lt in Hd. lia.
Qed.

Lemma search_found_In :
  (Desc.search dl t 0 <? Desc.count dl)%nat = true
  <-> exists d, In d dl /\ tag d = t.
Proof.
  rewrite search_found_iff. split.
  - intros [j [d [_ [Hd Ht]]]]. exists d. split; [|exact Ht].
    eapply nth_error_In; exact Hd.
  - intros [d [Hin Ht]]. apply In_nth_error in Hin. destruct Hin as [j Hj].
    exists j, d. split; [lia|]. now split.
Qed.

End Search.

(** C9.  [isAudio] is true if and only if the stream type is an audio
    stream type or one of the descriptors has the tag of DTS, AC-3,
    Enhanced-AC-3 or AAC; a stream of type 0x06 with an empty AC-3
    descriptor (tag 0x6A) is audio, whatever the table of audio types. *)
Theorem isAudio_iff (IsAudioST : Z -> bool) :
  (forall s : PMT.Stream.t,
     PMT.Stream.isAudio IsAudioST s = true
     <-> (IsAudioST (PMT.Stream.stream_type s) = true
          \/ exists d, In d (PMT.Stream.descs s)
                       /\ (tag d = DID_DTS \/ tag d = DID_AC3
                           \/ tag d = DID_ENHANCED_AC3 \/ tag d = DID_AAC)))
  /\ PMT.Stream.isAudio IsAudioST
       (PMT.Stream.mk 0x06 [mkDescriptor 0x6A []]) = true.
Proof.
  split.
  - intros s. unfold PMT.Stream.isAudio.
    rewrite !orb_true_iff, !search_found_In. split.
    + intros [[[[H|[d [Hin Ht]]]|[d [Hin Ht]]]|[d [Hin Ht]]]|[d [Hin Ht]]];
        [left; exact H|right; exists d; auto..].
    + intros [H|[d [Hin [Ht|[Ht|[Ht|Ht]]]]]].
      * left; left; left; left. exact H.
      * left; left; left; right. eauto.
      * left; left; right. eauto.
      * left; right. eauto.
      * right. eauto.
  - unfold PMT.Stream.isAudio. cbn.
    destruct (IsAudioST 6); reflexivity.
Qed.

Lemma nth_skipn_shift {A} (n k : nat) (l : list A) (d : A) :
  nth k (skipn n l) d = nth (n + k) l d.
Proof.
  revert l. induction n as [|n IH]; intros l; [reflexivity|].
  destruct l as [|a l]; [now destruct k|]. simpl. apply IH.
Qed.

(** The loop on the language entries finds a subtitle type if there is
    one. *)
Lemma teletext_entries_iff fuel : forall data,
  (length data <= fuel)%nat ->
  PMT.Stream.teletext_entries fuel data = true
  <-> PMT.Stream.subtitle_entry data.
Proof.
  unfold PMT.Stream.subtitle_entry.
  induction fuel as [|fuel IH]; intros data Hfuel.
  - cbn [PMT.Stream.teletext_entries]. split; [discriminate|].
    intros [k [Hk _]]. unfold len in Hk. lia.
  - cbn [PMT.Stream.teletext_entries].
    destruct (Z.leb_spec 5 (len data)) as [Hlen|Hlen].
    + destruct ((uint8 (Z.shiftr (nth 3 data 0) 3) =? 2)
                || (uint8 (Z.shiftr (nth 3 data 0) 3) =? 5)) eqn:Htype.
      * split; [|reflexivity]. intros _. exists 0%nat.
        split; [lia|]. change (5 * 0 + 3)%nat with 3%nat.
        apply orb_true_iff in Htype. rewrite !Z.eqb_eq in Htype. exact Htype.
      * apply orb_false_iff in Htype. rewrite !Z.eqb_neq in Htype.
        rewrite IH by (rewrite length_skipn; lia).
        rewrite len_skipn by (unfold len in Hlen; lia).
        split.
        -- intros [k [Hk Ht]]. exists (S k). split; [lia|].
           rewrite nth_skipn_shift in Ht.
           replace (5 * S k + 3)%nat with (5 + (5 * k + 3))%nat by lia.
           exact Ht.
        -- intros [k [Hk Ht]]. destruct k as [|k].
           ++ change (5 * 0 + 3)%nat with 3%nat in Ht. lia.
           ++ exists k. split; [lia|].
              rewrite nth_skipn_shift.
              replace (5 + (5 * k + 3))%nat with (5 * S k + 3)%nat by lia.
              exact Ht.
    + split; [discriminate|]. intros [k [Hk _]]. lia.
Qed.

(** The loop on the teletext descriptors. *)
Lemma teletext_loop_iff dl fuel : forall index,
  (length dl < index + fuel)%nat ->
  PMT.Stream.teletext_loop fuel dl index = true
  <-> exists j d, (index <= j)%nat /\ nth_error dl j = Some d
                  /\ tag d = DID_TELETEXT
                  /\ PMT.Stream.subtitle_entry (payload d).
Proof.
  induction fuel as [|fuel IH]; intros index Hfuel.
  - simpl. split; [discriminate|].
    intros [j [d [Hj [Hd _]]]]. apply nth_error_lt in Hd. lia.
  - cbn [PMT.Stream.teletext_loop].
    destruct (search_loop_spec dl DID_TELETEXT (length dl) index)
      as [H1 [H2 H3]]; [lia|].
    fold (Desc.search dl DID_TELETEXT index) in H1, H2, H3.
    set (r := Desc.search dl DID_TELETEXT index) in *.
    unfold Desc.count.
    destruct (Nat.ltb_spec r (length dl)) as [Hr|Hr].
    + destruct (nth_error dl r) as [d|] eqn:Hd;
        [|apply nth_error_None in Hd; lia].
      rewrite (nth_error_nth _ _ _ Hd).
      destruct (PMT.Stream.teletext_entries (length (payload d)) (payload d))
        eqn:Hent.
      * split; [|reflexivity]. intros _. exists r, d.
        repeat split; auto.
        apply (teletext_entries_iff (length (payload d))); [lia|exact Hent].
      * rewrite IH by lia. split.
        -- intros [j [d' [Hj Hrest]]]. exists j, d'. split; [lia|exact Hrest].
        -- intros [j [d' [Hj [Hd' [Ht Hs]]]]]. exists j, d'.
           split; [|auto].
           destruct (Nat.lt_ge_cases j r) as [Hlt|Hge].
           ++ exfalso. apply (H2 j d'); [lia|exact Hd'|exact Ht].
           ++ destruct (Nat.eq_dec j r) as [->|Hne]; [|lia].
              exfalso. rewrite Hd in Hd'. injection Hd' as <-.
              apply (teletext_entries_iff (length (payload d))) in Hs; [|lia].
              congruence.
    + split; [discriminate|].
      intros [j [d [Hj [Hd [Ht _]]]]]. exfalso.
      apply (H2 j d); [|exact Hd|exact Ht].
      apply nth_error_lt in Hd. lia.
Qed.

(** C8.  [isSubtitles] is true if and only if the descriptor list holds a
    subtitling descriptor, or a teletext descriptor with a 5-byte language
    entry whose type byte, shifted right by 3, is 2 or 5.  A sole teletext
    entry with type byte 0x18 gives false, one with 0x10 gives true. *)
Theorem isSubtitles_iff :
  (forall s : PMT.Stream.t,
     PMT.Stream.isSubtitles s = true
     <-> ((exists d, In d (PMT.Stream.descs s) /\ tag d = DID_SUBTITLING)
          \/ (exists d, In d (PMT.Stream.descs s) /\ tag d = DID_TELETEXT
                        /\ PMT.Stream.subtitle_entry (payload d))))
  /\ (forall stype a b c e,
        PMT.Stream.isSubtitles
          (PMT.Stream.mk stype [mkDescriptor DID_TELETEXT [a; b; c; 0x18; e]])
        = false)
  /\ (forall stype a b c e,
        PMT.Stream.isSubtitles
          (PMT.Stream.mk stype [mkDescriptor DID_TELETEXT [a; b; c; 0x10; e]])
        = true).
Proof.
  split; [|split; reflexivity].
  intros s. unfold PMT.Stream.isSubtitles.
  destruct (Desc.search (PMT.Stream.descs s) DID_SUBTITLING 0
            <? Desc.count (PMT.Stream.descs s))%nat eqn:Hsub.
  - split; [|reflexivity]. intros _. left. now apply search_found_In.
  - rewrite teletext_loop_iff by lia. split.
    + intros [j [d [_ [Hd Hrest]]]]. right. exists d. split; [|exact Hrest].
      eapply nth_error_In; exact Hd.
    + intros [Hs|[d [Hin Hrest]]].
      * apply search_found_In in Hs. congruence.
      * apply In_nth_error in Hin. destruct Hin as [j Hj].
        exists j, d. split; [lia|]. split; assumption.
Qed.

(** ** ForkPipe::write *)

Section WriteLoop.

Variable pf : ForkPipe.Platform.

Lemma interrupted_not_successful a :
  ForkPipe.interrupted pf a = true -> ForkPipe.successful pf a = false.
Proof.
  destruct pf; simpl; [discriminate|].
  intros H. apply andb_true_iff in H. destruct H as [H _].
  now apply negb_true_iff in H.
Qed.

(** An interrupted call changes nothing but the error code: the loop
    calls the system again. *)
Lemma write_loop_interrupted a answers s :
  0 < ForkPipe.remain s -> ForkPipe.error s = false ->
  ForkPipe.interrupted pf a = true ->
  ForkPipe.write_loop pf (a :: answers) s
  = ForkPipe.write_loop pf answers
      (ForkPipe.mkLoop (ForkPipe.remain s) false (ForkPipe.errcode a)
         (ForkPipe.broken_pipe s)
         (ForkPipe.calls s ++ [(ForkPipe.remain s, a)])).
Proof.
  intros Hr He Hi. cbn [ForkPipe.write_loop].
  destruct (Z.ltb_spec 0 (ForkPipe.remain s)); [|lia].
  rewrite He. cbn [negb andb]. f_equal.
  unfold ForkPipe.turn. destruct pf; [discriminate|].
  simpl in Hi. apply andb_true_iff in Hi. destruct Hi as [H1 H2].
  apply negb_true_iff in H1. rewrite H1, H2, He. reflexivity.
Qed.

(** A successful call ends the loop, whatever the count of bytes taken. *)
Lemma write_loop_successful a answers s :
  0 < ForkPipe.remain s -> ForkPipe.error s = false ->
  ForkPipe.successful pf a = true ->
  0 <= ForkPipe.outsize pf a <= ForkPipe.remain s ->
  ForkPipe.remain s < 2 ^ 64 ->
  ForkPipe.write_loop pf (a :: answers) s
  = Some (ForkPipe.mkLoop 0 false (ForkPipe.error_code s)
            (ForkPipe.broken_pipe s)
            (ForkPipe.calls s ++ [(ForkPipe.remain s, a)]),
          answers).
Proof.
  intros Hr He Hs Ho Hmax. cbn [ForkPipe.write_loop].
  destruct (Z.ltb_spec 0 (ForkPipe.remain s)); [|lia].
  rewrite He. cbn [negb andb].
  assert (Hturn : ForkPipe.turn pf a s
                  = ForkPipe.mkLoop 0 false (ForkPipe.error_code s)
                      (ForkPipe.broken_pipe s)
                      (ForkPipe.calls s ++ [(ForkPipe.remain s, a)])).
  { unfold ForkPipe.turn. destruct pf; simpl in Hs, Ho.
    - rewrite Hs, He. rewrite Z.max_l by lia. rewrite Z.sub_diag. reflexivity.
    - rewrite Hs, He. unfold ForkPipe.size_t at 2.
      rewrite (Z.mod_small (ForkPipe.ret a)) by lia.
      rewrite Z.max_l by lia. rewrite Z.sub_diag. reflexivity. }
  rewrite Hturn. destruct answers; reflexivity.
Qed.

(** An actual error ends the loop. *)
Lemma write_loop_failed a answers s :
  0 < ForkPipe.remain s -> ForkPipe.error s = false ->
  ForkPipe.successful pf a = false ->
  ForkPipe.interrupted pf a = false ->
  ForkPipe.write_loop pf (a :: answers) s
  = Some (ForkPipe.mkLoop (ForkPipe.remain s) true (ForkPipe.errcode a)
            (ForkPipe.is_broken_pipe pf (ForkPipe.errcode a))
            (ForkPipe.calls s ++ [(ForkPipe.remain s, a)]),
          answers).
Proof.
  intros Hr He Hs Hi. cbn [ForkPipe.write_loop].
  destruct (Z.ltb_spec 0 (ForkPipe.remain s)); [|lia].
  rewrite He. cbn [negb andb].
  assert (Hturn : ForkPipe.turn pf a s
                  = ForkPipe.mkLoop (ForkPipe.remain s) true (ForkPipe.errcode a)
                      (ForkPipe.is_broken_pipe pf (ForkPipe.errcode a))
                      (ForkPipe.calls s ++ [(ForkPipe.remain s, a)])).
  { unfold ForkPipe.turn. destruct pf; simpl in Hs, Hi.
    - rewrite Hs. reflexivity.
    - rewrite Hs in *. simpl in Hi. rewrite Hi. reflexivity. }
  rewrite Hturn.
  destruct answers;
    cbn [ForkPipe.write_loop ForkPipe.error ForkPipe.remain negb];
    rewrite andb_false_r; reflexivity.
Qed.

(** The interrupted calls at the head of the answers are all retried. *)
Lemma write_loop_retries interrupts : forall rest s,
  0 < ForkPipe.remain s -> ForkPipe.error s = false ->
  Forall (fun a => ForkPipe.interrupted pf a = true) interrupts ->
  exists code,
    ForkPipe.write_loop pf (interrupts ++ rest) s
    = ForkPipe.write_loop pf rest
        (ForkPipe.mkLoop (ForkPipe.remain s) false code
           (ForkPipe.broken_pipe s)
           (ForkPipe.calls s
            ++ map (fun a => (ForkPipe.remain s, a)) interrupts)).
Proof.
  induction interrupts as [|a interrupts IH]; intros rest s Hr He Hall.
  - exists (ForkPipe.error_code s). simpl. rewrite app_nil_r.
    destruct s; simpl in *; subst; reflexivity.
  - inversion Hall as [|? ? Ha Hall']; subst.
    simpl app. rewrite write_loop_interrupted by assumption.
    destruct (IH rest
                (ForkPipe.mkLoop (ForkPipe.remain s) false (ForkPipe.errcode a)
                   (ForkPipe.broken_pipe s)
                   (ForkPipe.calls s ++ [(ForkPipe.remain s, a)])))
      as [code Hcode]; try assumption; try reflexivity.
    exists code. rewrite Hcode. simpl. now rewrite <- app_assoc.
Qed.

Lemma successful_calls_retries r interrupts :
  Forall (fun a => ForkPipe.interrupted pf a = true) interrupts ->
  ForkPipe.successful_calls pf (map (fun a => (r, a)) interrupts) = [].
Proof.
  induction 1 as [|a l Ha Hl IH]; [reflexivity|].
  unfold ForkPipe.successful_calls in *. simpl.
  now rewrite (interrupted_not_successful a Ha).
Qed.

(** The answers up to the first one that is not an interrupt. *)
Lemma first_not_interrupted answers :
  (exists a, In a answers /\ ForkPipe.interrupted pf a = false) ->
  exists interrupts a rest,
    answers = interrupts ++ a :: rest
    /\ Forall (fun i => ForkPipe.interrupted pf i = true) interrupts
    /\ ForkPipe.interrupted pf a = false.
Proof.
  induction answers as [|b answers IH]; intros [a [Hin Ha]]; [contradiction|].
  destruct (ForkPipe.interrupted pf b) eqn:Hb.
  - destruct Hin as [->|Hin]; [congruence|].
    destruct IH as [interrupts [a' [rest [E [Hall Ha']]]]]; [now exists a|].
    exists (b :: interrupts), a', rest. subst. repeat split; auto.
  - exists [], b, answers. repeat split; auto.
Qed.

End WriteLoop.

Lemma initial_remain_range pf size :
  0 <= size < 2 ^ 64 ->
  0 <= ForkPipe.initial_remain pf size < 2 ^ 64.
Proof.
  intros Hs. destruct pf; simpl; [|exact Hs].
  unfold ForkPipe.DWORD.
  pose proof (Z.mod_pos_bound size (2 ^ 32) ltac:(lia)). lia.
Qed.

(** C4.  On an open pipe, with [size > 0], a system that never takes more
    bytes than asked and that ends up answering something else than an
    interrupt: [write] returns, at most one call to the system is
    successful, and when there is one, [write] returns true and the bytes
    that went into the pipe are those of that call: fewer than [size]
    when [outsize < size]. *)
Theorem write_at_most_one_successful_call
  (pf : ForkPipe.Platform) (self : ForkPipe.t) (size : Z)
  (answers : list ForkPipe.Answer) :
  ForkPipe._is_open self = true ->
  0 < size < 2 ^ 64 ->
  Forall (ForkPipe.within_request pf size) answers ->
  (exists a, In a answers /\ ForkPipe.interrupted pf a = false) ->
  exists out,
    ForkPipe.write pf self size answers = Some out
    /\ (length (ForkPipe.successful_calls pf (ForkPipe.os_calls out)) <= 1)%nat
    /\ forall c, In c (ForkPipe.successful_calls pf (ForkPipe.os_calls out)) ->
         ForkPipe.result out = true
         /\ ForkPipe.bytes_written pf (ForkPipe.os_calls out)
            = ForkPipe.outsize pf (snd c)
         /\ (ForkPipe.outsize pf (snd c) < size ->
             ForkPipe.bytes_written pf (ForkPipe.os_calls out) < size).
Proof.
  intros Hopen Hsize Hreq Hanswer.
  unfold ForkPipe.write. rewrite Hopen. cbn [negb].
  destruct (ForkPipe._in_mode self).
  2:{ eexists. split; [reflexivity|]. split; [simpl; lia|]. intros c []. }
  destruct (ForkPipe._broken_pipe self) eqn:Hbroken.
  { eexists. split; [reflexivity|]. split; [simpl; lia|]. intros c []. }
  pose proof (initial_remain_range pf size ltac:(lia)) as Hr0.
  set (r0 := ForkPipe.initial_remain pf size) in *.
  destruct (Z.eq_dec r0 0) as [Hzero|Hpos].
  { (* nothing to write: the loop is not entered *)
    assert (Hloop : ForkPipe.write_loop pf answers
                      (ForkPipe.mkLoop r0 false ForkPipe.SYS_SUCCESS false [])
                    = Some (ForkPipe.mkLoop r0 false ForkPipe.SYS_SUCCESS false [],
                            answers)).
    { rewrite Hzero. destruct answers; reflexivity. }
    rewrite Hloop. cbn.
    eexists. split; [reflexivity|]. split; [simpl; lia|]. intros c []. }
  destruct (first_not_interrupted pf answers Hanswer)
    as [interrupts [a [rest [-> [Hint Ha]]]]].
  destruct (write_loop_retries pf interrupts (a :: rest)
              (ForkPipe.mkLoop r0 false ForkPipe.SYS_SUCCESS false []))
    as [code Hcode]; [simpl; lia|reflexivity|exact Hint|].
  rewrite Hcode. cbn [ForkPipe.remain ForkPipe.calls ForkPipe.broken_pipe app].
  destruct (ForkPipe.successful pf a) eqn:Hsucc.
  - (* the first actual answer is a success *)
    assert (Ho : 0 <= ForkPipe.outsize pf a <= r0).
    { rewrite Forall_forall in Hreq. apply (Hreq a); [|exact Hsucc].
      apply in_or_app. right. now left. }
    rewrite write_loop_successful; try assumption; try reflexivity;
      try (simpl; lia).
    cbn. eexists. split; [reflexivity|].
    cbn [ForkPipe.os_calls ForkPipe.result].
    assert (Hcalls : ForkPipe.successful_calls pf
                       (map (fun a0 => (r0, a0)) interrupts ++ [(r0, a)])
                     = [(r0, a)]).
    { unfold ForkPipe.successful_calls. rewrite filter_app.
      fold (ForkPipe.successful_calls pf (map (fun a0 => (r0, a0)) interrupts)).
      rewrite successful_calls_retries by exact Hint.
      simpl. now rewrite Hsucc. }
    unfold ForkPipe.bytes_written. rewrite Hcalls.
    split; [simpl; lia|].
    intros c [<-|[]]. simpl. split; [reflexivity|]. split; lia.
  - (* the first actual answer is an error *)
    rewrite write_loop_failed; try assumption; try reflexivity;
      try (simpl; lia).
    assert (Hcalls : ForkPipe.successful_calls pf
                       (map (fun a0 => (r0, a0)) interrupts ++ [(r0, a)])
                     = []).
    { unfold ForkPipe.successful_calls. rewrite filter_app.
      fold (ForkPipe.successful_calls pf (map (fun a0 => (r0, a0)) interrupts)).
      rewrite successful_calls_retries by exact Hint.
      simpl. now rewrite Hsucc. }
    cbn [ForkPipe.error ForkPipe.broken_pipe ForkPipe.calls
         ForkPipe.error_code negb].
    destruct (ForkPipe.is_broken_pipe pf (ForkPipe.errcode a));
      [destruct (ForkPipe._ignore_abort self)|];
      cbn; (eexists; split; [reflexivity|]);
      cbn [ForkPipe.os_calls]; rewrite Hcalls;
      (split; [simpl; lia|intros c []]).
Qed.

Lemma write_at_most_one_successful_call_witness :
  exists out,
    ForkPipe.write ForkPipe.Unix (ForkPipe.open_pipe false) 188
      [ForkPipe.mkAnswer (-1) 0 ForkPipe.EINTR; ForkPipe.mkAnswer 100 0 0]
    = Some out
    /\ (length (ForkPipe.successful_calls ForkPipe.Unix (ForkPipe.os_calls out))
        <= 1)%nat
    /\ forall c,
         In c (ForkPipe.successful_calls ForkPipe.Unix (ForkPipe.os_calls out)) ->
         ForkPipe.result out = true
         /\ ForkPipe.bytes_written ForkPipe.Unix (ForkPipe.os_calls out)
            = ForkPipe.outsize ForkPipe.Unix (snd c)
         /\ (ForkPipe.outsize ForkPipe.Unix (snd c) < 188 ->
             ForkPipe.bytes_written ForkPipe.Unix (ForkPipe.os_calls out) < 188).
Proof.
  apply (write_at_most_one_successful_call ForkPipe.Unix
           (ForkPipe.open_pipe false) 188
           [ForkPipe.mkAnswer (-1) 0 ForkPipe.EINTR; ForkPipe.mkAnswer 100 0 0]).
  - reflexivity.
  - lia.
  - apply Forall_cons; [intros H; discriminate H|].
    apply Forall_cons; [intros _; simpl; lia|apply Forall_nil].
  - exists (ForkPipe.mkAnswer 100 0 0). split; [simpl; auto|reflexivity].
Defined.

(** Counterexample to C10 as stated: on UNIX, a call of [::write] that
    fails with EINTR is a write failure that is not a broken pipe; the
    loop calls the system again, and when the second call succeeds [write]
    returns true and reports nothing. *)
Lemma write_interrupted_then_successful :
  ForkPipe.write ForkPipe.Unix (ForkPipe.open_pipe true) 188
    [ForkPipe.mkAnswer (-1) 0 ForkPipe.EINTR; ForkPipe.mkAnswer 188 0 0]
  = Some (ForkPipe.mkOutcome true (ForkPipe.open_pipe true) []
            [(188, ForkPipe.mkAnswer (-1) 0 ForkPipe.EINTR);
             (188, ForkPipe.mkAnswer 188 0 0)]
            [])
  /\ ForkPipe.successful ForkPipe.Unix (ForkPipe.mkAnswer (-1) 0 ForkPipe.EINTR)
     = false
  /\ ForkPipe.is_broken_pipe ForkPipe.Unix ForkPipe.EINTR = false.
Proof. repeat split; reflexivity. Qed.

(** C10 (amended).  On an open pipe that is not broken, with something to
    write, let the first answer of the system that is not an interrupt
    (EINTR on UNIX; the interrupted calls are retried) be a failure.
    - When its code is a broken pipe (EPIPE on UNIX, ERROR_BROKEN_PIPE or
      ERROR_NO_DATA on Windows), every later write on that pipe returns the
      ignore-abort flag without a call to the system and without a
      message; when ignore-abort is set, [write] returns true and reports
      no error; when it is clear, [write] returns false without a message.
    - When its code is not a broken pipe, [write] reports an error and
      returns false.
    In both cases nothing is written. *)
Theorem write_failure_outcome
  (pf : ForkPipe.Platform) (self : ForkPipe.t) (size : Z)
  (interrupts : list ForkPipe.Answer) (a : ForkPipe.Answer)
  (rest : list ForkPipe.Answer) :
  ForkPipe._is_open self = true ->
  ForkPipe._in_mode self = ForkPipe.USE_PIPE ->
  ForkPipe._broken_pipe self = false ->
  0 < ForkPipe.initial_remain pf size ->
  Forall (fun i => ForkPipe.interrupted pf i = true) interrupts ->
  ForkPipe.interrupted pf a = false ->
  ForkPipe.successful pf a = false ->
  exists out,
    ForkPipe.write pf self size (interrupts ++ a :: rest) = Some out
    /\ ForkPipe.successful_calls pf (ForkPipe.os_calls out) = []
    /\ (ForkPipe.is_broken_pipe pf (ForkPipe.errcode a) = true ->
        (ForkPipe._ignore_abort self = true ->
         ForkPipe.result out = true
         /\ existsb ForkPipe.is_error (ForkPipe.reports out) = false)
        /\ (ForkPipe._ignore_abort self = false ->
            ForkPipe.result out = false /\ ForkPipe.reports out = [])
        /\ forall size' answers',
             ForkPipe.write pf (ForkPipe.pipe out) size' answers'
             = Some (ForkPipe.mkOutcome (ForkPipe._ignore_abort self)
                       (ForkPipe.pipe out) [] [] answers'))
    /\ (ForkPipe.is_broken_pipe pf (ForkPipe.errcode a) = false ->
        ForkPipe.result out = false
        /\ ForkPipe.reports out
           = [ForkPipe.Error_writing_to_pipe (ForkPipe.errcode a)]).
Proof.
  intros Hopen Hmode Hbroken Hpos Hint Ha Hsucc.
  unfold ForkPipe.write. rewrite Hopen, Hmode, Hbroken. cbn [negb].
  set (r0 := ForkPipe.initial_remain pf size) in *.
  destruct (write_loop_retries pf interrupts (a :: rest)
              (ForkPipe.mkLoop r0 false ForkPipe.SYS_SUCCESS false []))
    as [code Hcode]; [exact Hpos|reflexivity|exact Hint|].
  rewrite Hcode. cbn [ForkPipe.remain ForkPipe.calls ForkPipe.broken_pipe app].
  rewrite write_loop_failed; try assumption; try reflexivity.
  assert (Hcalls : ForkPipe.successful_calls pf
                     (map (fun a0 => (r0, a0)) interrupts ++ [(r0, a)])
                   = []).
  { unfold ForkPipe.successful_calls. rewrite filter_app.
    fold (ForkPipe.successful_calls pf (map (fun a0 => (r0, a0)) interrupts)).
    rewrite successful_calls_retries by exact Hint.
    simpl. now rewrite Hsucc. }
  cbn [ForkPipe.error ForkPipe.broken_pipe ForkPipe.calls
       ForkPipe.error_code negb].
  destruct (ForkPipe.is_broken_pipe pf (ForkPipe.errcode a)) eqn:Hcode';
    [destruct (ForkPipe._ignore_abort self) eqn:Hign|];
    cbn [negb ForkPipe._ignore_abort];
    (eexists; split; [reflexivity|]);
    cbn [ForkPipe.os_calls ForkPipe.result ForkPipe.reports ForkPipe.pipe];
    (split; [exact Hcalls|]).
  - split; [|discriminate]. intros _. split; [auto|].
    split; [discriminate|]. intros size' answers'. reflexivity.
  - split; [|discriminate]. intros _. split; [discriminate|].
    split; [auto|]. intros size' answers'. reflexivity.
  - split; [discriminate|]. intros _. split; reflexivity.
Qed.

Lemma write_failure_outcome_witness :
  exists out,
    ForkPipe.write ForkPipe.Unix (ForkPipe.open_pipe true) 188
      ([ForkPipe.mkAnswer (-1) 0 ForkPipe.EINTR]
       ++ ForkPipe.mkAnswer (-1) 0 ForkPipe.EPIPE :: [])
    = Some out
    /\ ForkPipe.successful_calls ForkPipe.Unix (ForkPipe.os_calls out) = []
    /\ (ForkPipe.is_broken_pipe ForkPipe.Unix
          (ForkPipe.errcode (ForkPipe.mkAnswer (-1) 0 ForkPipe.EPIPE)) = true ->
        (ForkPipe._ignore_abort (ForkPipe.open_pipe true) = true ->
         ForkPipe.result out = true
         /\ existsb ForkPipe.is_error (ForkPipe.reports out) = false)
        /\ (ForkPipe._ignore_abort (ForkPipe.open_pipe true) = false ->
            ForkPipe.result out = false /\ ForkPipe.reports out = [])
        /\ forall size' answers',
             ForkPipe.write ForkPipe.Unix (ForkPipe.pipe out) size' answers'
             = Some (ForkPipe.mkOutcome
                       (ForkPipe._ignore_abort (ForkPipe.open_pipe true))
                       (ForkPipe.pipe out) [] [] answers'))
    /\ (ForkPipe.is_broken_pipe ForkPipe.Unix
          (ForkPipe.errcode (ForkPipe.mkAnswer (-1) 0 ForkPipe.EPIPE)) = false ->
        ForkPipe.result out = false
        /\ ForkPipe.reports out
           = [ForkPipe.Error_writing_to_pipe
                (ForkPipe.errcode (ForkPipe.mkAnswer (-1) 0 ForkPipe.EPIPE))]).
Proof.
  apply (write_failure_outcome ForkPipe.Unix (ForkPipe.open_pipe true) 188
           [ForkPipe.mkAnswer (-1) 0 ForkPipe.EINTR]
           (ForkPipe.mkAnswer (-1) 0 ForkPipe.EPIPE) []).
  - reflexivity.
  - reflexivity.
  - reflexivity.
  - simpl. lia.
  - apply Forall_cons; [reflexivity|apply Forall_nil].
  - reflexivity.
  - reflexivity.
Defined.

(** ** Joint termination *)

Lemma waiting_count_nonneg l : 0 <= JointTermination.waiting_count l.
Proof.
  induction l as [|s l IH]; simpl; [lia|].
  destruct (JointTermination.waiting s); lia.
Qed.

Lemma waiting_count_set_stage l : forall i s s',
  nth_error l i = Some s ->
  JointTermination.waiting_count (JointTermination.set_stage i s' l)
  = JointTermination.waiting_count l
    - (if JointTermination.waiting s then 1 else 0)
    + (if JointTermination.waiting s' then 1 else 0).
Proof.
  induction l as [|a l IH]; intros i s s' Hi.
  - destruct i; discriminate.
  - destruct i as [|i]; simpl in Hi.
    + injection Hi as ->. simpl. lia.
    + simpl. rewrite (IH i s s' Hi). lia.
Qed.

Lemma waiting_count_In l s :
  In s l -> JointTermination.waiting s = true ->
  0 < JointTermination.waiting_count l.
Proof.
  induction l as [|a l IH]; intros Hin Hw; [contradiction|].
  simpl. pose proof (waiting_count_nonneg l).
  destruct Hin as [->|Hin].
  - rewrite Hw. lia.
  - specialize (IH Hin Hw). destruct (JointTermination.waiting a); lia.
Qed.

(** One legal event keeps [_jt_remaining] equal to the number of stages
    that are opted in and not completed, and raises [_jt_hightest_pkt] to
    the total recorded, if any. *)
Lemma step_invariant sys ev :
  JointTermination._jt_remaining (JointTermination.globals sys)
  = JointTermination.waiting_count (JointTermination.stages sys) ->
  0 <= JointTermination._jt_hightest_pkt (JointTermination.globals sys) ->
  JointTermination.legal sys ev = true ->
  JointTermination._jt_remaining
    (JointTermination.globals (JointTermination.step sys ev))
  = JointTermination.waiting_count
      (JointTermination.stages (JointTermination.step sys ev))
  /\ JointTermination._jt_hightest_pkt
       (JointTermination.globals (JointTermination.step sys ev))
     = Z.max (JointTermination._jt_hightest_pkt (JointTermination.globals sys))
             (JointTermination.maximum (JointTermination.recorded sys [ev])).
Proof.
  intros Hinv Hhigh Hlegal.
  destruct sys as [l g]. simpl in Hinv, Hhigh.
  destruct ev as [i on|i incr|i]; simpl in *.
  - destruct (nth_error l i) as [s|] eqn:Hi; simpl; [|split; [exact Hinv|lia]].
    apply negb_true_iff in Hlegal.
    unfold JointTermination.useJointTermination.
    destruct on, (JointTermination._use_jt s) eqn:Hu; cbn [andb negb fst snd
      JointTermination.stages JointTermination.globals
      JointTermination._jt_remaining JointTermination._jt_hightest_pkt].
    all: rewrite (waiting_count_set_stage l i s _ Hi);
      unfold JointTermination.waiting;
      cbn [JointTermination._use_jt JointTermination._jt_completed];
      rewrite ?Hu, ?Hlegal; cbn [andb negb]; split; lia.
  - destruct (nth_error l i) as [s|] eqn:Hi; simpl; [|split; [exact Hinv|lia]].
    rewrite (waiting_count_set_stage l i s _ Hi).
    unfold JointTermination.waiting. simpl. split; lia.
  - destruct (nth_error l i) as [s|] eqn:Hi; simpl; [|split; [exact Hinv|lia]].
    unfold JointTermination.jointTerminate.
    fold (JointTermination.waiting s).
    destruct (JointTermination.waiting s) eqn:Hw; simpl.
    + rewrite (waiting_count_set_stage l i s _ Hi), Hw.
      unfold JointTermination.waiting. simpl. rewrite andb_false_r.
      split; lia.
    + rewrite (waiting_count_set_stage l i s _ Hi), Hw.
      split; lia.
Qed.

Lemma maximum_nonneg l : 0 <= JointTermination.maximum l.
Proof. unfold JointTermination.maximum. induction l; simpl; lia. Qed.

Lemma maximum_app l1 l2 :
  JointTermination.maximum (l1 ++ l2)
  = Z.max (JointTermination.maximum l1) (JointTermination.maximum l2).
Proof.
  unfold JointTermination.maximum.
  induction l1 as [|a l1 IH]; simpl.
  - pose proof (maximum_nonneg l2) as H.
    unfold JointTermination.maximum in H. lia.
  - rewrite IH. lia.
Qed.

Lemma recorded_cons sys ev trace :
  JointTermination.recorded sys (ev :: trace)
  = JointTermination.recorded sys [ev]
    ++ JointTermination.recorded (JointTermination.step sys ev) trace.
Proof. cbn [JointTermination.recorded]. now rewrite app_nil_r. Qed.

Lemma run_invariant trace : forall sys,
  JointTermination._jt_remaining (JointTermination.globals sys)
  = JointTermination.waiting_count (JointTermination.stages sys) ->
  0 <= JointTermination._jt_hightest_pkt (JointTermination.globals sys) ->
  JointTermination.legal_trace sys trace = true ->
  JointTermination._jt_remaining
    (JointTermination.globals (JointTermination.run sys trace))
  = JointTermination.waiting_count
      (JointTermination.stages (JointTermination.run sys trace))
  /\ JointTermination._jt_hightest_pkt
       (JointTermination.globals (JointTermination.run sys trace))
     = Z.max (JointTermination._jt_hightest_pkt (JointTermination.globals sys))
             (JointTermination.maximum (JointTermination.recorded sys trace)).
Proof.
  induction trace as [|ev trace IH]; intros sys Hinv Hhigh Hlegal.
  - simpl. split; [exact Hinv|]. unfold JointTermination.maximum. simpl. lia.
  - cbn [JointTermination.legal_trace] in Hlegal.
    apply andb_true_iff in Hlegal. destruct Hlegal as [Hev Htrace].
    destruct (step_invariant sys ev Hinv Hhigh Hev) as [Hinv1 Hhigh1].
    destruct (IH (JointTermination.step sys ev)) as [Hinv2 Hhigh2];
      [exact Hinv1|rewrite Hhigh1; lia|exact Htrace|].
    change (JointTermination.run sys (ev :: trace))
      with (JointTermination.run (JointTermination.step sys ev) trace).
    split; [exact Hinv2|].
    rewrite Hhigh2, Hhigh1.
    rewrite (recorded_cons sys ev trace), maximum_app. lia.
Qed.

Lemma initial_waiting_count n :
  JointTermination.waiting_count (repeat (JointTermination.new false) n) = 0.
Proof. induction n as [|n IH]; [reflexivity|]. simpl. now rewrite IH. Qed.

(** C5.  After any run of the stages in which no stage toggles its opt-in
    once it has called jointTerminate: [_jt_remaining] counts the opted-in
    stages that have not called jointTerminate yet; once it is zero,
    [totalPacketsBeforeJointTermination] returns the maximum of the
    totalPackets values recorded by the opted-in stages at their
    jointTerminate call; while an opted-in stage has not called
    jointTerminate, it returns the maximum PacketCounter value. *)
Theorem totalPacketsBeforeJointTermination_cutoff
  (n : nat) (trace : list JointTermination.Event) :
  JointTermination.legal_trace (JointTermination.initial n) trace = true ->
  (JointTermination._jt_remaining
     (JointTermination.globals
        (JointTermination.run (JointTermination.initial n) trace))
   = JointTermination.waiting_count
       (JointTermination.stages
          (JointTermination.run (JointTermination.initial n) trace)))
  /\ (JointTermination._jt_remaining
        (JointTermination.globals
           (JointTermination.run (JointTermination.initial n) trace)) = 0 ->
      JointTermination.totalPacketsBeforeJointTermination
        (JointTermination.globals
           (JointTermination.run (JointTermination.initial n) trace))
      = JointTermination.maximum
          (JointTermination.recorded (JointTermination.initial n) trace))
  /\ ((exists s,
         In s (JointTermination.stages
                 (JointTermination.run (JointTermination.initial n) trace))
         /\ JointTermination.waiting s = true) ->
      JointTermination.totalPacketsBeforeJointTermination
        (JointTermination.globals
           (JointTermination.run (JointTermination.initial n) trace))
      = JointTermination.PacketCounter_MAX).
Proof.
  intros Hlegal.
  destruct (run_invariant trace (JointTermination.initial n)) as [Hinv Hhigh];
    [simpl; now rewrite initial_waiting_count|simpl; lia|exact Hlegal|].
  split; [exact Hinv|]. split.
  - intros Hzero. unfold JointTermination.totalPacketsBeforeJointTermination.
    rewrite Hzero. simpl Z.eqb. cbv iota. rewrite Hhigh. simpl.
    pose proof (maximum_nonneg
                  (JointTermination.recorded (JointTermination.initial n) trace)).
    lia.
  - intros [s [Hin Hw]].
    pose proof (waiting_count_In _ s Hin Hw) as Hpos.
    unfold JointTermination.totalPacketsBeforeJointTermination.
    rewrite Hinv.
    destruct (Z.eqb_spec
                (JointTermination.waiting_count
                   (JointTermination.stages
                      (JointTermination.run (JointTermination.initial n) trace)))
                0); [lia|reflexivity].
Qed.

(** Scenario S4, as an instance of the theorem: after A's call the result
    is the maximum counter value (B is waiting), after B's call it is
    1500. *)
Lemma totalPacketsBeforeJointTermination_cutoff_witness :
  JointTermination.totalPacketsBeforeJointTermination
    (JointTermination.globals
       (JointTermination.run (JointTermination.initial 2)
          JointTermination.s4_first))
  = JointTermination.PacketCounter_MAX
  /\ JointTermination.totalPacketsBeforeJointTermination
       (JointTermination.globals
          (JointTermination.run (JointTermination.initial 2)
             JointTermination.s4_trace))
     = 1500.
Proof.
  split.
  - apply (totalPacketsBeforeJointTermination_cutoff 2
             JointTermination.s4_first); [reflexivity|].
    exists (JointTermination.mk 1000 false true false).
    split; [right; left; reflexivity|reflexivity].
  - apply (proj1 (proj2 (totalPacketsBeforeJointTermination_cutoff 2
                           JointTermination.s4_trace eq_refl))).
    reflexivity.
Defined.

(** ** Modified Julian Dates *)

Lemma check_all_true :
  forall_range MJD.check_year (Z.to_nat 139) 0 = true.
Proof. vm_compute. reflexivity. Qed.

Lemma days_in_month_le y m : MJD.days_in_month y m <= 31.
Proof.
  unfold MJD.days_in_month.
  destruct (m =? 2); [destruct (MJD.is_leap y); lia|].
  destruct ((m =? 4) || (m =? 6) || (m =? 9) || (m =? 11)); lia.
Qed.

(** Every date from 1900-03-01 to 2038-04-22 has a day count of 16 bits
    that decodes to it. *)
Lemma date_roundtrip_ok y m d :
  MJD.valid_date y m d = true ->
  MJD.date_accepted y m = true ->
  MJD.date_fits y m d = true ->
  MJD.date_roundtrip y m d = true.
Proof.
  intros Hvalid Hacc Hfit.
  assert (Hy : 0 <= y - 1900 < 139).
  { unfold MJD.date_accepted in Hacc. unfold MJD.date_fits in Hfit.
    apply negb_true_iff, orb_false_iff in Hacc. destruct Hacc as [Hacc _].
    apply Z.ltb_ge in Hacc.
    apply orb_true_iff in Hfit. destruct Hfit as [Hfit|Hfit].
    - apply Z.ltb_lt in Hfit. lia.
    - apply andb_true_iff in Hfit. destruct Hfit as [Hfit _].
      apply Z.eqb_eq in Hfit. lia. }
  assert (Hmd : 0 <= m < 13 /\ 0 <= d < 32).
  { unfold MJD.valid_date in Hvalid.
    repeat (apply andb_true_iff in Hvalid; destruct Hvalid as [Hvalid ?]).
    pose proof (days_in_month_le y m). lia. }
  destruct Hmd as [Hm Hd].
  pose proof (range_check MJD.check_year 139 check_all_true (y - 1900) Hy) as H1.
  unfold MJD.check_year in H1.
  replace (1900 + (y - 1900)) with y in H1 by lia.
  pose proof (range_check (MJD.check_month y) 13 H1 m Hm) as H2.
  pose proof (range_check (MJD.check_day y m) 32 H2 d Hd) as H3.
  unfold MJD.check_day in H3. rewrite Hvalid, Hacc, Hfit in H3. exact H3.
Qed.

Lemma bcd_roundtrip v :
  0 <= v < 60 ->
  MJD.IsValidBCD (MJD.EncodeBCD v) = true
  /\ MJD.DecodeBCD (MJD.EncodeBCD v) = v.
Proof.
  intros Hv.
  assert (H : (MJD.IsValidBCD (MJD.EncodeBCD v)
               && (MJD.DecodeBCD (MJD.EncodeBCD v) =? v)) = true).
  { apply (range_check
             (fun v => MJD.IsValidBCD (MJD.EncodeBCD v)
                       && (MJD.DecodeBCD (MJD.EncodeBCD v) =? v)) 60);
      [vm_compute; reflexivity|exact Hv]. }
  apply andb_true_iff in H. destruct H as [H1 H2].
  split; [exact H1|now apply Z.eqb_eq].
Qed.

Lemma GetUInt16_PutUInt16 v rest :
  0 <= v < 65536 -> GetUInt16 (PutUInt16 v ++ rest) = v.
Proof.
  intros Hv. rewrite PutUInt16_app, GetUInt16_cons. apply Z.eqb_eq.
  apply (range_check
           (fun v => Z.lor (Z.shiftl (uint8 (Z.shiftr (uint16 v) 8)) 8)
                           (uint8 (uint16 v)) =? v) 65536);
    [vm_compute; reflexivity|exact Hv].
Qed.

(** Decoding a day count followed by BCD bytes. *)
Lemma DecodeMJD_image mjd bcd :
  0 <= mjd < 65536 ->
  MJD.accepted_size (2 + len bcd) = true ->
  forallb MJD.IsValidBCD bcd = true ->
  MJD.DecodeMJD (PutUInt16 mjd ++ bcd)
  = let '(y, m, d) := MJD.decode_date mjd in
    Some (MJD.mkTime y m d (MJD.DecodeBCD (nth 0 bcd 0))
                     (MJD.DecodeBCD (nth 1 bcd 0))
                     (MJD.DecodeBCD (nth 2 bcd 0))).
Proof.
  intros Hmjd Hsize Hbcd. unfold MJD.DecodeMJD.
  rewrite len_app. change (len (PutUInt16 mjd)) with 2.
  rewrite Hsize. cbn [negb].
  rewrite GetUInt16_PutUInt16 by exact Hmjd.
  change (skipn 2 (PutUInt16 mjd ++ bcd)) with bcd.
  rewrite Hbcd. reflexivity.
Qed.

(** Counterexample to C6 as stated.  With size 4 the seconds have no byte:
    12:45:30 is accepted by [EncodeMJD] and decodes to 12:45:00.  With a
    date after 2038-04-22 the day count does not fit in its two bytes:
    2038-04-23 is accepted and decodes to another date. *)
Lemma MJD_roundtrip_fails :
  (MJD.valid_time MJD.time_with_seconds = true
   /\ MJD.EncodeMJD MJD.time_with_seconds 4 = Some [0xC0; 0x79; 0x12; 0x45]
   /\ MJD.DecodeMJD [0xC0; 0x79; 0x12; 0x45]
      = Some (MJD.mkTime 1993 10 13 12 45 0)
   /\ MJD.mkTime 1993 10 13 12 45 0 <> MJD.time_with_seconds)
  /\ (MJD.valid_time MJD.time_after_2038 = true
      /\ MJD.EncodeMJD MJD.time_after_2038 5 = Some [0; 0; 0; 0; 0]
      /\ MJD.DecodeMJD [0; 0; 0; 0; 0]
         = Some (MJD.mkTime 1858 11 18 0 0 0)
      /\ MJD.mkTime 1858 11 18 0 0 0 <> MJD.time_after_2038).
Proof.
  repeat split; try (vm_compute; reflexivity); discriminate.
Qed.

(** C6 (amended).  For every UTC time [t] of whole seconds whose date is
    from 1900-03-01 to 2038-04-22, and every size in {2,4,5}, with a zero
    time of day when the size is 2 and zero seconds when the size is 4:
    [EncodeMJD] succeeds and gives [size] bytes, and [DecodeMJD] of these
    bytes returns [t]. *)
Theorem MJD_roundtrip (t : MJD.Time) (size : Z) :
  MJD.valid_time t = true ->
  MJD.before_1900_03_01 t = false ->
  MJD.date_fits (MJD.year t) (MJD.month t) (MJD.day t) = true ->
  MJD.accepted_size size = true ->
  (size = 2 -> MJD.zero_time_of_day t = true) ->
  (size = 4 -> MJD.second t = 0) ->
  exists bytes,
    MJD.EncodeMJD t size = Some bytes
    /\ len bytes = size
    /\ MJD.DecodeMJD bytes = Some t.
Proof.
  intros Hvalid Hbefore Hfit Hsize Htod Hsec.
  destruct t as [y m d hh mm ss]. simpl in Hbefore, Hfit, Htod, Hsec.
  unfold MJD.valid_time in Hvalid. cbn [MJD.year MJD.month MJD.day MJD.hour
    MJD.minute MJD.second] in Hvalid.
  do 6 (apply andb_true_iff in Hvalid; destruct Hvalid as [Hvalid ?]).
  assert (Hh : 0 <= hh < 24) by lia.
  assert (Hm : 0 <= mm < 60) by lia.
  assert (Hs : 0 <= ss < 60) by lia.
  assert (Hdate : MJD.date_roundtrip y m d = true).
  { apply date_roundtrip_ok; [exact Hvalid| |exact Hfit].
    unfold MJD.date_accepted. unfold MJD.before_1900_03_01 in Hbefore.
    simpl in Hbefore. now rewrite Hbefore. }
  unfold MJD.date_roundtrip in Hdate.
  apply andb_true_iff in Hdate. destruct Hdate as [Hrange Hdate].
  apply andb_true_iff in Hrange.
  assert (Hmjd : 0 <= MJD.encode_date y m d < 65536) by lia.
  destruct (MJD.decode_date (MJD.encode_date y m d)) as [[y' m'] d'] eqn:Hdec.
  repeat (apply andb_true_iff in Hdate; destruct Hdate as [Hdate ?]).
  assert (Heq : y' = y /\ m' = m /\ d' = d) by lia.
  destruct Heq as [? [? ?]]; subst y' m' d'.
  destruct (bcd_roundtrip hh ltac:(lia)) as [Hvh Hdh].
  destruct (bcd_roundtrip mm Hm) as [Hvm Hdm].
  destruct (bcd_roundtrip ss Hs) as [Hvs Hds].
  unfold MJD.EncodeMJD. rewrite Hsize, Hbefore. cbn [negb].
  cbn [MJD.year MJD.month MJD.day MJD.hour MJD.minute MJD.second].
  unfold MJD.accepted_size in Hsize.
  assert (Hcases : size = 2 \/ size = 4 \/ size = 5) by lia.
  destruct Hcases as [-> | [-> | ->]].
  - rewrite (Htod eq_refl). cbn [negb andb Z.eqb].
    unfold MJD.zero_time_of_day in Htod. specialize (Htod eq_refl).
    simpl in Htod.
    repeat (apply andb_true_iff in Htod; destruct Htod as [Htod ?]).
    assert (Heq : hh = 0 /\ mm = 0 /\ ss = 0) by lia.
    destruct Heq as [? [? ?]]; subst hh mm ss.
    exists (PutUInt16 (MJD.encode_date y m d) ++ []).
    split; [reflexivity|]. split; [reflexivity|].
    rewrite DecodeMJD_image by (assumption || reflexivity).
    rewrite Hdec. reflexivity.
  - rewrite (Hsec eq_refl) in *.
    replace ((4 =? 2) && negb (MJD.zero_time_of_day (MJD.mkTime y m d hh mm 0)))
      with false by reflexivity.
    exists (PutUInt16 (MJD.encode_date y m d)
            ++ [MJD.EncodeBCD hh; MJD.EncodeBCD mm]).
    split; [reflexivity|]. split; [reflexivity|].
    rewrite DecodeMJD_image;
      [|assumption|reflexivity|cbn [forallb]; now rewrite Hvh, Hvm].
    rewrite Hdec. cbn [nth]. rewrite Hdh, Hdm. reflexivity.
  - replace ((5 =? 2) && negb (MJD.zero_time_of_day (MJD.mkTime y m d hh mm ss)))
      with false by reflexivity.
    exists (PutUInt16 (MJD.encode_date y m d)
            ++ [MJD.EncodeBCD hh; MJD.EncodeBCD mm; MJD.EncodeBCD ss]).
    split; [reflexivity|]. split; [reflexivity|].
    rewrite DecodeMJD_image;
      [|assumption|reflexivity|cbn [forallb]; now rewrite Hvh, Hvm, Hvs].
    rewrite Hdec. cbn [nth]. rewrite Hdh, Hdm, Hds. reflexivity.
Qed.

(** Scenario S3, as an instance of the theorem: 1993-10-13 12:45:00 on
    5 bytes. *)
Lemma MJD_roundtrip_witness :
  exists bytes,
    MJD.EncodeMJD MJD.s3_time 5 = Some bytes
    /\ len bytes = 5
    /\ MJD.DecodeMJD bytes = Some MJD.s3_time.
Proof.
  apply (MJD_roundtrip MJD.s3_time 5).
  - reflexivity.
  - reflexivity.
  - reflexivity.
  - reflexivity.
  - intros H. discriminate H.
  - intros H. discriminate H.
Defined.

(* ------------------------------------------------------------------------- *)
(** * Part III: further properties of the code                                *)
(* ------------------------------------------------------------------------- *)

(** ** [PMT::serialize]: shape of the result *)

(** The descriptors copied take what the space left loses. *)
Lemma Desc_serialize_space dl : forall index remain,
  0 <= remain ->
  len (fst (fst (Desc.serialize dl index remain)))
  + snd (fst (Desc.serialize dl index remain)) = remain
  /\ 0 <= snd (fst (Desc.serialize dl index remain)).
Proof.
  induction dl as [|d dl IH]; intros index remain Hr.
  - simpl. split; [reflexivity|exact Hr].
  - cbn [Desc.serialize].
    destruct (Z.leb_spec (Desc.size d) remain) as [Hfit|Hno].
    + specialize (IH (S index) (remain - Desc.size d) ltac:(lia)).
      destruct (Desc.serialize dl (S index) (remain - Desc.size d))
        as [[bytes remain'] next].
      cbn [fst snd] in *. rewrite len_app.
      unfold Desc.content, Desc.size in *. rewrite !len_cons. lia.
    + cbn [fst snd]. split; [reflexivity|exact Hr].
Qed.

Lemma Desc_lengthSerialize_space dl remain :
  2 <= remain ->
  len (fst (fst (Desc.lengthSerialize dl remain)))
  + snd (fst (Desc.lengthSerialize dl remain)) = remain
  /\ 0 <= snd (fst (Desc.lengthSerialize dl remain)).
Proof.
  intros Hr. unfold Desc.lengthSerialize.
  pose proof (Desc_serialize_space dl 0 (remain - 2) ltac:(lia)) as H.
  destruct (Desc.serialize dl 0 (remain - 2)) as [[bytes remain'] next].
  cbn [fst snd] in *. rewrite len_app.
  change (len (PutUInt16 (Z.lor (len bytes) 61440))) with 2. lia.
Qed.

Lemma Desc_lengthSerialize_prefix dl remain bytes remain' next :
  Desc.lengthSerialize dl remain = (bytes, remain', next) -> 2 <= len bytes.
Proof.
  unfold Desc.lengthSerialize.
  destruct (Desc.serialize dl 0 (remain - 2)) as [[b r] n].
  intros H. injection H as <- _ _.
  unfold PutUInt16. cbn [app]. rewrite !len_cons.
  pose proof (len_nonneg b). lia.
Qed.

Lemma serialize_streams_space m : forall remain bytes remain',
  0 <= remain ->
  PMT.serialize_streams m remain = Some (bytes, remain') ->
  len bytes + remain' = remain /\ 0 <= remain'.
Proof.
  induction m as [|[pid s] m IH]; intros remain bytes remain' Hr Hs.
  - simpl in Hs. injection Hs as <- <-. split; [reflexivity|exact Hr].
  - cbn [PMT.serialize_streams] in Hs.
    destruct (Z.leb_spec 5 remain) as [H5|H5].
    + destruct (Z.ltb_spec remain 5); [lia|].
      pose proof (Desc_lengthSerialize_space (PMT.Stream.descs s) (remain - 3)
                    ltac:(lia)) as Hd.
      destruct (Desc.lengthSerialize (PMT.Stream.descs s) (remain - 3))
        as [[dbytes r1] next].
      cbn [fst snd] in Hd.
      destruct (negb (next =? Desc.count (PMT.Stream.descs s))%nat);
        [discriminate|].
      destruct (PMT.serialize_streams m r1) as [[rest r2]|] eqn:Hrest;
        [|discriminate].
      injection Hs as <- <-.
      destruct (IH r1 rest r2 ltac:(lia) Hrest) as [H1 H2].
      split; [|exact H2].
      unfold PutUInt16. cbn [app].
      repeat (rewrite len_cons || rewrite len_app). lia.
    + injection Hs as <- <-. split; [reflexivity|exact Hr].
Qed.

(** X1.  Whatever the PMT, [serialize] leaves either the cleared table or a
    valid table of table id TID_PMT with exactly one section, numbered 0
    of 0, that carries the service id, the version and the current flag
    of the object; the payload of this section has at least its 4 fixed
    bytes and never more than MAX_PSI_LONG_SECTION_PAYLOAD_SIZE bytes, the
    size of the buffer it is built in. *)
Theorem serialize_shape (p : PMT.t) :
  PMT.serialize p = Table.clear
  \/ exists payload,
       PMT.serialize p
       = mkBinaryTable true TID_PMT
           [mkSection TID_PMT false (PMT.service_id p) (PMT.version p)
                      (PMT.is_current p) 0 0 payload]
       /\ 4 <= len payload <= MAX_PSI_LONG_SECTION_PAYLOAD_SIZE
       /\ PMT._is_valid p = true.
Proof.
  unfold PMT.serialize.
  destruct (PMT._is_valid p) eqn:Hvalid; [|left; reflexivity].
  cbn [negb].
  pose proof MAX_PSI_LONG_SECTION_PAYLOAD_SIZE_bounds as Hmax.
  pose proof (Desc_lengthSerialize_space (PMT.descs p)
                (MAX_PSI_LONG_SECTION_PAYLOAD_SIZE - 2) ltac:(lia)) as Hd.
  destruct (Desc.lengthSerialize (PMT.descs p)
              (MAX_PSI_LONG_SECTION_PAYLOAD_SIZE - 2)) as [[dbytes r1] next]
    eqn:Hdl.
  cbn [fst snd] in Hd.
  destruct (PMT.serialize_streams (PMT.streams p) r1) as [[sbytes r2]|] eqn:Hs;
    [|left; reflexivity].
  destruct (serialize_streams_space (PMT.streams p) r1 sbytes r2 ltac:(lia) Hs)
    as [H1 H2].
  right. eexists. split; [reflexivity|]. split; [|reflexivity].
  unfold PutUInt16. cbn [app].
  repeat (rewrite len_cons || rewrite len_app).
  pose proof (len_nonneg sbytes). pose proof (len_nonneg dbytes).
  assert (Hd2 : 2 <= len dbytes) by exact (Desc_lengthSerialize_prefix _ _ _ _ _ Hdl).
  lia.
Qed.

(** ** [PMT::serialize]: stream descriptors that do not fit *)

Lemma Desc_serialize_stops dl : forall index remain,
  0 <= remain ->
  remain < PMT.descs_size dl ->
  (snd (Desc.serialize dl index remain) < index + length dl)%nat.
Proof.
  induction dl as [|d dl IH]; intros index remain Hr Hbig.
  - simpl in Hbig. lia.
  - rewrite descs_size_cons in Hbig. cbn [Desc.serialize].
    destruct (Z.leb_spec (Desc.size d) remain) as [Hfit|Hno].
    + specialize (IH (S index) (remain - Desc.size d) ltac:(lia) ltac:(lia)).
      destruct (Desc.serialize dl (S index) (remain - Desc.size d))
        as [[bytes remain'] next].
      cbn [fst snd length] in *. lia.
    + cbn [snd length]. lia.
Qed.

Lemma Desc_lengthSerialize_stops dl remain :
  2 <= remain ->
  remain < 2 + PMT.descs_size dl ->
  (snd (Desc.lengthSerialize dl remain) =? Desc.count dl)%nat = false.
Proof.
  intros Hr Hbig. unfold Desc.lengthSerialize, Desc.count.
  pose proof (Desc_serialize_stops dl 0 (remain - 2) ltac:(lia) ltac:(lia)) as H.
  destruct (Desc.serialize dl 0 (remain - 2)) as [[bytes remain'] next].
  cbn [snd] in *. apply Nat.eqb_neq. lia.
Qed.

(** The streams that fit are written, then the loop goes on with the
    others. *)
Lemma serialize_streams_none pre : forall rest remain,
  PMT.streams_size pre <= remain ->
  PMT.serialize_streams rest (remain - PMT.streams_size pre) = None ->
  PMT.serialize_streams (pre ++ rest) remain = None.
Proof.
  induction pre as [|[pid s] pre IH]; intros rest remain Hfit Hnone.
  - simpl in *. now rewrite Z.sub_0_r in Hnone.
  - rewrite streams_size_cons in Hfit, Hnone. cbn [snd] in Hfit, Hnone.
    pose proof (streams_size_nonneg pre).
    pose proof (descs_size_nonneg (PMT.Stream.descs s)).
    cbn [app PMT.serialize_streams].
    destruct (Z.leb_spec 5 remain); [|lia].
    destruct (Z.ltb_spec remain 5); [lia|].
    rewrite Desc_lengthSerialize_fits by lia.
    unfold Desc.count. rewrite Nat.eqb_refl. cbn [negb].
    rewrite IH; [reflexivity|lia|].
    replace (remain - 3 - (2 + PMT.descs_size (PMT.Stream.descs s))
             - PMT.streams_size pre)
      with (remain - (5 + PMT.descs_size (PMT.Stream.descs s)
                      + PMT.streams_size pre)) by lia.
    exact Hnone.
Qed.

(** X2.  When the program descriptors and the streams before some stream
    fit, and this stream has room for its 5 fixed bytes but not for all its
    descriptors, [serialize] leaves the cleared, invalid table: here the
    overflow is detected. *)
Theorem serialize_stream_descriptors_overflow
  (p : PMT.t) (pre post : PMT.StreamMap) (pid : Z) (s : PMT.Stream.t) :
  PMT._is_valid p = true ->
  PMT.streams p = pre ++ (pid, s) :: post ->
  2 + (2 + PMT.descs_size (PMT.descs p)) + PMT.streams_size pre + 5
  <= MAX_PSI_LONG_SECTION_PAYLOAD_SIZE ->
  MAX_PSI_LONG_SECTION_PAYLOAD_SIZE
  < 2 + (2 + PMT.descs_size (PMT.descs p)) + PMT.streams_size pre + 5
    + PMT.descs_size (PMT.Stream.descs s) ->
  PMT.serialize p = Table.clear.
Proof.
  intros Hvalid Hstreams Hhead Hbig.
  pose proof (descs_size_nonneg (PMT.descs p)).
  pose proof (streams_size_nonneg pre).
  unfold PMT.serialize. rewrite Hvalid, Hstreams. cbn [negb].
  rewrite Desc_lengthSerialize_fits by lia.
  rewrite serialize_streams_none; [reflexivity|lia|].
  cbn [PMT.serialize_streams].
  match goal with |- context [5 <=? ?r] => destruct (Z.leb_spec 5 r); [|lia] end.
  match goal with |- context [?r <? 5] => destruct (Z.ltb_spec r 5); [lia|] end.
  match goal with
  | |- context [Desc.lengthSerialize ?dl ?r] =>
      pose proof (Desc_lengthSerialize_stops dl r ltac:(lia) ltac:(lia)) as Hstop;
      destruct (Desc.lengthSerialize dl r) as [[bytes remain'] next]
  end.
  cbn [snd] in Hstop. rewrite Hstop. reflexivity.
Qed.

Lemma serialize_stream_descriptors_overflow_witness :
  PMT.serialize PMTBytes.pmt_stream_overflow = Table.clear.
Proof.
  apply (serialize_stream_descriptors_overflow PMTBytes.pmt_stream_overflow
           [] [] 0x0100
           (PMT.Stream.mk 0x1B
              (map (fun k => mkDescriptor 0x80 (repeat k 255)) [1; 2; 3; 4; 5]))).
  - reflexivity.
  - reflexivity.
  - vm_compute. discriminate.
  - vm_compute. reflexivity.
Defined.

(** ** [PMT::deserialize]: trailing bytes and several sections *)

(** The body of the loop on sections, on the payload of [p] followed by
    fewer than five bytes, from any state of the object: the program
    descriptors are appended, the stream entries are merged. *)
Lemma deserialize_section_accumulates self sect p tail :
  sec_payload sect = PMT.payload_image p ++ tail ->
  PMT.is_pid (PMT.pcr_pid p) ->
  Forall (fun e => PMT.is_pid (fst e)) (PMT.streams p) ->
  PMTBytes.lengths_fit p ->
  len tail < 5 ->
  PMT.deserialize_section self sect
  = inr (PMT.mk (PMT._is_valid self) (sec_version sect) (sec_is_current sect)
                (sec_tid_ext sect) (PMT.pcr_pid p)
                (PMT.descs self ++ PMT.descs p)
                (PMT.merge_all (PMT.streams p) (PMT.streams self))).
Proof.
  intros Hpay Hpcr Hpids [Hlen Hlens] Htail.
  pose proof (descs_size_nonneg (PMT.descs p)) as Hdnn.
  unfold PMT.deserialize_section. rewrite Hpay.
  cbn [PMT._is_valid PMT.version PMT.is_current PMT.service_id PMT.pcr_pid
       PMT.descs PMT.streams].
  unfold PMT.payload_image.
  set (dbytes := PMT.descs_bytes (PMT.descs p)).
  set (sbytes := concat (map PMT.stream_entry (PMT.streams p))).
  set (rest := PutUInt16 (Z.lor (len dbytes) 0xF000)
               ++ dbytes ++ sbytes ++ tail).
  assert (Hshape : (PutUInt16 (Z.lor (PMT.pcr_pid p) 0xE000)
                    ++ (PutUInt16 (Z.lor (len dbytes) 0xF000) ++ dbytes)
                    ++ sbytes) ++ tail
                   = PutUInt16 (Z.lor (PMT.pcr_pid p) 0xE000) ++ rest).
  { unfold rest. now rewrite <- !app_assoc. }
  rewrite Hshape.
  assert (Hdb : len dbytes = PMT.descs_size (PMT.descs p))
    by apply len_descs_bytes.
  pose proof (len_nonneg sbytes) as Hsb. pose proof (len_nonneg tail) as Htl.
  assert (Hlen1 : len rest = 2 + (len dbytes + (len sbytes + len tail)))
    by (unfold rest; rewrite !len_app; reflexivity).
  change (skipn 2 (PutUInt16 (Z.lor (PMT.pcr_pid p) 0xE000) ++ rest)) with rest.
  rewrite len_app. change (len (PutUInt16 (Z.lor (PMT.pcr_pid p) 0xE000))) with 2.
  destruct (Z.ltb_spec (2 + len rest) 2); [lia|].
  rewrite pid_field_roundtrip by exact Hpcr.
  destruct (Z.ltb_spec (len rest) 2); [lia|].
  assert (Hinfo : Z.land (GetUInt16 rest) 0x0FFF = len dbytes)
    by (apply length_field_roundtrip; lia).
  rewrite !Hinfo.
  change (skipn 2 rest) with (dbytes ++ sbytes ++ tail).
  rewrite len_app, len_app. rewrite Z.min_l by lia.
  rewrite firstn_len_app, !skipn_len_app.
  unfold dbytes. rewrite Desc_add_image.
  unfold sbytes. rewrite streams_loop_image; try assumption; [reflexivity|lia].
Qed.

(** X3.  The bytes that follow the last stream entry of a section, when
    they are fewer than five, are ignored, and the payload of a PMT is
    parsed back whatever its size: for every valid PMT with values of its
    types and descriptor loops that fit their 12-bit length fields,
    [deserialize] gives the PMT back from the one-section table whose
    payload is the image of the PMT followed by such bytes. *)
Theorem deserialize_ignores_trailing_bytes
  (self p : PMT.t) (tail : list Z) :
  PMT._is_valid p = true ->
  PMT.wf p ->
  PMTBytes.lengths_fit p ->
  len tail < 5 ->
  PMT.deserialize self
    (mkBinaryTable true TID_PMT [PMTBytes.section_with_tail p tail])
  = p.
Proof.
  intros Hvalid [Hpcr Hds Hst Hasc] Hfit Htail.
  unfold PMT.deserialize.
  cbn [Table.isValid Table.tableId bt_is_valid bt_tid bt_sections].
  rewrite Z.eqb_refl. cbn [negb orb PMT.sections_loop].
  rewrite (deserialize_section_accumulates _ _ p tail);
    try assumption; try reflexivity.
  - cbn [PMT.sections_loop PMT._is_valid PMT.version PMT.is_current
         PMT.service_id PMT.pcr_pid PMT.descs PMT.streams
         PMTBytes.section_with_tail sec_version sec_is_current sec_tid_ext app].
    rewrite merge_all_ascending; [|exact Hasc|].
    + destruct p; simpl in Hvalid; subst; reflexivity.
    + rewrite Forall_forall. intros; constructor.
  - eapply Forall_impl; [|exact Hst]. intros e He. apply He.
Qed.

Lemma deserialize_ignores_trailing_bytes_witness :
  PMT.deserialize (PMT.new 0 false 0 0)
    (mkBinaryTable true TID_PMT
       [PMTBytes.section_with_tail PMTBytes.pmt_long_descriptors
          [0xFF; 0xFF; 0xFF; 0xFF]])
  = PMTBytes.pmt_long_descriptors.
Proof.
  apply (deserialize_ignores_trailing_bytes (PMT.new 0 false 0 0)
           PMTBytes.pmt_long_descriptors [0xFF; 0xFF; 0xFF; 0xFF]).
  - reflexivity.
  - wf_auto.
  - split; [vm_compute; reflexivity|].
    apply Forall_cons; [vm_compute; reflexivity|apply Forall_nil].
  - reflexivity.
Defined.



(** X6.  On a valid table of table id TID_PMT that has a section, the
    result of [deserialize] does not depend on the object it is called on:
    nothing of its previous content is left, not even in the early
    returns. *)
Theorem deserialize_forgets (self self' : PMT.t) (table : BinaryTable) :
  Table.isValid table = true ->
  Table.tableId table = TID_PMT ->
  bt_sections table <> [] ->
  PMT.deserialize self table = PMT.deserialize self' table.
Proof.
  intros Hvalid Htid Hsect. unfold PMT.deserialize.
  rewrite Hvalid, Htid, Z.eqb_refl. cbn [negb orb].
  destruct (bt_sections table) as [|sect rest]; [contradiction|].
  reflexivity.
Qed.

Lemma deserialize_forgets_witness :
  PMT.deserialize PMT.example PMT.duplicate_pid_table
  = PMT.deserialize (PMT.new 0 false 0 0) PMT.duplicate_pid_table.
Proof.
  apply (deserialize_forgets PMT.example (PMT.new 0 false 0 0)
           PMT.duplicate_pid_table).
  - reflexivity.
  - reflexivity.
  - discriminate.
Defined.

(** ** [PMT::deserialize]: what the object holds afterwards *)

Lemma land_is_pid x : PMT.is_pid (Z.land x 0x1FFF).
Proof.
  unfold PMT.is_pid. change 0x1FFF with (Z.ones 13).
  rewrite Z.land_ones by lia. apply Z.mod_pos_bound. lia.
Qed.

Lemma Forall_firstn_bytes {A} (P : A -> Prop) n (l : list A) :
  Forall P l -> Forall P (firstn n l).
Proof.
  revert l. induction n as [|n IH]; intros l Hl; [constructor|].
  destruct Hl; simpl; constructor; auto.
Qed.

Lemma Forall_skipn_bytes {A} (P : A -> Prop) n (l : list A) :
  Forall P l -> Forall P (skipn n l).
Proof.
  revert l. induction n as [|n IH]; intros l Hl; [exact Hl|].
  destruct Hl; simpl; [constructor|auto].
Qed.

Lemma nth_is_byte l i : Forall is_byte l -> is_byte (nth i l 0).
Proof.
  intros Hl. destruct (Nat.lt_ge_cases i (length l)) as [Hi|Hi].
  - rewrite Forall_forall in Hl. apply Hl. now apply nth_In.
  - rewrite nth_overflow by exact Hi. unfold is_byte. lia.
Qed.

(** The descriptors parsed from bytes have a byte of tag and at most 255
    bytes of payload. *)
Lemma Desc_add_loop_wf fuel : forall data dl,
  Forall is_byte data ->
  Forall PMT.wf_descriptor dl ->
  Forall PMT.wf_descriptor (Desc.add_loop fuel data dl).
Proof.
  induction fuel as [|fuel IH]; intros data dl Hdata Hdl; [exact Hdl|].
  cbn [Desc.add_loop].
  destruct data as [|t [|l rest]]; try exact Hdl.
  destruct (Z.leb_spec (l + 2) (len (t :: l :: rest))) as [Hfit|Hno];
    [|exact Hdl].
  inversion Hdata as [|? ? Ht Hdata']; subst.
  inversion Hdata' as [|? ? Hl Hrest]; subst.
  apply IH; [now apply Forall_skipn_bytes|].
  apply Forall_app. split; [exact Hdl|].
  constructor; [|constructor].
  split; [exact Ht|]. split; [|now apply Forall_firstn_bytes].
  cbn [payload]. unfold len. rewrite length_firstn.
  unfold is_byte in Hl. lia.
Qed.

Lemma update_wf k f m :
  PMT.is_pid k ->
  (forall s, PMT.wf_stream s -> PMT.wf_stream (f s)) ->
  Forall PMT.wf_entry m ->
  Forall PMT.wf_entry (PMT.update k f m).
Proof.
  intros Hk Hf Hm.
  assert (Hdefault : PMT.wf_stream PMT.Stream.default)
    by (split; [unfold is_byte; simpl; lia|constructor]).
  induction Hm as [|[k' s] m [Hk' Hs] Hm IH]; simpl.
  - constructor; [split; [exact Hk|exact (Hf _ Hdefault)]|constructor].
  - destruct (k <? k').
    + constructor; [split; [exact Hk|exact (Hf _ Hdefault)]|].
      constructor; [split; assumption|exact Hm].
    + destruct (k =? k').
      * constructor; [split; [exact Hk'|exact (Hf _ Hs)]|exact Hm].
      * constructor; [split; assumption|exact IH].
Qed.

Lemma streams_loop_wf fuel : forall data m,
  Forall is_byte data ->
  Forall PMT.wf_entry m -> PMT.ascending m ->
  Forall PMT.wf_entry (PMT.streams_loop fuel data m)
  /\ PMT.ascending (PMT.streams_loop fuel data m).
Proof.
  induction fuel as [|fuel IH]; intros data m Hdata Hm Hasc; [now split|].
  rewrite streams_loop_S.
  destruct (5 <=? len data); [|now split].
  cbv zeta. apply IH.
  - now apply Forall_skipn_bytes, Forall_skipn_bytes.
  - apply update_wf; [apply land_is_pid| |exact Hm].
    intros s [_ Hs]. split; [now apply nth_is_byte|].
    cbn [PMT.Stream.descs]. unfold Desc.add. apply Desc_add_loop_wf; [|exact Hs].
    now apply Forall_firstn_bytes, Forall_skipn_bytes.
  - now apply update_ascending.
Qed.

Lemma deserialize_section_wf self sect :
  PMT.wf self -> PMTBytes.byte_section sect ->
  match PMT.deserialize_section self sect with
  | inl self' => PMT.wf self'
  | inr self' => PMT.wf self'
  end.
Proof.
  intros [Hpcr Hds Hst Hasc] Hbytes. unfold PMTBytes.byte_section in Hbytes.
  unfold PMT.deserialize_section. cbv zeta.
  cbn [PMT._is_valid PMT.version PMT.is_current PMT.service_id PMT.pcr_pid
       PMT.descs PMT.streams].
  destruct (len (sec_payload sect) <? 2); [now constructor|].
  destruct (len (skipn 2 (sec_payload sect)) <? 2).
  - constructor; cbn; auto. apply land_is_pid.
  - match goal with
    | |- PMT.wf (PMT.mk _ _ _ _ _ _ (PMT.streams_loop ?f ?d ?m)) =>
        destruct (streams_loop_wf f d m) as [H1 H2]; try assumption
    end.
    + now repeat apply Forall_skipn_bytes.
    + constructor; cbn [PMT.pcr_pid PMT.descs PMT.streams]; auto.
      * apply land_is_pid.
      * unfold Desc.add. apply Desc_add_loop_wf; [|exact Hds].
        now apply Forall_firstn_bytes, Forall_skipn_bytes, Forall_skipn_bytes.
Qed.

Lemma sections_loop_wf sections : forall self,
  PMT.wf self -> Forall PMTBytes.byte_section sections ->
  PMT.wf (PMT.sections_loop self sections).
Proof.
  induction sections as [|sect sections IH]; intros self Hself Hall.
  - destruct Hself. simpl. constructor; assumption.
  - inversion Hall as [|? ? Hsect Hrest]; subst.
    cbn [PMT.sections_loop].
    pose proof (deserialize_section_wf self sect Hself Hsect) as H.
    destruct (PMT.deserialize_section self sect); [exact H|now apply IH].
Qed.

(** X5.  Whatever the table and the object, when the payloads of the
    sections are made of bytes, what [deserialize] leaves in the object has
    the values of its types: a 13-bit PCR PID, 13-bit stream PIDs in
    strictly ascending order, stream types that are bytes, and descriptors
    with a byte of tag and at most 255 bytes of payload.  This holds after
    an early return too. *)
Theorem deserialize_wf (self : PMT.t) (table : BinaryTable) :
  Forall PMTBytes.byte_section (bt_sections table) ->
  PMT.wf (PMT.deserialize self table).
Proof.
  intros Hbytes. unfold PMT.deserialize. cbv zeta.
  assert (Hclear : PMT.wf (PMT.mk false (PMT.version self)
                             (PMT.is_current self) 0 PID_NULL [] [])).
  { constructor; cbn [PMT.pcr_pid PMT.descs PMT.streams].
    - unfold PMT.is_pid, PID_NULL. lia.
    - constructor.
    - constructor.
    - constructor. }
  destruct (negb (Table.isValid table)
            || negb (Table.tableId table =? TID_PMT)); [exact Hclear|].
  now apply sections_loop_wf.
Qed.

Lemma deserialize_wf_witness :
  PMT.wf (PMT.deserialize PMT.example PMT.duplicate_pid_table).
Proof.
  apply (deserialize_wf PMT.example PMT.duplicate_pid_table).
  apply Forall_cons; [|apply Forall_nil].
  unfold PMTBytes.byte_section. forall_auto.
Defined.

(** ** The predicates and the order of the descriptors *)

Lemma isAudio_true_iff IsAudioST s :
  PMT.Stream.isAudio IsAudioST s = true
  <-> (IsAudioST (PMT.Stream.stream_type s) = true
       \/ exists d, In d (PMT.Stream.descs s)
                    /\ (tag d = DID_DTS \/ tag d = DID_AC3
                        \/ tag d = DID_ENHANCED_AC3 \/ tag d = DID_AAC)).
Proof.
  unfold PMT.Stream.isAudio.
  rewrite !orb_true_iff, !search_found_In. split.
  - intros [[[[H|[d [Hin Ht]]]|[d [Hin Ht]]]|[d [Hin Ht]]]|[d [Hin Ht]]];
      [left; exact H|right; exists d; auto..].
  - intros [H|[d [Hin [Ht|[Ht|[Ht|Ht]]]]]].
    + left; left; left; left. exact H.
    + left; left; left; right. eauto.
    + left; left; right. eauto.
    + left; right. eauto.
    + right. eauto.
Qed.

Lemma isSubtitles_true_iff s :
  PMT.Stream.isSubtitles s = true
  <-> ((exists d, In d (PMT.Stream.descs s) /\ tag d = DID_SUBTITLING)
       \/ (exists d, In d (PMT.Stream.descs s) /\ tag d = DID_TELETEXT
                     /\ PMT.Stream.subtitle_entry (payload d))).
Proof.
  unfold PMT.Stream.isSubtitles.
  destruct (Desc.search (PMT.Stream.descs s) DID_SUBTITLING 0
            <? Desc.count (PMT.Stream.descs s))%nat eqn:Hsub.
  - split; [|reflexivity]. intros _. left. now apply search_found_In.
  - rewrite teletext_loop_iff by lia. split.
    + intros [j [d [_ [Hd Hrest]]]]. right. exists d. split; [|exact Hrest].
      eapply nth_error_In; exact Hd.
    + intros [Hs|[d [Hin Hrest]]].
      * apply search_found_In in Hs. congruence.
      * apply In_nth_error in Hin. destruct Hin as [j Hj].
        exists j, d. split; [lia|]. split; assumption.
Qed.

Lemma bool_eq_of_iff (a b : bool) : (a = true <-> b = true) -> a = b.
Proof.
  destruct a, b; intros [H1 H2]; try reflexivity.
  - symmetry. now apply H1.
  - now apply H2.
Qed.

(** X7.  The three predicates do not depend on the order of the
    descriptors of the stream: two streams of the same type whose
    descriptor lists are permutations of each other are classified
    alike. *)
Theorem predicates_ignore_descriptor_order
  (IsVideoST IsAudioST : Z -> bool) (s s' : PMT.Stream.t) :
  PMT.Stream.stream_type s = PMT.Stream.stream_type s' ->
  Permutation (PMT.Stream.descs s) (PMT.Stream.descs s') ->
  PMT.Stream.isVideo IsVideoST s = PMT.Stream.isVideo IsVideoST s'
  /\ PMT.Stream.isAudio IsAudioST s = PMT.Stream.isAudio IsAudioST s'
  /\ PMT.Stream.isSubtitles s = PMT.Stream.isSubtitles s'.
Proof.
  intros Htype Hperm.
  assert (Hin : forall d, In d (PMT.Stream.descs s)
                          <-> In d (PMT.Stream.descs s')).
  { intros d. split; apply Permutation_in;
      [exact Hperm|apply Permutation_sym; exact Hperm]. }
  split; [unfold PMT.Stream.isVideo; now rewrite Htype|]. split.
  - apply bool_eq_of_iff. rewrite !isAudio_true_iff, Htype.
    split; (intros [H|[d [Hd Ht]]]; [left; exact H|right; exists d]);
      (split; [now apply Hin|exact Ht]).
  - apply bool_eq_of_iff. rewrite !isSubtitles_true_iff.
    split; (intros [[d [Hd Ht]]|[d [Hd Ht]]]; [left|right]; exists d);
      (split; [now apply Hin|exact Ht]).
Qed.

Lemma predicates_ignore_descriptor_order_witness :
  PMT.Stream.isVideo (fun t => t =? 0x1B)
    (PMT.Stream.mk 0x06 [mkDescriptor 0x6A []; mkDescriptor 0x59 [1]])
  = PMT.Stream.isVideo (fun t => t =? 0x1B)
      (PMT.Stream.mk 0x06 [mkDescriptor 0x59 [1]; mkDescriptor 0x6A []])
  /\ PMT.Stream.isAudio (fun t => t =? 0x03)
       (PMT.Stream.mk 0x06 [mkDescriptor 0x6A []; mkDescriptor 0x59 [1]])
     = PMT.Stream.isAudio (fun t => t =? 0x03)
         (PMT.Stream.mk 0x06 [mkDescriptor 0x59 [1]; mkDescriptor 0x6A []])
  /\ PMT.Stream.isSubtitles
       (PMT.Stream.mk 0x06 [mkDescriptor 0x6A []; mkDescriptor 0x59 [1]])
     = PMT.Stream.isSubtitles
         (PMT.Stream.mk 0x06 [mkDescriptor 0x59 [1]; mkDescriptor 0x6A []]).
Proof.
  apply (predicates_ignore_descriptor_order
           (fun t => t =? 0x1B) (fun t => t =? 0x03)
           (PMT.Stream.mk 0x06 [mkDescriptor 0x6A []; mkDescriptor 0x59 [1]])
           (PMT.Stream.mk 0x06 [mkDescriptor 0x59 [1]; mkDescriptor 0x6A []])).
  - reflexivity.
  - apply perm_swap.
Defined.

(** ** [ForkPipe::open] and [ForkPipe::close] *)

Ltac open_cases self a :=
  destruct self as [[m0 o0 s0 i0 b0] h0 p0 f0];
  destruct a as [pipe_ok0 process_ok0 pid0 dup0 dup1 exec0 wait0];
  unfold ForkPipeOpen.open, ForkPipeOpen.open_windows,
    ForkPipeOpen.open_unix;
  cbn [ForkPipeOpen.base ForkPipeOpen._handle ForkPipeOpen._process
       ForkPipeOpen._fpid ForkPipe._in_mode ForkPipe._is_open
       ForkPipe._synchronous ForkPipe._ignore_abort ForkPipe._broken_pipe
       ForkPipeOpen.pipe_ok ForkPipeOpen.process_ok ForkPipeOpen.fork_pid].

(** X8.  When [open] returns false, on either platform: every handle that
    the call has made is closed again (both end-points of the pipe, when
    the creation of the process fails after that of the pipe), an error
    is reported, and the object is as open as it was: an open object is
    not touched and no call to the system is made. *)
Theorem open_failure_is_clean
  (pf : ForkPipe.Platform) (self : ForkPipeOpen.t) (synchronous : bool)
  (out_mode : ForkPipeOpen.OutputMode) (in_mode : ForkPipe.InputMode)
  (a : ForkPipeOpen.Answers) :
  ForkPipeOpen.status
    (ForkPipeOpen.open pf self synchronous out_mode in_mode a)
  = ForkPipeOpen.Returned false ->
  ForkPipeOpen.live
    (ForkPipeOpen.calls
       (ForkPipeOpen.open pf self synchronous out_mode in_mode a)) [] = []
  /\ existsb ForkPipeOpen.is_error
       (ForkPipeOpen.reports
          (ForkPipeOpen.open pf self synchronous out_mode in_mode a)) = true
  /\ ForkPipe._is_open
       (ForkPipeOpen.base
          (ForkPipeOpen.object
             (ForkPipeOpen.open pf self synchronous out_mode in_mode a)))
     = ForkPipe._is_open (ForkPipeOpen.base self)
  /\ (ForkPipe._is_open (ForkPipeOpen.base self) = true ->
      ForkPipeOpen.open pf self synchronous out_mode in_mode a
      = ForkPipeOpen.mkOutcome (ForkPipeOpen.Returned false) self
          [ForkPipeOpen.Error_pipe_is_already_open] []).
Proof.
  open_cases self a.
  destruct o0; [intros _; repeat split; reflexivity|].
  destruct pf, in_mode, pipe_ok0; cbn;
    try (intros _; repeat split; (reflexivity || discriminate)).
  all: try (destruct process_ok0, synchronous, out_mode; cbn;
            intros H; try discriminate H;
            repeat split; (reflexivity || discriminate)).
  all: destruct (pid0 <? 0), (pid0 =? 0); cbn; intros H; try discriminate H;
    repeat split; (reflexivity || discriminate).
Qed.

Lemma open_failure_is_clean_witness :
  ForkPipeOpen.live
    (ForkPipeOpen.calls
       (ForkPipeOpen.open ForkPipe.Windows ForkPipeOpen.new true
          ForkPipeOpen.KEEP_BOTH ForkPipe.USE_PIPE
          (ForkPipeOpen.mkAnswers true false 0 0 0 false true))) [] = []
  /\ existsb ForkPipeOpen.is_error
       (ForkPipeOpen.reports
          (ForkPipeOpen.open ForkPipe.Windows ForkPipeOpen.new true
             ForkPipeOpen.KEEP_BOTH ForkPipe.USE_PIPE
             (ForkPipeOpen.mkAnswers true false 0 0 0 false true))) = true
  /\ ForkPipe._is_open
       (ForkPipeOpen.base
          (ForkPipeOpen.object
             (ForkPipeOpen.open ForkPipe.Windows ForkPipeOpen.new true
                ForkPipeOpen.KEEP_BOTH ForkPipe.USE_PIPE
                (ForkPipeOpen.mkAnswers true false 0 0 0 false true))))
     = ForkPipe._is_open (ForkPipeOpen.base ForkPipeOpen.new)
  /\ (ForkPipe._is_open (ForkPipeOpen.base ForkPipeOpen.new) = true ->
      ForkPipeOpen.open ForkPipe.Windows ForkPipeOpen.new true
        ForkPipeOpen.KEEP_BOTH ForkPipe.USE_PIPE
        (ForkPipeOpen.mkAnswers true false 0 0 0 false true)
      = ForkPipeOpen.mkOutcome (ForkPipeOpen.Returned false) ForkPipeOpen.new
          [ForkPipeOpen.Error_pipe_is_already_open] []).
Proof.
  apply (open_failure_is_clean ForkPipe.Windows ForkPipeOpen.new true
           ForkPipeOpen.KEEP_BOTH ForkPipe.USE_PIPE
           (ForkPipeOpen.mkAnswers true false 0 0 0 false true)).
  reflexivity.
Defined.

(** X9.  When [open] returns true, on either platform: the object was
    closed and is now open, with the input mode and the synchronous flag
    of the call, its ignore-abort flag unchanged and its broken-pipe flag
    cleared; the handles made by the call and still open are those that
    the object is in charge of: the writing end-point when a pipe is used
    (kept in [_handle]), and on Windows the process handle when the call is
    synchronous (kept in [_process]).  The reading end-point and the thread
    handle are closed. *)
Theorem open_success_state
  (pf : ForkPipe.Platform) (self : ForkPipeOpen.t) (synchronous : bool)
  (out_mode : ForkPipeOpen.OutputMode) (in_mode : ForkPipe.InputMode)
  (a : ForkPipeOpen.Answers) :
  ForkPipeOpen.status
    (ForkPipeOpen.open pf self synchronous out_mode in_mode a)
  = ForkPipeOpen.Returned true ->
  ForkPipe._is_open (ForkPipeOpen.base self) = false
  /\ ForkPipeOpen.base
       (ForkPipeOpen.object
          (ForkPipeOpen.open pf self synchronous out_mode in_mode a))
     = ForkPipe.mk in_mode true synchronous
         (ForkPipe._ignore_abort (ForkPipeOpen.base self)) false
  /\ ForkPipeOpen.live
       (ForkPipeOpen.calls
          (ForkPipeOpen.open pf self synchronous out_mode in_mode a)) []
     = ForkPipeOpen.owned pf
         (ForkPipeOpen.object
            (ForkPipeOpen.open pf self synchronous out_mode in_mode a))
  /\ (in_mode = ForkPipe.USE_PIPE ->
      ForkPipeOpen._handle
        (ForkPipeOpen.object
           (ForkPipeOpen.open pf self synchronous out_mode in_mode a))
      = ForkPipeOpen.PipeWrite)
  /\ (pf = ForkPipe.Windows ->
      ForkPipeOpen._process
        (ForkPipeOpen.object
           (ForkPipeOpen.open pf self synchronous out_mode in_mode a))
      = if synchronous then ForkPipeOpen.ProcessHandle
        else ForkPipeOpen.Invalid).
Proof.
  open_cases self a.
  destruct o0; [intros H; discriminate H|].
  destruct pf, in_mode, pipe_ok0; cbn; try (intros H; discriminate H).
  all: try (destruct process_ok0, synchronous, out_mode; cbn;
            intros H; try discriminate H;
            repeat split; (reflexivity || discriminate)).
  all: destruct (pid0 <? 0), (pid0 =? 0); cbn; intros H; try discriminate H;
    repeat split; (reflexivity || discriminate).
Qed.

Lemma open_success_state_witness :
  ForkPipe._is_open (ForkPipeOpen.base ForkPipeOpen.closed_broken) = false
  /\ ForkPipeOpen.base
       (ForkPipeOpen.object
          (ForkPipeOpen.open ForkPipe.Windows ForkPipeOpen.closed_broken true
             ForkPipeOpen.STDOUT_ONLY ForkPipe.USE_PIPE ForkPipeOpen.all_fine))
     = ForkPipe.mk ForkPipe.USE_PIPE true true
         (ForkPipe._ignore_abort (ForkPipeOpen.base ForkPipeOpen.closed_broken))
         false
  /\ ForkPipeOpen.live
       (ForkPipeOpen.calls
          (ForkPipeOpen.open ForkPipe.Windows ForkPipeOpen.closed_broken true
             ForkPipeOpen.STDOUT_ONLY ForkPipe.USE_PIPE ForkPipeOpen.all_fine))
       []
     = ForkPipeOpen.owned ForkPipe.Windows
         (ForkPipeOpen.object
            (ForkPipeOpen.open ForkPipe.Windows ForkPipeOpen.closed_broken true
               ForkPipeOpen.STDOUT_ONLY ForkPipe.USE_PIPE
               ForkPipeOpen.all_fine))
  /\ (ForkPipe.USE_PIPE = ForkPipe.USE_PIPE ->
      ForkPipeOpen._handle
        (ForkPipeOpen.object
           (ForkPipeOpen.open ForkPipe.Windows ForkPipeOpen.closed_broken true
              ForkPipeOpen.STDOUT_ONLY ForkPipe.USE_PIPE
              ForkPipeOpen.all_fine))
      = ForkPipeOpen.PipeWrite)
  /\ (ForkPipe.Windows = ForkPipe.Windows ->
      ForkPipeOpen._process
        (ForkPipeOpen.object
           (ForkPipeOpen.open ForkPipe.Windows ForkPipeOpen.closed_broken true
              ForkPipeOpen.STDOUT_ONLY ForkPipe.USE_PIPE
              ForkPipeOpen.all_fine))
      = if true then ForkPipeOpen.ProcessHandle else ForkPipeOpen.Invalid).
Proof.
  apply (open_success_state ForkPipe.Windows ForkPipeOpen.closed_broken true
           ForkPipeOpen.STDOUT_ONLY ForkPipe.USE_PIPE ForkPipeOpen.all_fine).
  reflexivity.
Defined.

(** X10.  After an [open] that returned true, [close] releases
    everything, on either platform and whatever the wait answers: the
    handles made by [open] are all closed at the end of [close], which
    returns false only when the call is synchronous and the wait fails;
    the object is closed; a second [close] returns false without a call to
    the system, and a [write] returns false with the error "pipe is not
    open", without a call to the system either. *)
Theorem open_then_close_releases
  (pf : ForkPipe.Platform) (self : ForkPipeOpen.t) (synchronous : bool)
  (out_mode : ForkPipeOpen.OutputMode) (in_mode : ForkPipe.InputMode)
  (a a' : ForkPipeOpen.Answers) :
  ForkPipeOpen.status
    (ForkPipeOpen.open pf self synchronous out_mode in_mode a)
  = ForkPipeOpen.Returned true ->
  let opened :=
    ForkPipeOpen.open pf self synchronous out_mode in_mode a in
  let closed := ForkPipeOpen.close pf (ForkPipeOpen.object opened) a' in
  ForkPipeOpen.status closed
  = ForkPipeOpen.Returned (negb synchronous || ForkPipeOpen.wait_ok a')
  /\ ForkPipeOpen.live
       (ForkPipeOpen.calls opened ++ ForkPipeOpen.calls closed) [] = []
  /\ ForkPipe._is_open (ForkPipeOpen.base (ForkPipeOpen.object closed)) = false
  /\ (forall a'',
        ForkPipeOpen.close pf (ForkPipeOpen.object closed) a''
        = ForkPipeOpen.mkOutcome (ForkPipeOpen.Returned false)
            (ForkPipeOpen.object closed) [] [])
  /\ (forall size answers,
        ForkPipe.write pf (ForkPipeOpen.base (ForkPipeOpen.object closed))
          size answers
        = Some (ForkPipe.mkOutcome false
                  (ForkPipeOpen.base (ForkPipeOpen.object closed))
                  [ForkPipe.Error_pipe_is_not_open] [] answers)).
Proof.
  open_cases self a. destruct a' as [x1 x2 x3 x4 x5 x6 wait1].
  unfold ForkPipeOpen.close.
  destruct o0; [intros H; discriminate H|].
  destruct pf, in_mode, pipe_ok0; cbn; try (intros H; discriminate H).
  all: try (destruct process_ok0, synchronous, out_mode, wait1; cbn;
            intros H; try discriminate H;
            repeat split; reflexivity).
  all: destruct (pid0 <? 0), (pid0 =? 0), synchronous, wait1; cbn; intros H;
    try discriminate H; repeat split; reflexivity.
Qed.

Lemma open_then_close_releases_witness :
  let opened :=
    ForkPipeOpen.open ForkPipe.Unix ForkPipeOpen.new true
      ForkPipeOpen.KEEP_BOTH ForkPipe.USE_PIPE ForkPipeOpen.all_fine in
  let closed :=
    ForkPipeOpen.close ForkPipe.Unix (ForkPipeOpen.object opened)
      (ForkPipeOpen.mkAnswers true true 0 0 0 false false) in
  ForkPipeOpen.status closed
  = ForkPipeOpen.Returned
      (negb true
       || ForkPipeOpen.wait_ok
            (ForkPipeOpen.mkAnswers true true 0 0 0 false false))
  /\ ForkPipeOpen.live
       (ForkPipeOpen.calls opened ++ ForkPipeOpen.calls closed) [] = []
  /\ ForkPipe._is_open (ForkPipeOpen.base (ForkPipeOpen.object closed)) = false
  /\ (forall a'',
        ForkPipeOpen.close ForkPipe.Unix (ForkPipeOpen.object closed) a''
        = ForkPipeOpen.mkOutcome (ForkPipeOpen.Returned false)
            (ForkPipeOpen.object closed) [] [])
  /\ (forall size answers,
        ForkPipe.write ForkPipe.Unix
          (ForkPipeOpen.base (ForkPipeOpen.object closed)) size answers
        = Some (ForkPipe.mkOutcome false
                  (ForkPipeOpen.base (ForkPipeOpen.object closed))
                  [ForkPipe.Error_pipe_is_not_open] [] answers)).
Proof.
  apply (open_then_close_releases ForkPipe.Unix ForkPipeOpen.new true
           ForkPipeOpen.KEEP_BOTH ForkPipe.USE_PIPE ForkPipeOpen.all_fine
           (ForkPipeOpen.mkAnswers true true 0 0 0 false false)).
  reflexivity.
Defined.

Lemma open_returns_true_base pf self synchronous out_mode in_mode a :
  ForkPipeOpen.status
    (ForkPipeOpen.open pf self synchronous out_mode in_mode a)
  = ForkPipeOpen.Returned true ->
  ForkPipeOpen.base
    (ForkPipeOpen.object
       (ForkPipeOpen.open pf self synchronous out_mode in_mode a))
  = ForkPipe.mk in_mode true synchronous
      (ForkPipe._ignore_abort (ForkPipeOpen.base self)) false.
Proof.
  open_cases self a.
  destruct o0; [intros H; discriminate H|].
  destruct pf, in_mode, pipe_ok0; cbn; try (intros H; discriminate H).
  all: try (destruct process_ok0, synchronous; cbn;
            intros H; try discriminate H; reflexivity).
  all: destruct (pid0 <? 0), (pid0 =? 0); cbn; intros H; try discriminate H;
    reflexivity.
Qed.

(** X11.  Opening again clears a broken pipe: after an [open] with a pipe
    that returned true, whatever the object held before (a broken-pipe
    flag left by its last use, for one), [write] calls the system with the
    whole buffer, and returns true when this call is successful. *)
Theorem open_then_write_calls_the_system
  (pf : ForkPipe.Platform) (self : ForkPipeOpen.t) (synchronous : bool)
  (out_mode : ForkPipeOpen.OutputMode) (a : ForkPipeOpen.Answers)
  (size : Z) (answer : ForkPipe.Answer) (rest : list ForkPipe.Answer) :
  ForkPipeOpen.status
    (ForkPipeOpen.open pf self synchronous out_mode ForkPipe.USE_PIPE a)
  = ForkPipeOpen.Returned true ->
  0 < ForkPipe.initial_remain pf size < 2 ^ 64 ->
  ForkPipe.successful pf answer = true ->
  0 <= ForkPipe.outsize pf answer <= ForkPipe.initial_remain pf size ->
  ForkPipe.write pf
    (ForkPipeOpen.base
       (ForkPipeOpen.object
          (ForkPipeOpen.open pf self synchronous out_mode ForkPipe.USE_PIPE a)))
    size (answer :: rest)
  = Some (ForkPipe.mkOutcome true
            (ForkPipeOpen.base
               (ForkPipeOpen.object
                  (ForkPipeOpen.open pf self synchronous out_mode
                     ForkPipe.USE_PIPE a)))
            [] [(ForkPipe.initial_remain pf size, answer)] rest).
Proof.
  intros Hopen Hsize Hsucc Hout.
  rewrite (open_returns_true_base pf self synchronous out_mode
             ForkPipe.USE_PIPE a Hopen).
  unfold ForkPipe.write.
  cbn [ForkPipe._is_open ForkPipe._in_mode ForkPipe._broken_pipe
       ForkPipe._synchronous ForkPipe._ignore_abort negb].
  rewrite write_loop_successful; try assumption; try reflexivity.
  - cbn [ForkPipe.remain]. lia.
  - cbn [ForkPipe.remain]. lia.
Qed.

Lemma open_then_write_calls_the_system_witness :
  ForkPipe.write ForkPipe.Unix
    (ForkPipeOpen.base
       (ForkPipeOpen.object
          (ForkPipeOpen.open ForkPipe.Unix ForkPipeOpen.closed_broken false
             ForkPipeOpen.KEEP_BOTH ForkPipe.USE_PIPE ForkPipeOpen.all_fine)))
    188 (ForkPipe.mkAnswer 188 0 0 :: [])
  = Some (ForkPipe.mkOutcome true
            (ForkPipeOpen.base
               (ForkPipeOpen.object
                  (ForkPipeOpen.open ForkPipe.Unix ForkPipeOpen.closed_broken
                     false ForkPipeOpen.KEEP_BOTH ForkPipe.USE_PIPE
                     ForkPipeOpen.all_fine)))
            [] [(ForkPipe.initial_remain ForkPipe.Unix 188,
                 ForkPipe.mkAnswer 188 0 0)] []).
Proof.
  apply (open_then_write_calls_the_system ForkPipe.Unix
           ForkPipeOpen.closed_broken false ForkPipeOpen.KEEP_BOTH
           ForkPipeOpen.all_fine 188 (ForkPipe.mkAnswer 188 0 0) []).
  - reflexivity.
  - simpl. lia.
  - reflexivity.
  - simpl. lia.
Defined.

(** ** [ForkPipe::write]: what a call leaves *)

(** The broken-pipe flag of the loop is set by a failed call only. *)
Lemma write_loop_broken pf answers : forall s s' answers',
  ForkPipe.write_loop pf answers s = Some (s', answers') ->
  ForkPipe.broken_pipe s' = true ->
  ForkPipe.broken_pipe s = true
  \/ exists request answer,
       last (ForkPipe.calls s') (0, ForkPipe.mkAnswer 0 0 0) = (request, answer)
       /\ ForkPipe.successful pf answer = false
       /\ ForkPipe.is_broken_pipe pf (ForkPipe.errcode answer) = true.
Proof.
  induction answers as [|a answers IH]; intros s s' answers' Hloop Hset.
  - cbn [ForkPipe.write_loop] in Hloop.
    destruct ((0 <? ForkPipe.remain s) && negb (ForkPipe.error s));
      [discriminate|].
    injection Hloop as <- <-. left. exact Hset.
  - cbn [ForkPipe.write_loop] in Hloop.
    destruct ((0 <? ForkPipe.remain s) && negb (ForkPipe.error s)) eqn:Hgo.
    + destruct (IH _ _ _ Hloop Hset) as [Hturn|Hlast]; [|right; exact Hlast].
      (* the flag was set by this turn, or before it *)
      destruct (ForkPipe.broken_pipe s) eqn:Hbs; [left; reflexivity|].
      right.
      assert (Hstop : ForkPipe.error (ForkPipe.turn pf a s) = true
                      /\ ForkPipe.successful pf a = false
                      /\ ForkPipe.is_broken_pipe pf (ForkPipe.errcode a) = true
                      /\ ForkPipe.calls (ForkPipe.turn pf a s)
                         = ForkPipe.calls s ++ [(ForkPipe.remain s, a)]).
      { unfold ForkPipe.turn in *. destruct pf; cbn in *.
        - destruct (ForkPipe.ret a =? 0); cbn in *; [|congruence].
          repeat split; auto.
        - destruct (0 <? ForkPipe.ret a); cbn in *; [congruence|].
          destruct (ForkPipe.errcode a =? ForkPipe.EINTR); cbn in *;
            [congruence|]. repeat split; auto. }
      destruct Hstop as [Herr [Hsucc [Hcode Hcalls]]].
      assert (Hend : ForkPipe.write_loop pf answers (ForkPipe.turn pf a s)
                     = Some (ForkPipe.turn pf a s, answers)).
      { destruct answers; cbn [ForkPipe.write_loop]; rewrite Herr;
          cbn [negb]; rewrite andb_false_r; reflexivity. }
      rewrite Hend in Hloop. injection Hloop as <- <-.
      exists (ForkPipe.remain s), a. rewrite Hcalls, last_last. auto.
    + injection Hloop as <- <-. left. exact Hset.
Qed.

(** X12.  Whatever the object, the size and the answers of the system,
    when [write] returns: it has changed no field of the object but the
    broken-pipe flag; it has reported at most one message; it has
    reported an error only when it returns false; and the broken-pipe flag
    is set afterwards only if it was set before or if the last call to the
    system failed with the code of a broken pipe. *)
Theorem write_leaves
  (pf : ForkPipe.Platform) (self : ForkPipe.t) (size : Z)
  (answers : list ForkPipe.Answer) (out : ForkPipe.Outcome) :
  ForkPipe.write pf self size answers = Some out ->
  (ForkPipe._in_mode (ForkPipe.pipe out) = ForkPipe._in_mode self
   /\ ForkPipe._is_open (ForkPipe.pipe out) = ForkPipe._is_open self
   /\ ForkPipe._synchronous (ForkPipe.pipe out) = ForkPipe._synchronous self
   /\ ForkPipe._ignore_abort (ForkPipe.pipe out) = ForkPipe._ignore_abort self)
  /\ (length (ForkPipe.reports out) <= 1)%nat
  /\ (existsb ForkPipe.is_error (ForkPipe.reports out) = true ->
      ForkPipe.result out = false)
  /\ (ForkPipe._broken_pipe (ForkPipe.pipe out) = true ->
      ForkPipe._broken_pipe self = true
      \/ exists request answer,
           last (ForkPipe.os_calls out) (0, ForkPipe.mkAnswer 0 0 0)
           = (request, answer)
           /\ ForkPipe.successful pf answer = false
           /\ ForkPipe.is_broken_pipe pf (ForkPipe.errcode answer) = true).
Proof.
  unfold ForkPipe.write.
  destruct (ForkPipe._is_open self) eqn:Hopen; cbn [negb].
  2:{ intros H. injection H as <-. cbn. rewrite Hopen.
      repeat split; auto; try (intros H'; left; exact H'). }
  destruct (ForkPipe._in_mode self) eqn:Hmode.
  2:{ intros H. injection H as <-. cbn. rewrite Hopen, Hmode.
      repeat split; auto; try (intros H'; left; exact H'). }
  destruct (ForkPipe._broken_pipe self) eqn:Hbroken.
  { intros H. injection H as <-. cbn. rewrite Hopen, Hmode.
    repeat split; auto; try discriminate. }
  destruct (ForkPipe.write_loop pf answers
              (ForkPipe.mkLoop (ForkPipe.initial_remain pf size) false
                 ForkPipe.SYS_SUCCESS false [])) as [[s answers']|] eqn:Hloop;
    [|discriminate].
  pose proof (write_loop_broken pf answers _ s answers' Hloop) as Hb.
  cbn [ForkPipe.broken_pipe ForkPipe.calls] in Hb.
  intros H.
  destruct (ForkPipe.error s); cbn [negb] in H;
    [destruct (ForkPipe.broken_pipe s) eqn:Hbs; cbn [negb] in H;
     [destruct (ForkPipe._ignore_abort self) eqn:Hign|]|];
    injection H as <-; cbn; rewrite ?Hign;
    (split; [repeat split; reflexivity|]);
    (split; [lia|]); (split; [try discriminate; auto|]);
    intros Hset; right;
    (destruct Hb as [Hb|Hb]; [exact Hset || congruence|discriminate Hb|exact Hb]).
Qed.

Lemma write_leaves_witness :
  (ForkPipe._in_mode (ForkPipe.mk ForkPipe.USE_PIPE true false true true)
   = ForkPipe._in_mode (ForkPipe.open_pipe true)
   /\ ForkPipe._is_open (ForkPipe.mk ForkPipe.USE_PIPE true false true true)
      = ForkPipe._is_open (ForkPipe.open_pipe true)
   /\ ForkPipe._synchronous (ForkPipe.mk ForkPipe.USE_PIPE true false true true)
      = ForkPipe._synchronous (ForkPipe.open_pipe true)
   /\ ForkPipe._ignore_abort (ForkPipe.mk ForkPipe.USE_PIPE true false true true)
      = ForkPipe._ignore_abort (ForkPipe.open_pipe true))
  /\ (length [ForkPipe.Verbose_broken_pipe] <= 1)%nat
  /\ (existsb ForkPipe.is_error [ForkPipe.Verbose_broken_pipe] = true ->
      true = false)
  /\ (true = true ->
      ForkPipe._broken_pipe (ForkPipe.open_pipe true) = true
      \/ exists request answer,
           last [(188, ForkPipe.mkAnswer (-1) 0 ForkPipe.EPIPE)]
                (0, ForkPipe.mkAnswer 0 0 0)
           = (request, answer)
           /\ ForkPipe.successful ForkPipe.Unix answer = false
           /\ ForkPipe.is_broken_pipe ForkPipe.Unix (ForkPipe.errcode answer)
              = true).
Proof.
  apply (write_leaves ForkPipe.Unix (ForkPipe.open_pipe true) 188
           [ForkPipe.mkAnswer (-1) 0 ForkPipe.EPIPE]
           (ForkPipe.mkOutcome true
              (ForkPipe.mk ForkPipe.USE_PIPE true false true true)
              [ForkPipe.Verbose_broken_pipe]
              [(188, ForkPipe.mkAnswer (-1) 0 ForkPipe.EPIPE)] [])).
  reflexivity.
Defined.

(** X13.  On Windows the size is converted to a DWORD: [write] asks the
    system for [size mod 2^32] bytes only.  On an open pipe that is not
    broken, when the first call is successful, or when there is nothing
    left to ask for, it returns true; so a buffer of a multiple of 2^32
    bytes is "written" without any call to the system. *)
Theorem write_windows_size_is_a_DWORD
  (self : ForkPipe.t) (size : Z) (answer : ForkPipe.Answer)
  (rest : list ForkPipe.Answer) :
  ForkPipe._is_open self = true ->
  ForkPipe._in_mode self = ForkPipe.USE_PIPE ->
  ForkPipe._broken_pipe self = false ->
  (size mod 2 ^ 32 = 0 ->
   ForkPipe.write ForkPipe.Windows self size (answer :: rest)
   = Some (ForkPipe.mkOutcome true self [] [] (answer :: rest)))
  /\ (0 < size mod 2 ^ 32 ->
      ForkPipe.successful ForkPipe.Windows answer = true ->
      ForkPipe.outsize ForkPipe.Windows answer <= size mod 2 ^ 32 ->
      ForkPipe.write ForkPipe.Windows self size (answer :: rest)
      = Some (ForkPipe.mkOutcome true self [] [(size mod 2 ^ 32, answer)] rest)).
Proof.
  intros Hopen Hmode Hbroken.
  assert (Hself : ForkPipe.mk ForkPipe.USE_PIPE true
                    (ForkPipe._synchronous self) (ForkPipe._ignore_abort self)
                    false = self)
    by (destruct self; simpl in *; subst; reflexivity).
  unfold ForkPipe.write. rewrite Hopen, Hmode, Hbroken. cbn [negb].
  cbn [ForkPipe.initial_remain].
  change (ForkPipe.DWORD size) with (size mod 2 ^ 32).
  split.
  - intros Hzero. rewrite Hzero. cbn. now rewrite Hself.
  - intros Hpos Hsucc Hout.
    pose proof (Z.mod_pos_bound size (2 ^ 32) ltac:(lia)) as Hbound.
    pose proof (Z.mod_pos_bound (ForkPipe.written answer) (2 ^ 32) ltac:(lia)).
    assert (Hpow : 2 ^ 32 < 2 ^ 64) by reflexivity.
    rewrite write_loop_successful; try assumption; try reflexivity.
    + cbn. now rewrite Hself.
    + cbn [ForkPipe.remain]. cbn [ForkPipe.outsize] in *.
      unfold ForkPipe.DWORD in *. lia.
    + cbn [ForkPipe.remain]. lia.
Qed.

Lemma write_windows_size_is_a_DWORD_witness :
  (2 ^ 33 mod 2 ^ 32 = 0 ->
   ForkPipe.write ForkPipe.Windows (ForkPipe.open_pipe false) (2 ^ 33)
     (ForkPipe.mkAnswer 1 188 0 :: [])
   = Some (ForkPipe.mkOutcome true (ForkPipe.open_pipe false) [] []
             (ForkPipe.mkAnswer 1 188 0 :: [])))
  /\ (0 < 2 ^ 33 mod 2 ^ 32 ->
      ForkPipe.successful ForkPipe.Windows (ForkPipe.mkAnswer 1 188 0) = true ->
      ForkPipe.outsize ForkPipe.Windows (ForkPipe.mkAnswer 1 188 0)
      <= 2 ^ 33 mod 2 ^ 32 ->
      ForkPipe.write ForkPipe.Windows (ForkPipe.open_pipe false) (2 ^ 33)
        (ForkPipe.mkAnswer 1 188 0 :: [])
      = Some (ForkPipe.mkOutcome true (ForkPipe.open_pipe false) []
                [(2 ^ 33 mod 2 ^ 32, ForkPipe.mkAnswer 1 188 0)] [])).
Proof.
  apply (write_windows_size_is_a_DWORD (ForkPipe.open_pipe false) (2 ^ 33)
           (ForkPipe.mkAnswer 1 188 0) []); reflexivity.
Defined.

(** ** Utilities for IP networking *)

(** X14.  Once IPInitialize has returned true, every later call returns
    true at once: no message, no call to WSAStartup, whatever the system
    would answer.  (On Windows the first successful call sets the static
    flag; elsewhere the function does nothing.) *)
Theorem IPInitialize_once (pf : IPUtils.Platform) (done : bool) (err : Z) :
  fst (fst (fst (IPUtils.IPInitialize pf done err))) = true ->
  forall err',
    IPUtils.IPInitialize pf
      (snd (fst (fst (IPUtils.IPInitialize pf done err)))) err'
    = (true, snd (fst (fst (IPUtils.IPInitialize pf done err))), [], []).
Proof.
  destruct pf, done; cbn; try (intros _ err'; reflexivity).
  destruct (err =? 0); cbn; [intros _ err'; reflexivity|discriminate].
Qed.

Lemma IPInitialize_once_witness :
  IPUtils.IPInitialize IPUtils.Windows
    (snd (fst (fst (IPUtils.IPInitialize IPUtils.Windows false 0)))) 10091
  = (true, snd (fst (fst (IPUtils.IPInitialize IPUtils.Windows false 0))),
     [], []).
Proof.
  apply (IPInitialize_once IPUtils.Windows false 0). reflexivity.
Defined.

Section LocalAddresses.

Variable SockAddr : Type.
Variable IPAddress : Type.
Variable of_sockaddr : SockAddr -> IPAddress.
Variable hasAddress : IPAddress -> bool.
Variable eqb : IPAddress -> IPAddress -> bool.
Variable LocalHost : IPAddress.
Variable entry_size : Z.

Local Abbreviation Answers := (IPUtils.Answers SockAddr).
Local Abbreviation GetLocalIPAddresses :=
  (IPUtils.GetLocalIPAddresses SockAddr IPAddress of_sockaddr hasAddress eqb
     LocalHost entry_size).
Local Abbreviation IsLocalIPAddress :=
  (IPUtils.IsLocalIPAddress SockAddr IPAddress of_sockaddr hasAddress eqb
     LocalHost entry_size).
Local Abbreviation browsed :=
  (IPUtils.browsed SockAddr IPAddress of_sockaddr entry_size).
Local Abbreviation count := (IPUtils.count SockAddr entry_size).

(** X15.  Whatever the platform and the answers of the system, every
    address that GetLocalIPAddresses returns has an address and is not the
    local host; the list is empty and an error is reported when the
    function returns false, and nothing is reported when it returns
    true. *)
Theorem GetLocalIPAddresses_result (pf : IPUtils.Platform) (a : Answers) :
  Forall (fun addr => hasAddress addr = true /\ eqb addr LocalHost = false)
         (IPUtils.addresses _ (GetLocalIPAddresses pf a))
  /\ (IPUtils.status _ (GetLocalIPAddresses pf a) = false ->
      IPUtils.addresses _ (GetLocalIPAddresses pf a) = []
      /\ IPUtils.reports _ (GetLocalIPAddresses pf a) <> [])
  /\ (IPUtils.status _ (GetLocalIPAddresses pf a) = true ->
      IPUtils.reports _ (GetLocalIPAddresses pf a) = []).
Proof.
  assert (Hkeep : forall l,
            Forall (fun addr => hasAddress addr = true
                                /\ eqb addr LocalHost = false)
                   (filter (IPUtils.keep IPAddress hasAddress eqb LocalHost) l)).
  { intros l. apply Forall_forall. intros x Hx.
    apply filter_In in Hx. destruct Hx as [_ Hx].
    unfold IPUtils.keep in Hx. apply andb_true_iff in Hx.
    destruct Hx as [H1 H2]. apply negb_true_iff in H2. now split. }
  assert (Hnil : Forall (fun addr => hasAddress addr = true
                                     /\ eqb addr LocalHost = false) [])
    by apply Forall_nil.
  unfold IPUtils.GetLocalIPAddresses.
  destruct pf.
  - destruct (negb (IPUtils.getifaddrs_ret _ a =? 0)); cbn.
    + split; [exact Hnil|]. split; [|discriminate].
      intros _. split; [reflexivity|discriminate].
    + split; [apply Hkeep|]. split; [discriminate|reflexivity].
  - destruct (negb (IPUtils.socket_ok _ a));
      [|destruct (negb (IPUtils.ioctl_ret _ a =? 0))]; cbn.
    + split; [exact Hnil|]. split; [|discriminate].
      intros _. split; [reflexivity|discriminate].
    + split; [exact Hnil|]. split; [|discriminate].
      intros _. split; [reflexivity|discriminate].
    + split; [apply Hkeep|]. split; [discriminate|reflexivity].
  - destruct (negb (IPUtils.socket_ok _ a));
      [|destruct (negb (IPUtils.ioctl_ret _ a =? 0))]; cbn.
    + split; [exact Hnil|]. split; [|discriminate].
      intros _. split; [reflexivity|discriminate].
    + split; [exact Hnil|]. split; [|discriminate].
      intros _. split; [reflexivity|discriminate].
    + split; [apply Hkeep|]. split; [discriminate|reflexivity].
  - cbn. split; [exact Hnil|]. split; [|discriminate].
    intros _. split; [reflexivity|discriminate].
Qed.

(** X16.  On Windows and on UNIX, whatever size the system reports (a
    negative one, one larger than the array), the loop reads fewer than 33
    entries of the array [info], which has 32: the list returned has at
    most 32 addresses. *)
Theorem GetLocalIPAddresses_reads_within_info
  (pf : IPUtils.Platform) (a : Answers) :
  pf = IPUtils.Windows \/ pf = IPUtils.Unix ->
  0 < entry_size ->
  32 * entry_size < 2 ^ 32 ->
  0 <= count pf a <= 32
  /\ (length (IPUtils.addresses _ (GetLocalIPAddresses pf a)) <= 32)%nat.
Proof.
  intros Hpf Hpos Hsmall.
  assert (Hcount : 0 <= count pf a <= 32).
  { unfold IPUtils.count, IPUtils.sizeof_info, ForkPipe.DWORD.
    destruct Hpf as [-> | ->].
    - rewrite (Z.mod_small (32 * entry_size)) by lia.
      pose proof (Z.mod_pos_bound (IPUtils.reported _ a) (2 ^ 32) ltac:(lia)).
      split.
      + apply Z.div_pos; lia.
      + apply Z.div_le_upper_bound; lia.
    - split.
      + apply Z.div_pos; lia.
      + apply Z.div_le_upper_bound; lia. }
  split; [exact Hcount|].
  assert (Hlen : (length (filter (IPUtils.keep IPAddress hasAddress eqb LocalHost)
                            (browsed pf a)) <= 32)%nat).
  { eapply Nat.le_trans; [apply filter_length_le|].
    destruct Hpf as [-> | ->]; cbn [IPUtils.browsed];
      rewrite length_map, length_seq; lia. }
  unfold IPUtils.GetLocalIPAddresses.
  destruct Hpf as [-> | ->];
    (destruct (negb (IPUtils.socket_ok _ a));
     [|destruct (negb (IPUtils.ioctl_ret _ a =? 0))]);
    cbn [IPUtils.addresses length]; (lia || exact Hlen).
Qed.

(** X17.  GetLocalIPAddresses gives back to the system what it got from
    it, on every path: the socket is closed when the query of the
    interfaces fails as when it works, the list of ::getifaddrs is freed;
    nothing is given back that was not got. *)
Theorem GetLocalIPAddresses_releases (pf : IPUtils.Platform) (a : Answers) :
  IPUtils.pending (IPUtils.calls _ (GetLocalIPAddresses pf a)) 0 = 0
  /\ (In IPUtils.CloseSocket (IPUtils.calls _ (GetLocalIPAddresses pf a)) ->
      IPUtils.socket_ok _ a = true)
  /\ (In IPUtils.Freeifaddrs (IPUtils.calls _ (GetLocalIPAddresses pf a)) ->
      IPUtils.getifaddrs_ret _ a = 0).
Proof.
  unfold IPUtils.GetLocalIPAddresses.
  destruct pf.
  - destruct (Z.eqb_spec (IPUtils.getifaddrs_ret _ a) 0) as [E|E]; cbn.
    + rewrite E. cbn. repeat split; auto.
      intros [H|[H|[]]]; discriminate H.
    + repeat split.
      * destruct (IPUtils.getifaddrs_ret _ a); [contradiction|reflexivity..].
      * intros [H|[]]; discriminate H.
      * intros [H|[]]; discriminate H.
  - destruct (IPUtils.socket_ok _ a);
      [destruct (negb (IPUtils.ioctl_ret _ a =? 0))|]; cbn;
      repeat split; auto;
      intros H; repeat (destruct H as [H|H]; try discriminate H);
      contradiction.
  - destruct (IPUtils.socket_ok _ a);
      [destruct (negb (IPUtils.ioctl_ret _ a =? 0))|]; cbn;
      repeat split; auto;
      intros H; repeat (destruct H as [H|H]; try discriminate H);
      contradiction.
  - cbn. repeat split; auto; intros [].
Qed.

Hypothesis eqb_eq : forall x y, eqb x y = true <-> x = y.

(** X18.  When [operator==] is the equality of addresses:
    IsLocalIPAddress is true exactly for the local host, without any call
    to the system, and for an address that has an address and that is one
    of those that the system lists, if the query of the system works. *)
Theorem IsLocalIPAddress_iff
  (pf : IPUtils.Platform) (a : Answers) (address : IPAddress) :
  (fst (IsLocalIPAddress pf a address) = true
   <-> (address = LocalHost
        \/ (IPUtils.status _ (GetLocalIPAddresses pf a) = true
            /\ hasAddress address = true
            /\ In address (browsed pf a))))
  /\ (address = LocalHost -> snd (IsLocalIPAddress pf a address) = []).
Proof.
  unfold IPUtils.IsLocalIPAddress.
  destruct (eqb address LocalHost) eqn:Hlocal.
  - apply eqb_eq in Hlocal. split; [|reflexivity].
    split; [intros _; left; exact Hlocal|reflexivity].
  - assert (Hne : address <> LocalHost).
    { intros E. apply eqb_eq in E. congruence. }
    split; [|contradiction].
    cbn [fst]. rewrite andb_true_iff, existsb_exists.
    assert (Hlist : IPUtils.status _ (GetLocalIPAddresses pf a) = true ->
                    IPUtils.addresses _ (GetLocalIPAddresses pf a)
                    = filter (IPUtils.keep IPAddress hasAddress eqb LocalHost)
                             (browsed pf a)).
    { unfold IPUtils.GetLocalIPAddresses. destruct pf.
      - destruct (negb (IPUtils.getifaddrs_ret _ a =? 0)); cbn;
          [discriminate|reflexivity].
      - destruct (negb (IPUtils.socket_ok _ a));
          [|destruct (negb (IPUtils.ioctl_ret _ a =? 0))]; cbn;
          (discriminate || reflexivity).
      - destruct (negb (IPUtils.socket_ok _ a));
          [|destruct (negb (IPUtils.ioctl_ret _ a =? 0))]; cbn;
          (discriminate || reflexivity).
      - cbn. discriminate. }
    split.
    + intros [Hs [x [Hx Heq]]]. right. apply eqb_eq in Heq. subst x.
      rewrite (Hlist Hs) in Hx. apply filter_In in Hx.
      destruct Hx as [Hin Hkeep]. unfold IPUtils.keep in Hkeep.
      apply andb_true_iff in Hkeep. tauto.
    + intros [E|[Hs [Hhas Hin]]]; [contradiction|].
      split; [exact Hs|]. exists address. split; [|now apply eqb_eq].
      rewrite (Hlist Hs). apply filter_In. split; [exact Hin|].
      unfold IPUtils.keep. now rewrite Hhas, Hlocal.
Qed.

End LocalAddresses.

Lemma GetLocalIPAddresses_reads_within_info_witness :
  0 <= IPUtils.count Z 40 IPUtils.Unix IPUtils.ipv4_overflow <= 32
  /\ (length
        (IPUtils.addresses Z
           (IPUtils.GetLocalIPAddresses Z Z (fun x => x)
              IPUtils.ipv4_has_address Z.eqb IPUtils.ipv4_localhost 40
              IPUtils.Unix IPUtils.ipv4_overflow)) <= 32)%nat.
Proof.
  apply (GetLocalIPAddresses_reads_within_info Z Z (fun x => x)
           IPUtils.ipv4_has_address Z.eqb IPUtils.ipv4_localhost 40
           IPUtils.Unix IPUtils.ipv4_overflow).
  - right. reflexivity.
  - lia.
  - reflexivity.
Defined.

Lemma IsLocalIPAddress_iff_witness :
  (fst (IPUtils.IsLocalIPAddress Z Z (fun x => x) IPUtils.ipv4_has_address
          Z.eqb IPUtils.ipv4_localhost 40 IPUtils.Mac IPUtils.ipv4_answers
          0x0A000001) = true
   <-> (0x0A000001 = IPUtils.ipv4_localhost
        \/ (IPUtils.status Z
              (IPUtils.GetLocalIPAddresses Z Z (fun x => x)
                 IPUtils.ipv4_has_address Z.eqb IPUtils.ipv4_localhost 40
                 IPUtils.Mac IPUtils.ipv4_answers) = true
            /\ IPUtils.ipv4_has_address 0x0A000001 = true
            /\ In 0x0A000001
                  (IPUtils.browsed Z Z (fun x => x) 40 IPUtils.Mac
                     IPUtils.ipv4_answers))))
  /\ (0x0A000001 = IPUtils.ipv4_localhost ->
      snd (IPUtils.IsLocalIPAddress Z Z (fun x => x) IPUtils.ipv4_has_address
             Z.eqb IPUtils.ipv4_localhost 40 IPUtils.Mac IPUtils.ipv4_answers
             0x0A000001) = []).
Proof.
  apply (IsLocalIPAddress_iff Z Z (fun x => x) IPUtils.ipv4_has_address
           Z.eqb IPUtils.ipv4_localhost 40 Z.eqb_eq IPUtils.Mac
           IPUtils.ipv4_answers 0x0A000001).
Defined.

(** ** The packet counter of a stage *)

(** X19.  The calls of [addTotalPackets] compose: after any sequence of
    them the counter is the sum of the first value and of the increments,
    modulo 2^64, and the three flags of the stage are unchanged. *)
Theorem addTotalPackets_sum (l : list Z) (self : JointTermination.t) :
  l <> [] ->
  JointTermination.totalPackets (JointTermination.add_all l self)
  = JointTermination.PacketCounter
      (JointTermination.totalPackets self + fold_right Z.add 0 l)
  /\ JointTermination._ignore_jt (JointTermination.add_all l self)
     = JointTermination._ignore_jt self
  /\ JointTermination._use_jt (JointTermination.add_all l self)
     = JointTermination._use_jt self
  /\ JointTermination._jt_completed (JointTermination.add_all l self)
     = JointTermination._jt_completed self.
Proof.
  unfold JointTermination.add_all, JointTermination.totalPackets.
  revert self. induction l as [|a l IH]; intros self Hne; [contradiction|].
  destruct l as [|b l].
  - cbn. rewrite Z.add_0_r. repeat split; reflexivity.
  - change (fold_left _ (a :: b :: l) self)
      with (fold_left (fun s incr => JointTermination.addTotalPackets incr s)
                      (b :: l) (JointTermination.addTotalPackets a self)).
    destruct (IH (JointTermination.addTotalPackets a self) ltac:(discriminate))
      as [H1 [H2 [H3 H4]]].
    rewrite H1, H2, H3, H4.
    split; [|repeat split; reflexivity].
    unfold JointTermination.addTotalPackets, JointTermination.PacketCounter.
    cbn [JointTermination._total_packets].
    change (fold_right Z.add 0 (a :: b :: l))
      with (a + fold_right Z.add 0 (b :: l)).
    rewrite Zplus_mod_idemp_l. f_equal. lia.
Qed.

Lemma addTotalPackets_sum_witness :
  JointTermination.totalPackets
    (JointTermination.add_all [2 ^ 63; 2 ^ 63; 5]
       (JointTermination.new false))
  = JointTermination.PacketCounter
      (JointTermination.totalPackets (JointTermination.new false)
       + fold_right Z.add 0 [2 ^ 63; 2 ^ 63; 5])
  /\ JointTermination._ignore_jt
       (JointTermination.add_all [2 ^ 63; 2 ^ 63; 5]
          (JointTermination.new false))
     = JointTermination._ignore_jt (JointTermination.new false)
  /\ JointTermination._use_jt
       (JointTermination.add_all [2 ^ 63; 2 ^ 63; 5]
          (JointTermination.new false))
     = JointTermination._use_jt (JointTermination.new false)
  /\ JointTermination._jt_completed
       (JointTermination.add_all [2 ^ 63; 2 ^ 63; 5]
          (JointTermination.new false))
     = JointTermination._jt_completed (JointTermination.new false).
Proof.
  apply (addTotalPackets_sum [2 ^ 63; 2 ^ 63; 5] (JointTermination.new false)).
  discriminate.
Defined.
